(** * qlbridge expression parser and dialect writers

    A shallow embedding of the expression parser (token pager, recursive
    descent grammar O/A/C/P/M/F/v, function calls, multi-argument IN) and
    of the dialect writers of package [expr], with the properties the
    specification states about them. *)

From Stdlib Require Import ZArith Lia Bool Ascii String List.
From stdpp Require Import base option list gmap strings.

Local Open Scope Z_scope.

(** ** Tokens (package lex, consumed through its interface) *)

(** The token types the parser and the pager refer to by name; every other
    member of the lexer's enumeration is [TokenOther]. *)
Inductive TokenType : Set :=
| TokenEOF | TokenEOS | TokenFrom | TokenComma | TokenIf | TokenAs
| TokenSelect | TokenLimit
| TokenLogicOr | TokenOr | TokenLogicAnd | TokenAnd
| TokenCommentSingleLine
| TokenEqual | TokenEqualEqual | TokenNE | TokenGT | TokenGE | TokenLE
| TokenLT | TokenLike | TokenBetween | TokenIN
| TokenPlus | TokenMinus | TokenStar | TokenMultiply | TokenDivide
| TokenModulus
| TokenLeftParenthesis | TokenRightParenthesis
| TokenUdfExpr | TokenInteger | TokenFloat | TokenIdentity | TokenValue
| TokenNegate
| TokenOther (code : N).

#[global] Instance TokenType_eq_dec : EqDecision TokenType.
Proof. solve_decision. Defined.

(** [lex.Token]: type tag [T], byte offset [Pos], text [V]. *)
Record Token : Set := mkToken { T : TokenType; Pos : Z; V : string }.

#[global] Instance Token_eq_dec : EqDecision Token.
Proof. solve_decision. Defined.

(** Modelled from the spec: the lexer is an external collaborator that yields
    a sequence of tokens; it is represented by the tokens it still has to
    yield, and once they are used up [NextToken] keeps yielding EOF. *)
Definition Lexer : Set := list Token.

Definition eofToken : Token := mkToken TokenEOF 0 EmptyString.

Definition NextToken (l : Lexer) : Token * Lexer :=
  match l with
  | [] => (eofToken, [])
  | tok :: rest => (tok, rest)
  end.

(** ** The token pager *)

Module Pager.

(** [LexTokenPager]; the field [end] of the source is [end_] here. *)
Record LexTokenPager : Set := mkPager {
  done : bool;
  tokens : list Token;
  cursor : Z;
  lex : Lexer;
  end_ : TokenType
}.

Definition set_cursor (m : LexTokenPager) (c : Z) : LexTokenPager :=
  mkPager (done m) (tokens m) c (lex m) (end_ m).

(** The zero value of [lex.TokenType], the initial value of the field [end]. *)
Definition TokenNil : TokenType := TokenOther 0.

Definition NewLexTokenPager (l : Lexer) : LexTokenPager :=
  mkPager false [] (-1) l TokenNil.

Definition set_end (m : LexTokenPager) (e : TokenType) : LexTokenPager :=
  mkPager (done m) (tokens m) (cursor m) (lex m) e.

(** [s[i]] on a Go slice: [None] stands for the index-out-of-range fault. *)
Definition index (s : list Token) (i : Z) : option Token :=
  if decide (0 <= i) then s !! Z.to_nat i else None.

Definition len (s : list Token) : Z := Z.of_nat (length s).

(** The first half of [Next]: pull one token from the lexer unless done. *)
Definition pull (m : LexTokenPager) : LexTokenPager :=
  if done m then m
  else
    let '(tok, l) := NextToken (lex m) in
    mkPager (if decide (T tok = TokenEOF) then true else done m)
            (tokens m ++ [tok]) (cursor m) l (end_ m).

(** The second half of [Next]: advance the cursor when a token is ahead. *)
Definition advance (m : LexTokenPager) : LexTokenPager :=
  if decide (cursor m + 1 < len (tokens m))
  then set_cursor m (cursor m + 1) else m.

Definition Next (m : LexTokenPager) : option (Token * LexTokenPager) :=
  let m' := advance (pull m) in
  match index (tokens m') (cursor m') with
  | Some tok => Some (tok, m')
  | None => None
  end.

Definition Cur (m : LexTokenPager) : option (Token * LexTokenPager) :=
  if decide (cursor m = -1) then Next m
  else match index (tokens m) (cursor m) with
       | Some tok => Some (tok, m)
       | None => None
       end.

Definition Last (m : LexTokenPager) : TokenType := end_ m.

Definition IsEnd (m : LexTokenPager) : bool := false.

Definition Backup (m : LexTokenPager) : LexTokenPager :=
  if decide (cursor m > 0) then set_cursor m (cursor m - 1) else m.

Definition Peek (m : LexTokenPager) : option (Token * LexTokenPager) :=
  let primed :=
    if decide (len (tokens m) <= cursor m + 1)
    then match Next m with
         | Some (_, m') => Some (set_cursor m' (cursor m' - 1))
         | None => None
         end
    else Some m in
  match primed with
  | Some m' =>
      match index (tokens m') (cursor m' + 1) with
      | Some tok => Some (tok, m')
      | None => None
      end
  | None => None
  end.

(** Calls a client can make, and running a sequence of them; a fault in any
    call makes the run fail. *)
Inductive Op : Set := OpNext | OpCur | OpPeek | OpBackup.

Definition step (o : Op) (m : LexTokenPager) : option LexTokenPager :=
  match o with
  | OpNext => snd <$> Next m
  | OpCur => snd <$> Cur m
  | OpPeek => snd <$> Peek m
  | OpBackup => Some (Backup m)
  end.

Fixpoint run (ops : list Op) (m : LexTokenPager) : option LexTokenPager :=
  match ops with
  | [] => Some m
  | o :: rest => match step o m with
                 | Some m' => run rest m'
                 | None => None
                 end
  end.

(** States a client can reach from a fresh pager. *)
Definition reachable (m : LexTokenPager) : Prop :=
  exists (l : Lexer) (ops : list Op), run ops (NewLexTokenPager l) = Some m.

Definition isEOF (tok : Token) : Prop := T tok = TokenEOF.

(** The cursor stays inside the buffer (or at -1 in front of it), and the
    pager is done exactly when an EOF token has been buffered. *)
Definition inv (m : LexTokenPager) : Prop :=
  -1 <= cursor m < len (tokens m) /\
  (done m = true <-> Exists isEOF (tokens m)).

End Pager.

(** ** Strings *)

(** [strings.ToLower] on ASCII text: the letters A to Z are mapped to a to
    z, every other byte is kept. On text outside ASCII the Go function also
    lowers the letters beyond A to Z, which this model keeps as they are;
    the general theorems use [ToLower] only through equations that hold for
    any such function, and the concrete runs are on ASCII text. *)
Definition lower_ascii (c : ascii) : ascii :=
  let n := nat_of_ascii c in
  if (65 <=? n)%nat && (n <=? 90)%nat then ascii_of_nat (n + 32) else c.

Fixpoint ToLower (s : string) : string :=
  match s with
  | EmptyString => EmptyString
  | String c rest => String (lower_ascii c) (ToLower rest)
  end.

(** ** The node model and the parser *)

Module Parser.
Import Pager.

(** Modelled from the spec: the function descriptor [Func] is declared
    outside the parser source; the parser only builds the literal
    [Func{Name: ...}], so the descriptor is its [Name] and an opaque handle
    for the remaining fields, absent in a literal that sets only the name. *)
Record Func : Set := mkFunc { Name : string; Impl : option N }.

#[local] Set Warnings "-register-all".

(** Modelled from the spec: the node variants of the data model, as the
    parser's constructor calls build them. [NilNode] is Go's nil [Node]. *)
Inductive Node : Set :=
| NilNode
| NumberNode (pos : Z) (text : string)
| StringNode (pos : Z) (text : string)
| IdentityNode (pos : Z) (text : string)
| NullNode (pos : Z)
| UnaryNode (op : Token) (arg : Node)
| BinaryNode (paren : bool) (op : Token) (lhs rhs : Node)
| TriNode (op : Token) (a b c : Node)
| MultiArgNode (op : Token) (args : list Node)
| FuncNode (pos : Z) (name : string) (f : Func) (args : list Node).

Definition NewStringNode (pos : Z) (text : string) : Node := StringNode pos text.
Definition NewIdentityNode (pos : Z) (text : string) : Node := IdentityNode pos text.
Definition NewUnary (op : Token) (arg : Node) : Node := UnaryNode op arg.
Definition NewBinaryNode (op : Token) (lhs rhs : Node) : Node :=
  BinaryNode false op lhs rhs.
Definition NewTriNode (op : Token) (a b c : Node) : Node := TriNode op a b c.
Definition NewMultiArgNode (op : Token) : Node := MultiArgNode op [].
Definition NewFuncNode (pos : Z) (name : string) (f : Func) : Node :=
  FuncNode pos name f [].

(** [multiNode.Append(n)] and [fn.append(n)]. *)
Definition Append (m n : Node) : Node :=
  match m with
  | MultiArgNode op args => MultiArgNode op (args ++ [n])
  | FuncNode pos name f args => FuncNode pos name f (args ++ [n])
  | _ => m
  end.

Definition isNil (n : Node) : bool :=
  match n with NilNode => true | _ => false end.

(** [if node != nil { fn.append(node) }] *)
Definition appendIf (fn node : Node) : Node :=
  if isNil node then fn else Append fn node.

(** The parenthesis flag is raised when [n] is a binary node: the type
    switch on [n] followed by [bn.Paren = true]. *)
Definition setParen (n : Node) : Node :=
  match n with
  | BinaryNode _ op l r => BinaryNode true op l r
  | _ => n
  end.

(** [Tree]: the embedded pager is the [LexTokenPager]. *)
Record Tree : Set := mkTree {
  runCheck : bool;
  Root : Node;
  TokenPager : LexTokenPager
}.

Definition NewTree (pager : LexTokenPager) : Tree := mkTree false NilNode pager.

Definition set_pager (t : Tree) (p : LexTokenPager) : Tree :=
  mkTree (runCheck t) (Root t) p.
Definition set_Root (t : Tree) (n : Node) : Tree :=
  mkTree (runCheck t) n (TokenPager t).
Definition set_runCheck (t : Tree) (b : bool) : Tree :=
  mkTree b (Root t) (TokenPager t).

(** What a panic carries: an [error] value (the parser's domain errors), a
    plain string, or a [runtime.Error]. *)
Inductive PanicValue : Set :=
| PanicError (msg : string)
| PanicString (msg : string)
| PanicRuntime.

(** A call returns a value, panics, or the model runs out of fuel. *)
Inductive Outcome (A : Type) : Type :=
| Ok (a : A) (t : Tree)
| Panic (p : PanicValue) (t : Tree)
| OutOfFuel.
Arguments Ok {A} a t.
Arguments Panic {A} p t.
Arguments OutOfFuel {A}.

Definition Parse (A : Type) : Type := Tree -> Outcome A.

Definition ret {A} (a : A) : Parse A := fun t => Ok a t.

Definition bind {A B} (m : Parse A) (k : A -> Parse B) : Parse B :=
  fun t => match m t with
           | Ok a t' => k a t'
           | Panic p t' => Panic p t'
           | OutOfFuel => OutOfFuel
           end.

Definition panic {A} (p : PanicValue) : Parse A := fun t => Panic p t.

Definition outOfFuel {A} : Parse A := fun _ => OutOfFuel.

Declare Scope parse_scope.
Delimit Scope parse_scope with parse.
Notation "x <- m ;; k" := (bind m (fun x => k))
  (at level 100, m at next level, right associativity) : parse_scope.
Local Open Scope parse_scope.

(** The pager's methods on the tree; an out-of-range index is a runtime
    fault. *)
Definition liftPager (f : LexTokenPager -> option (Token * LexTokenPager))
  : Parse Token :=
  fun t => match f (TokenPager t) with
           | Some (tok, p) => Ok tok (set_pager t p)
           | None => Panic PanicRuntime t
           end.

Definition tNext : Parse Token := liftPager Pager.Next.
Definition tCur : Parse Token := liftPager Pager.Cur.
Definition tPeek : Parse Token := liftPager Pager.Peek.
Definition tBackup : Parse unit :=
  fun t => Ok tt (set_pager t (Pager.Backup (TokenPager t))).
Definition tIsEnd : Parse bool := fun t => Ok (Pager.IsEnd (TokenPager t)) t.

(** [errorf]: clears the root and panics with the error whose message is the
    format prefixed by [expr: ]. *)
Definition errorf {A} (msg : string) : Parse A :=
  fun t => Panic (PanicError ("expr: " ++ msg)) (set_Root t NilNode).

Definition error {A} (err : string) : Parse A := errorf err.

Section Grammar.

(** The global registry [funcs], the text of a token ([Token.String]), the
    error of [NewNumber] on a text that is no number, and [Node.Check]: all
    declared outside the parser source. *)
Variable funcs : gmap string Func.
Variable tokenString : Token -> string.
Variable numberErr : string -> option string.
Variable Check : Node -> option string.

Definition NewNumber (pos : Z) (text : string) : Node + string :=
  match numberErr text with
  | None => inl (NumberNode pos text)
  | Some err => inr err
  end.

Definition unexpected {A} (token : Token) (context : string) : Parse A :=
  errorf ("unexpected " ++ tokenString token ++ " in " ++ context).

Definition expect (expected : TokenType) (context : string) : Parse Token :=
  token <- tCur ;;
  if decide (T token <> expected) then unexpected token context
  else ret token.

Definition expectOneOf (expected1 expected2 : TokenType) (context : string)
  : Parse Token :=
  token <- tCur ;;
  if decide (T token <> expected1 /\ T token <> expected2)
  then unexpected token context
  else ret token.

Definition getFunction (name : string) : option Func := funcs !! ToLower name.

(** The grammar. Each call and each loop iteration uses one unit of fuel. *)
Fixpoint O (fuel : nat) (depth : Z) {struct fuel} : Parse Node :=
  match fuel with
  | 0%nat => outOfFuel
  | S fuel => n <- A fuel depth ;; O_loop fuel depth n
  end
with O_loop (fuel : nat) (depth : Z) (n : Node) {struct fuel} : Parse Node :=
  match fuel with
  | 0%nat => outOfFuel
  | S fuel =>
      tok <- tCur ;;
      match T tok with
      | TokenLogicOr | TokenOr =>
          _ <- tNext ;;
          r <- A fuel (depth + 1) ;;
          O_loop fuel depth (NewBinaryNode tok n r)
      | TokenCommentSingleLine =>
          _ <- tNext ;;
          _ <- tNext ;;
          O_loop fuel depth n
      | TokenEOF | TokenEOS | TokenFrom | TokenComma | TokenIf
      | TokenAs | TokenSelect | TokenLimit => ret n
      | _ => ret n
      end
  end
with A (fuel : nat) (depth : Z) {struct fuel} : Parse Node :=
  match fuel with
  | 0%nat => outOfFuel
  | S fuel => n <- C fuel depth ;; A_loop fuel depth n
  end
with A_loop (fuel : nat) (depth : Z) (n : Node) {struct fuel} : Parse Node :=
  match fuel with
  | 0%nat => outOfFuel
  | S fuel =>
      tok <- tCur ;;
      match T tok with
      | TokenLogicAnd | TokenAnd =>
          _ <- tNext ;;
          r <- C fuel (depth + 1) ;;
          A_loop fuel depth (NewBinaryNode tok n r)
      | _ => ret n
      end
  end
with C (fuel : nat) (depth : Z) {struct fuel} : Parse Node :=
  match fuel with
  | 0%nat => outOfFuel
  | S fuel => n <- P fuel depth ;; C_loop fuel depth n
  end
with C_loop (fuel : nat) (depth : Z) (n : Node) {struct fuel} : Parse Node :=
  match fuel with
  | 0%nat => outOfFuel
  | S fuel =>
      cur <- tCur ;;
      match T cur with
      | TokenEqual | TokenEqualEqual | TokenNE | TokenGT | TokenGE
      | TokenLE | TokenLT | TokenLike =>
          _ <- tNext ;;
          r <- P fuel (depth + 1) ;;
          C_loop fuel depth (NewBinaryNode cur n r)
      | TokenBetween =>
          _ <- tNext ;;
          n2 <- P fuel depth ;;
          _ <- expect TokenLogicAnd "input" ;;
          _ <- tNext ;;
          (* the arguments of the log call are evaluated: Cur, then Peek *)
          _ <- tCur ;;
          _ <- tPeek ;;
          n3 <- P fuel (depth + 1) ;;
          C_loop fuel depth (NewTriNode cur n n2 n3)
      | TokenIN =>
          _ <- tNext ;;
          MultiArg fuel n cur depth
      | _ => ret n
      end
  end
with P (fuel : nat) (depth : Z) {struct fuel} : Parse Node :=
  match fuel with
  | 0%nat => outOfFuel
  | S fuel => n <- M fuel depth ;; P_loop fuel depth n
  end
with P_loop (fuel : nat) (depth : Z) (n : Node) {struct fuel} : Parse Node :=
  match fuel with
  | 0%nat => outOfFuel
  | S fuel =>
      cur <- tCur ;;
      match T cur with
      | TokenPlus | TokenMinus =>
          _ <- tNext ;;
          r <- M fuel (depth + 1) ;;
          P_loop fuel depth (NewBinaryNode cur n r)
      | _ => ret n
      end
  end
with M (fuel : nat) (depth : Z) {struct fuel} : Parse Node :=
  match fuel with
  | 0%nat => outOfFuel
  | S fuel => n <- F fuel depth ;; M_loop fuel depth n
  end
with M_loop (fuel : nat) (depth : Z) (n : Node) {struct fuel} : Parse Node :=
  match fuel with
  | 0%nat => outOfFuel
  | S fuel =>
      cur <- tCur ;;
      match T cur with
      | TokenStar | TokenMultiply | TokenDivide | TokenModulus =>
          _ <- tNext ;;
          r <- F fuel (depth + 1) ;;
          M_loop fuel depth (NewBinaryNode cur n r)
      | _ => ret n
      end
  end
with MultiArg (fuel : nat) (first : Node) (op : Token) (depth : Z)
  {struct fuel} : Parse Node :=
  match fuel with
  | 0%nat => outOfFuel
  | S fuel =>
      _ <- expect TokenLeftParenthesis "input" ;;
      _ <- tNext ;;
      MultiArg_loop fuel depth (Append (NewMultiArgNode op) first)
  end
with MultiArg_loop (fuel : nat) (depth : Z) (multiNode : Node) {struct fuel}
  : Parse Node :=
  match fuel with
  | 0%nat => outOfFuel
  | S fuel =>
      cur <- tCur ;;
      match T cur with
      | TokenRightParenthesis => _ <- tNext ;; ret multiNode
      | TokenComma => _ <- tNext ;; MultiArg_loop fuel depth multiNode
      | _ =>
          n <- O fuel depth ;;
          if isNil n
          then _ <- tCur ;; ret multiNode
          else MultiArg_loop fuel depth (Append multiNode n)
      end
  end
with F (fuel : nat) (depth : Z) {struct fuel} : Parse Node :=
  match fuel with
  | 0%nat => outOfFuel
  | S fuel =>
      cur <- tCur ;;
      match T cur with
      | TokenUdfExpr => v fuel depth
      | TokenInteger | TokenFloat => v fuel depth
      | TokenIdentity => v fuel depth
      | TokenValue => v fuel depth
      | TokenStar => v fuel depth
      | TokenNegate | TokenMinus =>
          _ <- tNext ;;
          arg <- F fuel (depth + 1) ;;
          ret (NewUnary cur arg)
      | TokenLeftParenthesis =>
          _ <- tNext ;;
          n <- O fuel (depth + 1) ;;
          _ <- expect TokenRightParenthesis "input" ;;
          _ <- tNext ;;
          ret (setParen n)
      | _ => panic (PanicString ("unexpected token " ++ tokenString cur ++ " "))
      end
  end
with v (fuel : nat) (depth : Z) {struct fuel} : Parse Node :=
  match fuel with
  | 0%nat => outOfFuel
  | S fuel =>
      cur <- tCur ;;
      match T cur with
      | TokenInteger | TokenFloat =>
          match NewNumber (Pos cur) (V cur) with
          | inr err => error err
          | inl n => _ <- tNext ;; ret n
          end
      | TokenValue =>
          _ <- tNext ;; ret (NewStringNode (Pos cur) (V cur))
      | TokenIdentity =>
          _ <- tNext ;; ret (NewIdentityNode (Pos cur) (V cur))
      | TokenStar =>
          _ <- tNext ;; ret (NewStringNode (Pos cur) (V cur))
      | TokenUdfExpr => Func_ fuel depth cur
      | TokenLeftParenthesis =>
          _ <- tNext ;;
          n <- O fuel (depth + 1) ;;
          _ <- tNext ;;
          _ <- expect TokenRightParenthesis "input" ;;
          ret (setParen n)
      | _ =>
          isEnd <- tIsEnd ;;
          if isEnd : bool then ret NilNode
          else
            _ <- unexpected (A:=unit) cur "input" ;;
            _ <- tBackup ;;
            ret NilNode
      end
  end
with Func_ (fuel : nat) (depth : Z) (tok : Token) {struct fuel} : Parse Node :=
  match fuel with
  | 0%nat => outOfFuel
  | S fuel =>
      pk <- tPeek ;;
      if decide (T pk <> TokenLeftParenthesis)
      then panic (PanicString "must have left paren on function")
      else
        funcImpl <-
          match getFunction (V tok) with
          | Some f => ret f
          | None =>
              fun t => if runCheck t
                       then errorf ("non existent function " ++ V tok) t
                       else ret (mkFunc (V tok) None) t
          end ;;
        _ <- tNext ;;
        _ <- expect TokenLeftParenthesis "func" ;;
        Func_loop fuel depth (NewFuncNode (Pos tok) (V tok) funcImpl)
  end
with Func_loop (fuel : nat) (depth : Z) (fn : Node) {struct fuel} : Parse Node :=
  match fuel with
  | 0%nat => outOfFuel
  | S fuel =>
      _ <- tNext ;;
      firstToken <- tCur ;;
      match T firstToken with
      | TokenRightParenthesis => _ <- tNext ;; ret fn
      | TokenEOF | TokenEOS | TokenFrom => ret fn
      | _ =>
          node <- O fuel (depth + 1) ;;
          token <- tCur ;;
          match T token with
          | TokenComma => Func_loop fuel depth (appendIf fn node)
          | TokenRightParenthesis => _ <- tNext ;; ret (appendIf fn node)
          | TokenEOF | TokenEOS | TokenFrom => _ <- tNext ;; ret (appendIf fn node)
          | TokenEqual | TokenEqualEqual | TokenNE | TokenGT | TokenGE
          | TokenLE | TokenLT | TokenStar | TokenMultiply | TokenDivide =>
              node2 <- O fuel (depth + 1) ;;
              Func_loop fuel depth (appendIf fn node2)
          | _ => unexpected token "func"
          end
      end
  end.

(** [recover], the handler meant to turn a panic into the returned error: a
    runtime fault is raised again, an [error] value becomes the result, and
    the assertion [e.(error)] on any other value is itself a runtime fault.
    No function of the parser defers it. *)
Definition recover (o : Outcome (option string)) : Outcome (option string) :=
  match o with
  | Panic (PanicError msg) t => Ok (Some msg) t
  | Panic (PanicString _) t => Panic PanicRuntime t
  | Panic PanicRuntime t => Panic PanicRuntime t
  | Ok e t => Ok e t
  | OutOfFuel => OutOfFuel
  end.

(** [BuildTree]: the result is the returned [error], [None] for nil. *)
Definition BuildTree (fuel : nat) (runCheck_ : bool) : Parse (option string) :=
  fun t =>
    (root <- O fuel 0 ;;
     fun t =>
       let t := set_Root t root in
       if runCheck_ then
         match Root t with
         | NilNode => Panic PanicRuntime t
         | r => match Check r with
                | Some err => error err t
                | None => Ok None t
                end
         end
       else Ok None t) (set_runCheck t runCheck_).

(** [ParseExpression], from the lexer built on the expression text. *)
Definition ParseExpression (fuel : nat) (l : Lexer) : Outcome (option string) :=
  let pager := NewLexTokenPager l in
  let t := NewTree pager in
  let t := set_pager t (set_end pager TokenEOF) in
  BuildTree fuel true t.

End Grammar.

(** The structure of a tree: the tree with every function node's descriptor
    replaced by the descriptor that carries just the name. *)
Fixpoint erase (n : Node) : Node :=
  match n with
  | UnaryNode op arg => UnaryNode op (erase arg)
  | BinaryNode paren op l r => BinaryNode paren op (erase l) (erase r)
  | TriNode op a b c => TriNode op (erase a) (erase b) (erase c)
  | MultiArgNode op args => MultiArgNode op (List.map erase args)
  | FuncNode pos name f args =>
      FuncNode pos name (mkFunc name None) (List.map erase args)
  | _ => n
  end.

Definition sameStructure (n1 n2 : Node) : Prop := erase n1 = erase n2.

(** The same tree state with the check turned off. *)
Definition lax (t : Tree) : Tree := set_runCheck t false.

(** [simulates R m1 m2]: wherever [m2] returns, [m1] run without the check
    returns too, in the same state and with a result related by [R]. *)
Definition simulates {A} (R : A -> A -> Prop) (m1 m2 : Parse A) : Prop :=
  forall t, match m2 t with
            | Ok a2 t' => exists a1, m1 (lax t) = Ok a1 (lax t') /\ R a1 a2
            | _ => True
            end.


(** Modelled from the spec: [Node.String], which is declared outside the
    parser source, followed by the lexer: the tokens of the text a node is
    emitted as through the default writer. As in the seed scenarios, a
    binary node is emitted as left, operator, right, in parentheses when
    its flag is set; BETWEEN as [low BETWEEN mid AND high]; IN as
    [first IN (args)]; a call as [name(args)]; identities, strings and
    numbers as one token. Offsets in the new text are not modelled: every
    emitted token has position 0. *)
Definition at0 (tok : Token) : Token := mkToken (T tok) 0 (V tok).

Definition isFloatText (text : string) : bool :=
  match String.index 0 "." text with
  | Some _ => true
  | None => false
  end.

Fixpoint joinComma (parts : list (list Token)) : list Token :=
  match parts with
  | [] => []
  | [p] => p
  | p :: rest => p ++ mkToken TokenComma 0 "," :: joinComma rest
  end.

Fixpoint emit (n : Node) : list Token :=
  let lp := mkToken TokenLeftParenthesis 0 "(" in
  let rp := mkToken TokenRightParenthesis 0 ")" in
  match n with
  | NilNode => []
  | NumberNode _ text =>
      [mkToken (if isFloatText text then TokenFloat else TokenInteger) 0 text]
  | StringNode _ text =>
      [mkToken (if decide (text = "*"%string) then TokenStar else TokenValue)
               0 text]
  | IdentityNode _ text => [mkToken TokenIdentity 0 text]
  | NullNode _ => [mkToken TokenIdentity 0 "NULL"]
  | UnaryNode op arg => at0 op :: emit arg
  | BinaryNode paren op l r =>
      let body := emit l ++ at0 op :: emit r in
      if paren then lp :: body ++ [rp] else body
  | TriNode op a b c =>
      emit a ++ at0 op :: emit b ++ mkToken TokenLogicAnd 0 "AND" :: emit c
  | MultiArgNode op args =>
      match args with
      | [] => []
      | first :: rest =>
          emit first ++ at0 op :: lp :: joinComma (List.map emit rest) ++ [rp]
      end
  | FuncNode _ name _ args =>
      mkToken TokenUdfExpr 0 name :: lp :: joinComma (List.map emit args) ++ [rp]
  end.

(** A tree without its source offsets, for comparing trees parsed from
    different texts. *)
Fixpoint unpos (n : Node) : Node :=
  match n with
  | NilNode => NilNode
  | NumberNode _ text => NumberNode 0 text
  | StringNode _ text => StringNode 0 text
  | IdentityNode _ text => IdentityNode 0 text
  | NullNode _ => NullNode 0
  | UnaryNode op arg => UnaryNode (at0 op) (unpos arg)
  | BinaryNode paren op l r => BinaryNode paren (at0 op) (unpos l) (unpos r)
  | TriNode op a b c => TriNode (at0 op) (unpos a) (unpos b) (unpos c)
  | MultiArgNode op args => MultiArgNode (at0 op) (List.map unpos args)
  | FuncNode _ name f args => FuncNode 0 name f (List.map unpos args)
  end.

(** [extends m m']: wherever [m] does not run out of fuel, [m'] does what
    [m] does. *)
Definition extends {A} (m m' : Parse A) : Prop :=
  forall t, m t <> OutOfFuel -> m' t = m t.

Definition grammar_extends (funcs : gmap string Func) (ts : Token -> string)
  (ne : string -> option string) (fuel fuel' : nat) : Prop :=
  (forall d, extends (O funcs ts ne fuel d) (O funcs ts ne fuel' d)) /\
  (forall d n, extends (O_loop funcs ts ne fuel d n) (O_loop funcs ts ne fuel' d n)) /\
  (forall d, extends (A funcs ts ne fuel d) (A funcs ts ne fuel' d)) /\
  (forall d n, extends (A_loop funcs ts ne fuel d n) (A_loop funcs ts ne fuel' d n)) /\
  (forall d, extends (C funcs ts ne fuel d) (C funcs ts ne fuel' d)) /\
  (forall d n, extends (C_loop funcs ts ne fuel d n) (C_loop funcs ts ne fuel' d n)) /\
  (forall d, extends (P funcs ts ne fuel d) (P funcs ts ne fuel' d)) /\
  (forall d n, extends (P_loop funcs ts ne fuel d n) (P_loop funcs ts ne fuel' d n)) /\
  (forall d, extends (M funcs ts ne fuel d) (M funcs ts ne fuel' d)) /\
  (forall d n, extends (M_loop funcs ts ne fuel d n) (M_loop funcs ts ne fuel' d n)) /\
  (forall d op n, extends (MultiArg funcs ts ne fuel n op d)
                          (MultiArg funcs ts ne fuel' n op d)) /\
  (forall d n, extends (MultiArg_loop funcs ts ne fuel d n)
                       (MultiArg_loop funcs ts ne fuel' d n)) /\
  (forall d, extends (F funcs ts ne fuel d) (F funcs ts ne fuel' d)) /\
  (forall d, extends (v funcs ts ne fuel d) (v funcs ts ne fuel' d)) /\
  (forall d tok, extends (Func_ funcs ts ne fuel d tok) (Func_ funcs ts ne fuel' d tok)) /\
  (forall d n, extends (Func_loop funcs ts ne fuel d n) (Func_loop funcs ts ne fuel' d n)).

(** The tokens on which the loop of [O] returns as the end of the clause,
    and the tokens the loop of [C] takes as an operator. *)
Definition isClauseEnd (ty : TokenType) : bool :=
  match ty with
  | TokenEOF | TokenEOS | TokenFrom | TokenComma | TokenIf
  | TokenAs | TokenSelect | TokenLimit => true
  | _ => false
  end.

(** [returns X t a t']: with enough fuel, [X] run in state [t] returns [a]
    in state [t']. *)
Definition returns {A} (X : nat -> Parse A) (t : Tree) (a : A) (t' : Tree)
  : Prop := exists fuel, X fuel t = Ok a t'.



Definition isCOperator (ty : TokenType) : bool :=
  match ty with
  | TokenEqual | TokenEqualEqual | TokenNE | TokenGT | TokenGE
  | TokenLE | TokenLT | TokenLike | TokenBetween | TokenIN => true
  | _ => false
  end.

End Parser.

(** ** Dialect writers *)

Module Dialect.

(** The interface [DialectWriter] over a writer state [W]; every method
    returns the writer after the call. [Text] is the method [String];
    [WriteValue] dispatches on the types of package [value] and is left
    out. *)
Class DialectWriter (W : Type) : Type := {
  Write : W -> string -> W;
  Len : W -> Z;
  WriteLiteral : W -> string -> W;
  WriteIdentity : W -> string -> W;
  WriteLeftRightIdentity : W -> string -> string -> W;
  WriteIdentityQuote : W -> string -> ascii -> W;
  WriteNumber : W -> string -> W;
  WriteNull : W -> W;
  Text : W -> string
}.

(** [defaultDialect]; the embedded [bytes.Buffer] is its content. *)
Record defaultDialect : Set := mkDefault {
  Buffer : string;
  Null : string;
  LiteralQuote : ascii;
  IdentityQuote : ascii;
  stripNamespace : bool
}.

Definition set_Buffer (w : defaultDialect) (b : string) : defaultDialect :=
  mkDefault b (Null w) (LiteralQuote w) (IdentityQuote w) (stripNamespace w).

Definition star : string := String "*"%char EmptyString.
Definition dot : string := String "."%char EmptyString.

(** [NewDialectWriter]: the fields it does not set have their zero value. *)
Definition NewDialectWriter (l i : ascii) : defaultDialect :=
  mkDefault EmptyString EmptyString l i false.

Definition NewDefaultWriter : defaultDialect :=
  mkDefault EmptyString "NULL" "034"%char "`"%char false.

Definition NewDefaultNoNamspaceWriter : defaultDialect :=
  mkDefault EmptyString "NULL" "034"%char "`"%char true.

(** [jsonDialect] and [keywordDialect] embed a [*defaultDialect];
    [fingerprintDialect] embeds any [DialectWriter]. *)
Record jsonDialect : Set := mkJson { json_default : defaultDialect }.

Record keywordDialect : Set := mkKeyword {
  kw_default : defaultDialect;
  kw : gmap string unit
}.

Record fingerprintDialect (W : Type) : Type := mkFingerprint {
  base : W;
  replace : string
}.
Arguments mkFingerprint {W} base replace.
Arguments base {W} f.
Arguments replace {W} f.

Definition NewJSONDialectWriter : jsonDialect :=
  mkJson (mkDefault EmptyString "NULL" "034"%char "`"%char false).

(** [NewKeywordDialect]: every word is a key of the map, as it is given. *)
Definition NewKeywordDialect (words : list string) : keywordDialect :=
  mkKeyword (mkDefault EmptyString "NULL" "034"%char "`"%char false)
            (foldl (fun m w => <[w := tt]> m) ∅ words).

Definition NewFingerPrintWriter {W} (replace_ : string) (w : W)
  : fingerprintDialect W := mkFingerprint w replace_.

Definition NewFingerPrinter : fingerprintDialect defaultDialect :=
  mkFingerprint NewDefaultWriter "?".

Section Writers.

(** The escape helpers of the package, declared outside the writers' source:
    [LiteralQuoteEscape] (of which [LiteralQuoteEscapeBuf] writes the result
    to a buffer), [IdentityMaybeEscapeBuf] and [strconv.Quote]. *)
Variable LiteralQuoteEscape : ascii -> string -> string.
Variable IdentityMaybeEscape : ascii -> string -> string.
Variable strconvQuote : string -> string.

Definition bufWrite (w : defaultDialect) (s : string) : defaultDialect :=
  set_Buffer w (Buffer w ++ s).

Definition WriteByte (w : defaultDialect) (c : ascii) : defaultDialect :=
  bufWrite w (String c EmptyString).

Definition LiteralQuoteEscapeBuf (w : defaultDialect) (quote : ascii)
  (literal : string) : defaultDialect :=
  bufWrite w (LiteralQuoteEscape quote literal).

Definition IdentityMaybeEscapeBuf (w : defaultDialect) (quote : ascii)
  (ident : string) : defaultDialect :=
  bufWrite w (IdentityMaybeEscape quote ident).

(** Methods of [*defaultDialect]. The test [len(l) == 1 && l == "*"] is
    [l = star]. *)
Definition default_WriteLiteral (w : defaultDialect) (l : string) : defaultDialect :=
  if decide (l = star) then WriteByte w "*"%char
  else LiteralQuoteEscapeBuf w (LiteralQuote w) l.

Definition default_WriteIdentity (w : defaultDialect) (i : string) : defaultDialect :=
  if decide (i = star) then WriteByte w "*"%char
  else IdentityMaybeEscapeBuf w (IdentityQuote w) i.

Definition default_WriteLeftRightIdentity (w : defaultDialect) (l r : string)
  : defaultDialect :=
  if decide (l = EmptyString) then default_WriteIdentity w r
  else if stripNamespace w then default_WriteIdentity w r
  else
    let w := default_WriteIdentity w l in
    let w := bufWrite w dot in
    default_WriteIdentity w r.

Definition default_WriteIdentityQuote (w : defaultDialect) (i : string)
  (quote : ascii) : defaultDialect :=
  if decide (i = star) then WriteByte w "*"%char
  else LiteralQuoteEscapeBuf w (IdentityQuote w) i.

Definition default_WriteNumber (w : defaultDialect) (n : string) : defaultDialect :=
  bufWrite w n.

Definition default_WriteNull (w : defaultDialect) : defaultDialect :=
  bufWrite w (Null w).

#[export] Instance defaultDialect_writer : DialectWriter defaultDialect := {
  Write := bufWrite;
  Len := fun w => Z.of_nat (String.length (Buffer w));
  WriteLiteral := default_WriteLiteral;
  WriteIdentity := default_WriteIdentity;
  WriteLeftRightIdentity := default_WriteLeftRightIdentity;
  WriteIdentityQuote := default_WriteIdentityQuote;
  WriteNumber := default_WriteNumber;
  WriteNull := default_WriteNull;
  Text := Buffer
}.

(** Methods of [*jsonDialect]: [WriteLiteral] is its own, the others are
    promoted from the embedded default writer. *)
Definition json_lift (f : defaultDialect -> defaultDialect) (w : jsonDialect)
  : jsonDialect := mkJson (f (json_default w)).

Definition json_WriteLiteral (w : jsonDialect) (l : string) : jsonDialect :=
  if decide (l = star) then json_lift (fun d => WriteByte d "*"%char) w
  else json_lift (fun d => bufWrite d (strconvQuote l)) w.

#[export] Instance jsonDialect_writer : DialectWriter jsonDialect := {
  Write := fun w s => json_lift (fun d => bufWrite d s) w;
  Len := fun w => Len (json_default w);
  WriteLiteral := json_WriteLiteral;
  WriteIdentity := fun w i => json_lift (fun d => default_WriteIdentity d i) w;
  WriteLeftRightIdentity :=
    fun w l r => json_lift (fun d => default_WriteLeftRightIdentity d l r) w;
  WriteIdentityQuote :=
    fun w i q => json_lift (fun d => default_WriteIdentityQuote d i q) w;
  WriteNumber := fun w n => json_lift (fun d => default_WriteNumber d n) w;
  WriteNull := json_lift default_WriteNull;
  Text := fun w => Buffer (json_default w)
}.

(** Methods of [*keywordDialect]: [WriteIdentity] is its own. A promoted
    method runs on the embedded default writer, so the [WriteIdentity] calls
    inside the promoted [WriteLeftRightIdentity] are the default ones. *)
Definition kw_lift (f : defaultDialect -> defaultDialect) (w : keywordDialect)
  : keywordDialect := mkKeyword (f (kw_default w)) (kw w).

Definition isKeyword (w : keywordDialect) (id : string) : bool :=
  match kw w !! ToLower id with
  | Some _ => true
  | None => false
  end.

Definition keyword_WriteIdentity (w : keywordDialect) (id : string)
  : keywordDialect :=
  if isKeyword w id
  then kw_lift (fun d => bufWrite d
                  (LiteralQuoteEscape (IdentityQuote (kw_default w)) id)) w
  else kw_lift (fun d => default_WriteIdentity d id) w.

#[export] Instance keywordDialect_writer : DialectWriter keywordDialect := {
  Write := fun w s => kw_lift (fun d => bufWrite d s) w;
  Len := fun w => Len (kw_default w);
  WriteLiteral := fun w l => kw_lift (fun d => default_WriteLiteral d l) w;
  WriteIdentity := keyword_WriteIdentity;
  WriteLeftRightIdentity :=
    fun w l r => kw_lift (fun d => default_WriteLeftRightIdentity d l r) w;
  WriteIdentityQuote :=
    fun w i q => kw_lift (fun d => default_WriteIdentityQuote d i q) w;
  WriteNumber := fun w n => kw_lift (fun d => default_WriteNumber d n) w;
  WriteNull := kw_lift default_WriteNull;
  Text := fun w => Buffer (kw_default w)
}.

(** Methods of [*fingerprintDialect]: [WriteLiteral], [WriteNumber] and
    [WriteIdentity] are its own, the others are promoted from the base. *)
Section Fingerprint.
Context {W : Type} `{DialectWriter W}.

Definition fp_lift (f : W -> W) (w : fingerprintDialect W)
  : fingerprintDialect W := mkFingerprint (f (base w)) (replace w).

Definition fp_WriteLiteral (w : fingerprintDialect W) (l : string)
  : fingerprintDialect W := fp_lift (fun b => Write b (replace w)) w.

Definition fp_WriteNumber (w : fingerprintDialect W) (n : string)
  : fingerprintDialect W := fp_lift (fun b => Write b (replace w)) w.

Definition fp_WriteIdentity (w : fingerprintDialect W) (id : string)
  : fingerprintDialect W := fp_lift (fun b => WriteIdentity b (ToLower id)) w.

#[export] Instance fingerprintDialect_writer
  : DialectWriter (fingerprintDialect W) := {
  Write := fun w s => fp_lift (fun b => Write b s) w;
  Len := fun w => Len (base w);
  WriteLiteral := fp_WriteLiteral;
  WriteIdentity := fp_WriteIdentity;
  WriteLeftRightIdentity :=
    fun w l r => fp_lift (fun b => WriteLeftRightIdentity b l r) w;
  WriteIdentityQuote := fun w i q => fp_lift (fun b => WriteIdentityQuote b i q) w;
  WriteNumber := fp_WriteNumber;
  WriteNull := fp_lift WriteNull;
  Text := fun w => Text (base w)
}.

End Fingerprint.
End Writers.

(** Modelled from the spec: the escape helpers, for running the writers on
    concrete input. Quoting wraps the text in the quote and doubles every
    occurrence of the quote inside it; an identity is quoted only when it
    needs it, that is when it is empty, begins with a digit, or holds a
    character that is no letter, digit or underscore. *)
Fixpoint escapeQuote (quote : ascii) (s : string) : string :=
  match s with
  | EmptyString => EmptyString
  | String c rest =>
      if decide (c = quote) then String c (String c (escapeQuote quote rest))
      else String c (escapeQuote quote rest)
  end.

Definition LiteralQuoteEscape (quote : ascii) (literal : string) : string :=
  String quote (escapeQuote quote literal ++ String quote EmptyString).

Definition isDigit (c : ascii) : bool :=
  let n := nat_of_ascii c in (48 <=? n)%nat && (n <=? 57)%nat.

Definition isIdentChar (c : ascii) : bool :=
  let n := nat_of_ascii c in
  isDigit c || ((65 <=? n)%nat && (n <=? 90)%nat)
  || ((97 <=? n)%nat && (n <=? 122)%nat) || (n =? 95)%nat.

Fixpoint allIdentChars (s : string) : bool :=
  match s with
  | EmptyString => true
  | String c rest => isIdentChar c && allIdentChars rest
  end.

Definition needsQuote (ident : string) : bool :=
  match ident with
  | EmptyString => true
  | String c _ => isDigit c || negb (allIdentChars ident)
  end.

Definition IdentityMaybeEscape (quote : ascii) (ident : string) : string :=
  if needsQuote ident then LiteralQuoteEscape quote ident else ident.

End Dialect.

(** ** Concrete inputs *)

Module Fixtures.
Import Pager Parser.

(** Modelled from the spec: the text of a token in a message and the test
    that a text is a number belong to the lexer and to the node model; for
    concrete runs the text of a token is its value, and a number is a
    nonempty run of digits with at most one dot. *)
Definition tokenText (tok : Token) : string := V tok.

Fixpoint numeric (dots : nat) (s : string) : bool :=
  match s with
  | EmptyString => true
  | String c rest =>
      if Dialect.isDigit c then numeric dots rest
      else if decide (c = "."%char)
           then match dots with
                | 0%nat => false
                | S d => numeric d rest
                end
           else false
  end.

Definition numberErr (text : string) : option string :=
  match text with
  | EmptyString => Some ("illegal number syntax: " ++ text)%string
  | _ => if numeric 1 text then None
         else Some ("illegal number syntax: " ++ text)%string
  end.

Definition noCheck (n : Node) : option string := None.

(** The writers over the escape helpers modelled from the spec. *)
Definition defaultW : Dialect.DialectWriter Dialect.defaultDialect :=
  Dialect.defaultDialect_writer Dialect.LiteralQuoteEscape
    Dialect.IdentityMaybeEscape.
Definition keywordW : Dialect.DialectWriter Dialect.keywordDialect :=
  Dialect.keywordDialect_writer Dialect.LiteralQuoteEscape
    Dialect.IdentityMaybeEscape.
Definition fingerprintW
  : Dialect.DialectWriter (Dialect.fingerprintDialect Dialect.defaultDialect) :=
  @Dialect.fingerprintDialect_writer Dialect.defaultDialect defaultW.

(** The tree over a fresh pager on the given lexer output. *)
Definition start (l : Lexer) : Tree := NewTree (NewLexTokenPager l).

(** [x BETWEEN 1 AND 10] *)
Definition between_input : Lexer :=
  [ mkToken TokenIdentity 0 "x"; mkToken TokenBetween 2 "BETWEEN";
    mkToken TokenInteger 10 "1"; mkToken TokenLogicAnd 12 "AND";
    mkToken TokenInteger 16 "10" ].

(** [no_such_fn(1)] *)
Definition unknown_fn_input : Lexer :=
  [ mkToken TokenUdfExpr 0 "no_such_fn"; mkToken TokenLeftParenthesis 10 "(";
    mkToken TokenInteger 11 "1"; mkToken TokenRightParenthesis 12 ")" ].

(** The tree while [no_such_fn(1)] is parsed, as for [between_state]. *)
Definition unknown_fn_state (rc : bool) (buffered : nat) (cursor_ : Z)
  (end__ : TokenType) : Tree :=
  mkTree rc NilNode
    (mkPager false (take buffered unknown_fn_input) cursor_
             (drop buffered unknown_fn_input) end__).

(** A registry that knows [no_such_fn]. *)
Definition registry_with_fn : gmap string Func :=
  {[ "no_such_fn"%string := mkFunc "no_such_fn" (Some 1%N) ]}.

(** The tree while [x BETWEEN 1 AND 10] is parsed: [buffered] tokens of the
    lexer output (and of the EOF that follows it) are in the buffer. *)
Definition between_state (done_ : bool) (buffered : nat) (cursor_ : Z) : Tree :=
  set_pager (start between_input)
    (mkPager done_ (take buffered (between_input ++ [eofToken])) cursor_
             (drop buffered between_input) TokenNil).

(** [(a BETWEEN 1 AND 2) + 1] *)
Definition grouped_between_input : Lexer :=
  [ mkToken TokenLeftParenthesis 0 "("; mkToken TokenIdentity 1 "a";
    mkToken TokenBetween 3 "BETWEEN"; mkToken TokenInteger 11 "1";
    mkToken TokenLogicAnd 13 "AND"; mkToken TokenInteger 17 "2";
    mkToken TokenRightParenthesis 18 ")"; mkToken TokenPlus 20 "+";
    mkToken TokenInteger 22 "1" ].

(** [(a + b) * c] *)
Definition grouped_sum_input : Lexer :=
  [ mkToken TokenLeftParenthesis 0 "("; mkToken TokenIdentity 1 "a";
    mkToken TokenPlus 3 "+"; mkToken TokenIdentity 5 "b";
    mkToken TokenRightParenthesis 6 ")"; mkToken TokenMultiply 8 "*";
    mkToken TokenIdentity 10 "c" ].

(** The root a parse of the lexer output leaves, if it returns. *)
Definition parsedRoot (l : Lexer) : option Node :=
  match ParseExpression ∅ tokenText numberErr noCheck 40 l with
  | Ok None t => Some (Root t)
  | _ => None
  end.

(** [x FROM]: an identity and the keyword that ends the clause. *)
Definition clause_input : Lexer :=
  [ mkToken TokenIdentity 0 "x"; mkToken TokenFrom 2 "FROM" ].

End Fixtures.

(** ** Further definitions *)

Module PagerMore.
Import Pager.

(** The buffer and what the lexer still holds make up the lexer's output
    [l]: either nothing has been pulled past its end, or the EOF that ends
    it has been pulled and the pager is done. *)
Definition conserves (l : Lexer) (m : LexTokenPager) : Prop :=
  tokens m ++ lex m = l \/
  (tokens m = l ++ [eofToken] /\ lex m = [] /\ done m = true).

Definition notEOF (tok : Token) : Prop := T tok <> TokenEOF.

End PagerMore.

Module ParserLogic.
Import Pager Parser.
Local Open Scope parse_scope.

(** [holds I m Q E]: run in a state that satisfies [I], [m] returns only
    values that satisfy [Q], in states that satisfy [I] again, and panics
    only with values and in states that satisfy [E]. *)
Definition holds {A} (I : Tree -> Prop) (m : Parse A) (Q : A -> Prop)
  (E : PanicValue -> Tree -> Prop) : Prop :=
  forall t, I t ->
    match m t with
    | Ok a t' => Q a /\ I t'
    | Panic p t' => E p t'
    | OutOfFuel => True
    end.

(** The step of [Func] that finds the descriptor of the called name. *)
Definition resolve (funcs : gmap string Func) (tok : Token) : Parse Func :=
  match getFunction funcs (V tok) with
  | Some f => ret f
  | None =>
      fun t => if runCheck t
               then errorf ("non existent function " ++ V tok) t
               else ret (mkFunc (V tok) None) t
  end.

(** [holds] for the sixteen functions of the grammar, [N] being the
    property of the nodes they take and return. *)
Definition grammar_holds (funcs : gmap string Func) (ts : Token -> string)
  (ne : string -> option string) (I : Tree -> Prop) (N : Node -> Prop)
  (E : PanicValue -> Tree -> Prop) (fuel : nat) : Prop :=
  (forall d, holds I (O funcs ts ne fuel d) N E) /\
  (forall d n, N n -> holds I (O_loop funcs ts ne fuel d n) N E) /\
  (forall d, holds I (A funcs ts ne fuel d) N E) /\
  (forall d n, N n -> holds I (A_loop funcs ts ne fuel d n) N E) /\
  (forall d, holds I (C funcs ts ne fuel d) N E) /\
  (forall d n, N n -> holds I (C_loop funcs ts ne fuel d n) N E) /\
  (forall d, holds I (P funcs ts ne fuel d) N E) /\
  (forall d n, N n -> holds I (P_loop funcs ts ne fuel d n) N E) /\
  (forall d, holds I (M funcs ts ne fuel d) N E) /\
  (forall d n, N n -> holds I (M_loop funcs ts ne fuel d n) N E) /\
  (forall d op n, N n -> holds I (MultiArg funcs ts ne fuel n op d) N E) /\
  (forall d n, N n -> holds I (MultiArg_loop funcs ts ne fuel d n) N E) /\
  (forall d, holds I (F funcs ts ne fuel d) N E) /\
  (forall d, holds I (v funcs ts ne fuel d) N E) /\
  (forall d tok, holds I (Func_ funcs ts ne fuel d tok) N E) /\
  (forall d n, N n -> holds I (Func_loop funcs ts ne fuel d n) N E).

(** The pager is within its bounds, and the check flag and the root are the
    given ones. *)
Definition steady (rc : bool) (root : Node) (t : Tree) : Prop :=
  Pager.inv (TokenPager t) /\ runCheck t = rc /\ Root t = root.

Definition notNil (n : Node) : Prop := n <> NilNode.

Definition notRuntime (p : PanicValue) (t : Tree) : Prop := p <> PanicRuntime.

(** A domain error has a message that begins with [expr: ] and comes with a
    nil root. *)
Definition domainError (p : PanicValue) (t : Tree) : Prop :=
  match p with
  | PanicError msg => Root t = NilNode /\ exists rest, msg = ("expr: " ++ rest)%string
  | _ => True
  end.

(** Where a descriptor may come from: the registry, under the name in lower
    case, or, only with the check off and for a name the registry does not
    hold, the literal that carries just the name. *)
Definition describedBy (funcs : gmap string Func) (rc : bool) (name : string)
  (f : Func) : Prop :=
  getFunction funcs name = Some f \/
  (rc = false /\ getFunction funcs name = None /\ f = mkFunc name None).

(** [allFuncs Pf n]: every function node of [n] has a name and a descriptor
    related by [Pf]. *)
Fixpoint allFuncs (Pf : string -> Func -> Prop) (n : Node) : Prop :=
  match n with
  | UnaryNode _ arg => allFuncs Pf arg
  | BinaryNode _ _ l r => allFuncs Pf l /\ allFuncs Pf r
  | TriNode _ a b c => allFuncs Pf a /\ allFuncs Pf b /\ allFuncs Pf c
  | MultiArgNode _ args =>
      fold_right (fun a acc => allFuncs Pf a /\ acc) True args
  | FuncNode _ name f args =>
      Pf name f /\ fold_right (fun a acc => allFuncs Pf a /\ acc) True args
  | _ => True
  end.

End ParserLogic.

Module Operators.
Import Pager Parser.

(** The tokens [v] turns into a leaf: identities, strings, the star, and
    numbers whose text [NewNumber] accepts. *)
Definition isOperand (ne : string -> option string) (tok : Token) : bool :=
  match T tok with
  | TokenIdentity | TokenValue | TokenStar => true
  | TokenInteger | TokenFloat =>
      match ne (V tok) with None => true | Some _ => false end
  | _ => false
  end.

Definition operandNode (tok : Token) : Node :=
  match T tok with
  | TokenInteger | TokenFloat => NumberNode (Pos tok) (V tok)
  | TokenIdentity => NewIdentityNode (Pos tok) (V tok)
  | _ => NewStringNode (Pos tok) (V tok)
  end.

(** The loop that takes a token as a binary operator: 1 for the loop of O,
    2 for A, 3 for the comparisons of C, 4 for P, 5 for M; 0 for a token no
    loop takes. *)
Definition level (ty : TokenType) : nat :=
  match ty with
  | TokenLogicOr | TokenOr => 1
  | TokenLogicAnd | TokenAnd => 2
  | TokenEqual | TokenEqualEqual | TokenNE | TokenGT | TokenGE
  | TokenLE | TokenLT | TokenLike => 3
  | TokenPlus | TokenMinus => 4
  | TokenStar | TokenMultiply | TokenDivide | TokenModulus => 5
  | _ => 0
  end.

(** The node a run returns, if it returns. *)
Definition nodeOf (o : Outcome Node) : option Node :=
  match o with
  | Ok n _ => Some n
  | _ => None
  end.

(** The run of the rule O on a fresh tree over the lexer output. *)
Definition parseO (funcs : gmap string Func) (ts : Token -> string)
  (ne : string -> option string) (fuel : nat) (l : Lexer) : Outcome Node :=
  O funcs ts ne fuel 0 (NewTree (NewLexTokenPager l)).

End Operators.

Module ParserStart.
Import Pager Parser.

(** The token types on which [F] does not panic right away. *)
Definition startsOperand (ty : TokenType) : bool :=
  match ty with
  | TokenUdfExpr | TokenInteger | TokenFloat | TokenIdentity | TokenValue
  | TokenStar | TokenNegate | TokenMinus | TokenLeftParenthesis => true
  | _ => false
  end.

(** The first token a fresh pager yields: the head of the lexer output, or
    EOF for the empty output. *)
Definition firstToken (l : Lexer) : Token := fst (NextToken l).

End ParserStart.

Module DialectMore.
Import Dialect.

(** What the default writer emits for an identity. *)
Definition identityText (IME : ascii -> string -> string)
  (w : defaultDialect) (i : string) : string :=
  if decide (i = star) then star else IME (IdentityQuote w) i.

(** [w'] is [w] with [s] appended to its output, and nothing else changed. *)
Definition appended (w w' : defaultDialect) (s : string) : Prop :=
  w' = set_Buffer w (Buffer w ++ s).

End DialectMore.

Module Derivation.
Import Pager Parser PagerMore Operators.

(** The lexer output followed by the EOF that ends it. *)
Definition stream (l : Lexer) : list Token := l ++ [eofToken].

(** The pager has buffered the first [k] tokens of the stream, for some [k]
    past the cursor, and its cursor is on token number [i]. *)
Definition cursorAt (l : Lexer) (i : nat) (t : Tree) : Prop :=
  exists (k : nat) (e : TokenType),
    (i < k <= length l + 1)%nat /\
    TokenPager t = mkPager (bool_decide (length l < k)%nat) (take k (stream l))
                           (Z.of_nat i) (drop k l) e.

(** The cursor is on token number [i], or the pager is fresh and [i] is 0:
    the next call of Cur returns token number [i]. *)
Definition poised (l : Lexer) (i : nat) (t : Tree) : Prop :=
  cursorAt l i t \/
  (i = 0%nat /\ exists e, TokenPager t = mkPager false [] (-1) l e).

(** The token after a part of the input: the head of what follows, or EOF. *)
Definition nextTok (post : list Token) : Token := hd eofToken post.

Section Levels.
Variable funcs : gmap string Func.
Variable ts : Token -> string.
Variable ne : string -> option string.

(** The rule of each level, 1 for O down to 6 for F, and the loop of the
    rule; F has none. *)
Definition enter (lv : nat) : nat -> Z -> Parse Node :=
  match lv with
  | 1 => O funcs ts ne
  | 2 => A funcs ts ne
  | 3 => C funcs ts ne
  | 4 => P funcs ts ne
  | 5 => M funcs ts ne
  | _ => F funcs ts ne
  end%nat.

Definition loopOf (lv : nat) : nat -> Z -> Node -> Parse Node :=
  match lv with
  | 1 => O_loop funcs ts ne
  | 2 => A_loop funcs ts ne
  | 3 => C_loop funcs ts ne
  | 4 => P_loop funcs ts ne
  | 5 => M_loop funcs ts ne
  | _ => fun _ _ n => ret n
  end%nat.

End Levels.

(** The loop of level [lv] returns on a token of this type. *)
Definition stopsAt (lv : nat) (ty : TokenType) : bool :=
  match lv with
  | 1 => negb (level ty =? 1)%nat
         && negb (bool_decide (ty = TokenCommentSingleLine))
  | 3 => negb (level ty =? 3)%nat
         && negb (bool_decide (ty = TokenBetween))
         && negb (bool_decide (ty = TokenIN))
  | 2 | 4 | 5 => negb (level ty =? lv)%nat
  | _ => true
  end%nat.

(** [wp X t Post]: with enough fuel, [X] run in [t] returns a value and a
    state that satisfy [Post]. *)
Definition wp {A} (X : nat -> Parse A) (t : Tree) (Post : A -> Tree -> Prop)
  : Prop :=
  exists fuel a t', X fuel t = Ok a t' /\ Post a t'.

(** The expressions of the grammar, by level, with their tokens and their
    trees.  At level 6: an operand; a group in parentheses; a prefix minus or
    negation; a call of a registered function, with its arguments separated
    by commas.  At each level from 5 (the tightest) to 1: a chain of
    operators of that level, nested to the left, over expressions of the
    next level.  At level 3 also BETWEEN with its two bounds, and at level 2
    an IN list, which ends the comparison it follows. *)
Inductive derives (funcs : gmap string Func) (ne : string -> option string)
  : nat -> list Token -> Node -> Prop :=
| d_operand (a : Token) :
    isOperand ne a = true -> derives funcs ne 6 [a] (operandNode a)
| d_group (lp rp : Token) (toks : list Token) (n : Node) :
    T lp = TokenLeftParenthesis -> T rp = TokenRightParenthesis ->
    derives funcs ne 1 toks n ->
    derives funcs ne 6 (lp :: toks ++ [rp]) (setParen n)
| d_prefix (op : Token) (toks : list Token) (n : Node) :
    T op = TokenNegate \/ T op = TokenMinus ->
    derives funcs ne 6 toks n ->
    derives funcs ne 6 (op :: toks) (NewUnary op n)
| d_call0 (udf lp rp : Token) (f : Func) :
    T udf = TokenUdfExpr ->
    T lp = TokenLeftParenthesis -> T rp = TokenRightParenthesis ->
    getFunction funcs (V udf) = Some f ->
    derives funcs ne 6 [udf; lp; rp] (NewFuncNode (Pos udf) (V udf) f)
| d_call (udf lp rp : Token) (f : Func) (toks : list Token) (ns : list Node) :
    T udf = TokenUdfExpr ->
    T lp = TokenLeftParenthesis -> T rp = TokenRightParenthesis ->
    getFunction funcs (V udf) = Some f ->
    derivesArgs funcs ne toks ns ->
    derives funcs ne 6 (udf :: lp :: toks ++ [rp])
            (FuncNode (Pos udf) (V udf) f ns)
| d_up (lv : nat) (toks : list Token) (n : Node) :
    (1 <= lv <= 5)%nat ->
    derives funcs ne (S lv) toks n -> derives funcs ne lv toks n
| d_binary (lv : nat) (op : Token) (toks1 toks2 : list Token) (n1 n2 : Node) :
    (1 <= lv <= 5)%nat -> level (T op) = lv ->
    derives funcs ne lv toks1 n1 -> derives funcs ne (S lv) toks2 n2 ->
    derives funcs ne lv (toks1 ++ op :: toks2) (NewBinaryNode op n1 n2)
| d_between (bt an : Token) (toks1 toks2 toks3 : list Token)
    (n1 n2 n3 : Node) :
    T bt = TokenBetween -> T an = TokenLogicAnd ->
    derives funcs ne 3 toks1 n1 ->
    derives funcs ne 4 toks2 n2 -> derives funcs ne 4 toks3 n3 ->
    derives funcs ne 3 (toks1 ++ bt :: toks2 ++ an :: toks3)
            (NewTriNode bt n1 n2 n3)
| d_in (op lp rp : Token) (toks1 toks : list Token) (n1 : Node)
    (ns : list Node) :
    T op = TokenIN ->
    T lp = TokenLeftParenthesis -> T rp = TokenRightParenthesis ->
    derives funcs ne 3 toks1 n1 ->
    derivesArgs funcs ne toks ns ->
    derives funcs ne 2 (toks1 ++ op :: lp :: toks ++ [rp])
            (MultiArgNode op (n1 :: ns))
with derivesArgs (funcs : gmap string Func) (ne : string -> option string)
  : list Token -> list Node -> Prop :=
| a_last (toks : list Token) (n : Node) :
    derives funcs ne 1 toks n -> derivesArgs funcs ne toks [n]
| a_more (c : Token) (toks rest : list Token) (n : Node) (ns : list Node) :
    T c = TokenComma ->
    derives funcs ne 1 toks n -> derivesArgs funcs ne rest ns ->
    derivesArgs funcs ne (toks ++ c :: rest) (n :: ns).

Scheme derives_min := Minimality for derives Sort Prop
  with derivesArgs_min := Minimality for derivesArgs Sort Prop.
Combined Scheme derives_mutual from derives_min, derivesArgs_min.

Section Runs.
Variable funcs : gmap string Func.
Variable ts : Token -> string.
Variable ne : string -> option string.

(** The rule of level [lv] reads [toks] as [n]: started on the first token
    of [toks], anywhere in an input, with a token after [toks] on which
    the loops of the tighter levels return, the rule goes on as the loop of
    the level does from the token after [toks] with [n] in hand. *)
Definition parsedAs (lv : nat) (toks : list Token) (n : Node) : Prop :=
  forall (l pre post : list Token) (i : nat) (d : Z) (t : Tree)
         (Post : Node -> Tree -> Prop),
    l = pre ++ toks ++ post -> i = length pre -> Forall notEOF l ->
    poised l i t ->
    (forall lv', (lv < lv' <= 5)%nat -> stopsAt lv' (T (nextTok post)) = true) ->
    (forall te, cursorAt l (i + length toks) te ->
                wp (fun f => loopOf funcs ts ne lv f d n) te Post) ->
    wp (fun f => enter funcs ts ne lv f d) t Post.

(** The loop of [Func] reads [toks], up to a closing parenthesis, as the
    arguments [ns]: started on the token before [toks], it returns the
    function node with [ns] appended, the cursor past the parenthesis. *)
Definition argsOfCall (toks : list Token) (ns : list Node) : Prop :=
  forall (l pre post : list Token) (i : nat) (d : Z) (t : Tree)
         (pos : Z) (name : string) (f : Func) (acc : list Node)
         (Post : Node -> Tree -> Prop),
    l = pre ++ toks ++ post -> S i = length pre -> Forall notEOF l ->
    cursorAt l i t ->
    T (nextTok post) = TokenRightParenthesis ->
    (forall te, cursorAt l (S i + length toks + 1) te ->
                Post (FuncNode pos name f (acc ++ ns)) te) ->
    wp (fun fuel => Func_loop funcs ts ne fuel d (FuncNode pos name f acc))
       t Post.

(** The same for the loop of [MultiArg], started on the first token of
    [toks]. *)
Definition argsOfList (toks : list Token) (ns : list Node) : Prop :=
  forall (l pre post : list Token) (i : nat) (d : Z) (t : Tree)
         (op : Token) (acc : list Node) (Post : Node -> Tree -> Prop),
    l = pre ++ toks ++ post -> i = length pre -> Forall notEOF l ->
    cursorAt l i t ->
    T (nextTok post) = TokenRightParenthesis ->
    (forall te, cursorAt l (i + length toks + 1) te ->
                Post (MultiArgNode op (acc ++ ns)) te) ->
    wp (fun fuel => MultiArg_loop funcs ts ne fuel d (MultiArgNode op acc))
       t Post.

End Runs.

End Derivation.

Module GrammarFixtures.
Import Pager Parser.

(** [no_such_fn(a, 1) + b * c] *)
Definition call_sum_input : Lexer :=
  [ mkToken TokenUdfExpr 0 "no_such_fn"; mkToken TokenLeftParenthesis 10 "(";
    mkToken TokenIdentity 11 "a"; mkToken TokenComma 12 ",";
    mkToken TokenInteger 14 "1"; mkToken TokenRightParenthesis 15 ")";
    mkToken TokenPlus 17 "+"; mkToken TokenIdentity 19 "b";
    mkToken TokenMultiply 21 "*"; mkToken TokenIdentity 23 "c" ].

Definition call_sum_tree : Node :=
  BinaryNode false (mkToken TokenPlus 17 "+")
    (FuncNode 0 "no_such_fn" (mkFunc "no_such_fn" (Some 1%N))
       [IdentityNode 11 "a"; NumberNode 14 "1"])
    (BinaryNode false (mkToken TokenMultiply 21 "*")
       (IdentityNode 19 "b") (IdentityNode 23 "c")).

Definition tokA : Token := mkToken TokenIdentity 0 "a".
Definition tokB : Token := mkToken TokenIdentity 4 "b".
Definition tokC : Token := mkToken TokenIdentity 8 "c".
Definition tokPlus (pos : Z) : Token := mkToken TokenPlus pos "+".
Definition tokTimes (pos : Z) : Token := mkToken TokenMultiply pos "*".
Definition tokMinus (pos : Z) : Token := mkToken TokenMinus pos "-".
Definition tokLeft (pos : Z) : Token := mkToken TokenLeftParenthesis pos "(".
Definition tokRight (pos : Z) : Token := mkToken TokenRightParenthesis pos ")".

End GrammarFixtures.

Module DialectCalls.
Import Dialect.

(** A call of a method of [DialectWriter], with its arguments. *)
Inductive Call : Set :=
| CWrite (s : string)
| CLiteral (l : string)
| CIdentity (i : string)
| CLeftRightIdentity (l r : string)
| CIdentityQuote (i : string) (quote : ascii)
| CNumber (n : string)
| CNull.

Section Calls.
Context {W : Type} `{DialectWriter W}.

Definition call (w : W) (c : Call) : W :=
  match c with
  | CWrite s => Write w s
  | CLiteral l => WriteLiteral w l
  | CIdentity i => WriteIdentity w i
  | CLeftRightIdentity l r => WriteLeftRightIdentity w l r
  | CIdentityQuote i q => WriteIdentityQuote w i q
  | CNumber n => WriteNumber w n
  | CNull => WriteNull w
  end.

(** The calls of a list, made one after the other. *)
Definition calls (w : W) (cs : list Call) : W := foldl call w cs.

End Calls.

(** Two calls of the same method whose arguments differ at most in the
    value of a literal or of a number, or in the case of the letters of an
    unqualified identity. *)
Definition alike (c1 c2 : Call) : Prop :=
  match c1, c2 with
  | CLiteral _, CLiteral _ => True
  | CNumber _, CNumber _ => True
  | CIdentity i1, CIdentity i2 => ToLower i1 = ToLower i2
  | _, _ => c1 = c2
  end.

(** A call the keyword writer [w] does not treat on its own: any call but
    that of WriteIdentity on one of its keywords. *)
Definition offKeywords (w : keywordDialect) (c : Call) : Prop :=
  match c with
  | CIdentity i => kw w !! ToLower i = None
  | _ => True
  end.

(** A call the JSON writer does not treat on its own: any call but that of
    WriteLiteral on a literal other than the star. *)
Definition offLiterals (c : Call) : Prop :=
  match c with
  | CLiteral l => l = star
  | _ => True
  end.

(** The calls that write [Name = 5] and [name = 42]. *)
Definition calls_upper : list Call :=
  [CIdentity "Name"; CWrite " = "; CNumber "5"].
Definition calls_lower : list Call :=
  [CIdentity "name"; CWrite " = "; CNumber "42"].

End DialectCalls.


(** * Properties *)

(** ** The token pager *)

Section PagerFacts.
Import Pager.

Lemma index_in_range (s : list Token) (i : Z) :
  0 <= i < len s -> exists tok, index s i = Some tok /\ tok ∈ s.
Proof.
  intros [Hlo Hhi]. unfold index, len in *.
  destruct (decide (0 <= i)) as [_|]; [|lia].
  destruct (lookup_lt_is_Some_2 s (Z.to_nat i)) as [tok Htok]; [lia|].
  exists tok. split; [done|]. by eapply list_elem_of_lookup_2.
Qed.

Lemma index_Some_range (s : list Token) (i : Z) (tok : Token) :
  index s i = Some tok -> 0 <= i < len s.
Proof.
  unfold index, len. destruct (decide (0 <= i)); [|done].
  intros Hl%lookup_lt_Some. lia.
Qed.

Lemma inv_done_nonempty (m : LexTokenPager) :
  inv m -> done m = true -> 0 < len (tokens m).
Proof.
  intros [_ Hd] Hdone. apply Hd in Hdone. unfold len.
  destruct (tokens m); [by apply Exists_nil in Hdone | simpl; lia].
Qed.

Lemma pull_inv (m : LexTokenPager) :
  inv m -> inv (pull m) /\ 0 < len (tokens (pull m)) /\
           cursor (pull m) = cursor m.
Proof.
  intros Hinv. unfold pull. destruct (done m) eqn:Hdone.
  - split; [done|]. split; [by apply inv_done_nonempty|done].
  - destruct (NextToken (lex m)) as [tok l]. destruct Hinv as [Hc Hd].
    unfold inv, len in *. cbn [tokens cursor done]. rewrite length_app.
    cbn [length]. split; [split; [lia|] | split; [lia|done]].
    rewrite Exists_app, Exists_cons, Exists_nil. unfold isEOF at 2.
    destruct (decide (T tok = TokenEOF)); [intuition|].
    split; [congruence|]. intros [H|[H|[]]]; [apply Hd in H; congruence | done].
Qed.

Lemma advance_inv (m : LexTokenPager) :
  inv m -> 0 < len (tokens m) -> inv (advance m) /\ 0 <= cursor (advance m).
Proof.
  intros [Hc Hd] Hlen. unfold advance, inv.
  destruct (decide (cursor m + 1 < len (tokens m)));
    cbn [set_cursor tokens cursor done]; (split; [split; [lia|done] | lia]).
Qed.

Lemma Next_inv (m : LexTokenPager) :
  inv m ->
  exists tok m', Next m = Some (tok, m') /\ inv m' /\ 0 <= cursor m' /\
                 tok ∈ tokens m' /\ m' = advance (pull m).
Proof.
  intros Hinv. destruct (pull_inv m Hinv) as (Hp & Hlen & _).
  destruct (advance_inv _ Hp Hlen) as [Ha Hc].
  destruct (index_in_range (tokens (advance (pull m)))
              (cursor (advance (pull m)))) as (tok & Hi & Hin).
  { destruct Ha as [Ha _]. lia. }
  exists tok, (advance (pull m)). unfold Next. by rewrite Hi.
Qed.

Lemma Cur_inv (m : LexTokenPager) :
  inv m ->
  exists tok m', Cur m = Some (tok, m') /\ inv m' /\ 0 <= cursor m'.
Proof.
  intros Hinv. unfold Cur. destruct (decide (cursor m = -1)) as [|Hne].
  - destruct (Next_inv m Hinv) as (tok & m' & -> & ? & ? & _). eauto.
  - destruct (index_in_range (tokens m) (cursor m)) as (tok & -> & _).
    { destruct Hinv as [? _]. lia. }
    exists tok, m. split; [done|]. split; [done|]. destruct Hinv as [? _]. lia.
Qed.

Lemma Backup_inv (m : LexTokenPager) : inv m -> inv (Backup m).
Proof.
  intros [Hc Hd]. unfold Backup, inv.
  destruct (decide (cursor m > 0)); cbn [set_cursor tokens cursor done];
    (split; [lia|done]).
Qed.

Lemma Peek_inv (m : LexTokenPager) :
  inv m -> exists tok m', Peek m = Some (tok, m') /\ inv m'.
Proof.
  intros Hinv. unfold Peek.
  destruct (decide (len (tokens m) <= cursor m + 1)) as [Hend|Hin].
  - destruct (Next_inv m Hinv) as (tok & m' & -> & [Hc Hd] & Hpos & _).
    destruct (index_in_range (tokens (set_cursor m' (cursor m' - 1)))
                (cursor (set_cursor m' (cursor m' - 1)) + 1)) as (pk & -> & _).
    { cbn [set_cursor tokens cursor]. lia. }
    exists pk, (set_cursor m' (cursor m' - 1)). split; [done|].
    unfold inv. cbn [set_cursor tokens cursor done]. split; [lia|done].
  - destruct (index_in_range (tokens m) (cursor m + 1)) as (pk & -> & _).
    { destruct Hinv as [? _]. lia. }
    eauto.
Qed.

Lemma step_inv (o : Op) (m : LexTokenPager) :
  inv m -> exists m', step o m = Some m' /\ inv m'.
Proof.
  intros Hinv. destruct o; cbn [step].
  - destruct (Next_inv m Hinv) as (tok & m' & -> & ? & _). eauto.
  - destruct (Cur_inv m Hinv) as (tok & m' & -> & ? & _). eauto.
  - destruct (Peek_inv m Hinv) as (tok & m' & -> & ?). eauto.
  - eauto using Backup_inv.
Qed.

Lemma NewLexTokenPager_inv (l : Lexer) : inv (NewLexTokenPager l).
Proof.
  unfold inv, NewLexTokenPager, len. cbn. split; [lia|].
  split; [done|]. by intros ?%Exists_nil.
Qed.

Lemma run_inv (ops : list Op) (m : LexTokenPager) :
  inv m -> exists m', run ops m = Some m' /\ inv m'.
Proof.
  revert m. induction ops as [|o ops IH]; intros m Hinv; cbn [run].
  - eauto.
  - destruct (step_inv o m Hinv) as (m1 & -> & H1). by apply IH.
Qed.

Lemma reachable_inv (m : LexTokenPager) : reachable m -> inv m.
Proof.
  intros (l & ops & Hrun).
  destruct (run_inv ops _ (NewLexTokenPager_inv l)) as (m' & Hrun' & Hinv).
  congruence.
Qed.

Lemma Next_done (m : LexTokenPager) (tok : Token) (m' : LexTokenPager) :
  done m = true -> Next m = Some (tok, m') ->
  lex m' = lex m /\ tokens m' = tokens m /\ done m' = true /\ tok ∈ tokens m.
Proof.
  unfold Next, pull, advance. intros Hd. rewrite Hd.
  destruct (decide (cursor m + 1 < len (tokens m)));
    cbn [set_cursor tokens cursor];
    destruct (index _ _) as [tk|] eqn:Hi; intros [= <- <-];
    cbn [set_cursor tokens lex done]; repeat split; try done.
  all: unfold index in Hi; destruct (decide _) in Hi; [|done].
  all: by eapply list_elem_of_lookup_2.
Qed.

(** Where the calls index the buffer: Next and Cur at the cursor, Peek one
    past it. *)
Lemma index_sites (m m' : LexTokenPager) (tok : Token) :
  (Next m = Some (tok, m') -> 0 <= cursor m' < len (tokens m')) /\
  (Cur m = Some (tok, m') -> 0 <= cursor m' < len (tokens m')) /\
  (Peek m = Some (tok, m') -> 0 <= cursor m' + 1 < len (tokens m')).
Proof.
  assert (HN : forall m m' tok, Next m = Some (tok, m') ->
                                0 <= cursor m' < len (tokens m')).
  { intros m0 m0' tk. unfold Next.
    destruct (index _ _) as [t1|] eqn:Hi; [|done]. intros [= _ <-].
    by eapply index_Some_range. }
  split; [apply HN|]. split.
  - unfold Cur. destruct (decide _); [apply HN|].
    destruct (index _ _) as [t1|] eqn:Hi; [|done]. intros [= _ <-].
    by eapply index_Some_range.
  - unfold Peek.
    destruct (decide _).
    + destruct (Next m) as [[t1 m1]|]; [|done].
      destruct (index _ _) as [t2|] eqn:Hi; [|done]. intros [= _ <-].
      by eapply index_Some_range.
    + destruct (index _ _) as [t2|] eqn:Hi; [|done]. intros [= _ <-].
      by eapply index_Some_range.
Qed.

(** C10. Whatever the lexer yields and whatever calls of Next, Cur, Peek and
    Backup are made on a fresh pager, no call faults on an index out of
    range: the run ends in a state whose cursor is between -1 and the last
    buffered index, where every further call again returns, with the index
    it used (the cursor in Next and Cur, the cursor plus one in Peek)
    non-negative and inside the buffer, and where the pager is done exactly
    when an EOF token has been buffered; once it is done, Next leaves the
    lexer and the buffer as they are and returns a token of the buffer. *)
Theorem pager_never_out_of_range (l : Lexer) (ops : list Op) :
  exists m,
    run ops (NewLexTokenPager l) = Some m /\
    -1 <= cursor m <= len (tokens m) - 1 /\
    (exists tok m', Next m = Some (tok, m') /\
                    0 <= cursor m' < len (tokens m')) /\
    (exists tok m', Cur m = Some (tok, m') /\
                    0 <= cursor m' < len (tokens m')) /\
    (exists tok m', Peek m = Some (tok, m') /\
                    -1 <= cursor m' /\ 0 <= cursor m' + 1 < len (tokens m')) /\
    -1 <= cursor (Backup m) <= len (tokens (Backup m)) - 1 /\
    (done m = true <-> Exists isEOF (tokens m)) /\
    (done m = false \/
     exists tok m', Next m = Some (tok, m') /\ lex m' = lex m /\
                    tokens m' = tokens m /\ done m' = true /\
                    0 <= cursor m' /\ tok ∈ tokens m).
Proof.
  destruct (run_inv ops _ (NewLexTokenPager_inv l)) as (m & Hrun & Hinv).
  exists m. split; [done|]. split; [destruct Hinv; lia|].
  destruct (Next_inv m Hinv) as (tn & mn & HN & HNi & HNpos & _).
  destruct (Cur_inv m Hinv) as (tc & mc & HC & _).
  destruct (Peek_inv m Hinv) as (tp & mp & HP & HPi).
  pose proof (Backup_inv m Hinv) as [HB _].
  destruct (index_sites m mn tn) as (SN & _ & _).
  destruct (index_sites m mc tc) as (_ & SC & _).
  destruct (index_sites m mp tp) as (_ & _ & SP).
  split; [exists tn, mn; split; [done|]; by apply SN|].
  split; [exists tc, mc; split; [done|]; by apply SC|].
  split.
  { exists tp, mp. split; [done|]. split; [destruct HPi; lia|].
    by apply SP. }
  split; [lia|]. split; [apply Hinv|].
  destruct (done m) eqn:Hdone; [right|by left].
  destruct (Next_done m tn mn Hdone HN) as (? & ? & ? & ?).
  exists tn, mn. by repeat split.
Qed.

(** C3. At the end of the stream Peek moves the cursor. On the lexer output
    [a, EOF], after two calls of Next the current token is EOF; Peek then
    returns EOF, and the current token has become [a]. A second Peek
    returns EOF again. *)
Theorem Peek_at_end_changes_Cur :
  let a := mkToken TokenIdentity 0 "a" in
  let eof := mkToken TokenEOF 1 EmptyString in
  let m := mkPager true [a; eof] 1 [] TokenNil in
  let m' := mkPager true [a; eof] 0 [] TokenNil in
  run [OpNext; OpNext] (NewLexTokenPager [a; eof]) = Some m /\
  Cur m = Some (eof, m) /\
  Peek m = Some (eof, m') /\
  Cur m' = Some (a, m') /\
  Peek m' = Some (eof, m').
Proof. cbv zeta. repeat split; vm_compute; reflexivity. Qed.

(** Away from the end of the stream Peek keeps the cursor, and the token it
    returns is the one buffered right after the cursor. *)
Lemma Peek_before_end (m : LexTokenPager) :
  inv m -> ~ (done m = true /\ cursor m + 1 = len (tokens m)) ->
  exists tok m', Peek m = Some (tok, m') /\ cursor m' = cursor m /\
                 index (tokens m') (cursor m + 1) = Some tok.
Proof.
  intros Hinv Hne. unfold Peek.
  destruct (decide (len (tokens m) <= cursor m + 1)) as [Hend|Hin].
  - assert (Hdone : done m = false).
    { destruct (done m); [|done]. destruct Hinv as [? _]. exfalso.
      apply Hne. split; [done|lia]. }
    unfold Next, pull. rewrite Hdone.
    destruct (NextToken (lex m)) as [tk lx]. unfold advance.
    cbn [tokens cursor]. destruct Hinv as [Hc _]. unfold len in *.
    rewrite length_app. cbn [length].
    destruct (decide _) as [_|]; [|lia]. cbn [set_cursor tokens cursor].
    destruct (index_in_range (tokens m ++ [tk]) (cursor m + 1)) as (t1 & -> & _).
    { unfold len. rewrite length_app. cbn [length]. lia. }
    cbn [set_cursor tokens cursor].
    replace (cursor m + 1 - 1 + 1) with (cursor m + 1) by lia.
    destruct (index_in_range (tokens m ++ [tk]) (cursor m + 1)) as (t2 & Ht2 & _).
    { unfold len. rewrite length_app. cbn [length]. lia. }
    rewrite Ht2. eexists _, _. split; [done|]. cbn. split; [lia|done].
  - destruct (index_in_range (tokens m) (cursor m + 1)) as (pk & Hpk & _).
    { destruct Hinv as [? _]. lia. }
    rewrite Hpk. eauto.
Qed.

(** At the end of the stream (the pager is done and the cursor is on the last
    buffered token) Peek always steps the cursor back by one. *)
Lemma Peek_at_end (m : LexTokenPager) :
  inv m -> done m = true -> cursor m + 1 = len (tokens m) ->
  exists tok, Peek m = Some (tok, set_cursor m (cursor m - 1)).
Proof.
  intros Hinv Hdone Hend. pose proof (inv_done_nonempty m Hinv Hdone) as Hlen.
  unfold Peek. destruct (decide _) as [_|]; [|lia].
  unfold Next, pull, advance. rewrite Hdone.
  destruct (decide _) as [|_]; [lia|].
  destruct (index_in_range (tokens m) (cursor m)) as (t1 & -> & _); [lia|].
  cbn [set_cursor tokens cursor].
  replace (cursor m - 1 + 1) with (cursor m) by lia.
  destruct (index_in_range (tokens m) (cursor m)) as (t2 & -> & _); [lia|].
  eauto.
Qed.
End PagerFacts.

(** ** The parser: a run without the check follows any run that returns *)

Section ParserSimulation.
Import Pager Parser.
Local Open Scope parse_scope.

Lemma erase_isNil (n1 n2 : Node) : sameStructure n1 n2 -> isNil n1 = isNil n2.
Proof. unfold sameStructure. destruct n1, n2; cbn; congruence. Qed.

Lemma erase_setParen (n1 n2 : Node) :
  sameStructure n1 n2 -> sameStructure (setParen n1) (setParen n2).
Proof. unfold sameStructure. destruct n1, n2; cbn; congruence. Qed.

Lemma erase_Append (m1 m2 n1 n2 : Node) :
  sameStructure m1 m2 -> sameStructure n1 n2 ->
  sameStructure (Append m1 n1) (Append m2 n2).
Proof.
  unfold sameStructure. intros Hm Hn.
  destruct m1, m2; cbn in *; try congruence;
    rewrite !List.map_app; cbn; congruence.
Qed.

Lemma erase_appendIf (m1 m2 n1 n2 : Node) :
  sameStructure m1 m2 -> sameStructure n1 n2 ->
  sameStructure (appendIf m1 n1) (appendIf m2 n2).
Proof.
  intros Hm Hn. unfold appendIf. rewrite (erase_isNil n1 n2 Hn).
  destruct (isNil n2); [done|by apply erase_Append].
Qed.

Lemma simulates_ret {A} (R : A -> A -> Prop) (a1 a2 : A) :
  R a1 a2 -> simulates R (ret a1) (ret a2).
Proof. intros HR t. cbn. eauto. Qed.

Lemma simulates_bind {A B} (R : A -> A -> Prop) (R' : B -> B -> Prop)
  (m1 m2 : Parse A) (k1 k2 : A -> Parse B) :
  simulates R m1 m2 ->
  (forall a1 a2, R a1 a2 -> simulates R' (k1 a1) (k2 a2)) ->
  simulates R' (bind m1 k1) (bind m2 k2).
Proof.
  intros Hm Hk t. unfold bind. specialize (Hm t).
  destruct (m2 t) as [a2 t2| |]; [|done..].
  destruct Hm as (a1 & -> & HR). apply (Hk a1 a2 HR t2).
Qed.

Lemma simulates_liftPager (f : LexTokenPager -> option (Token * LexTokenPager)) :
  simulates eq (liftPager f) (liftPager f).
Proof.
  intros t. unfold liftPager. cbn.
  destruct (f (TokenPager t)) as [[tok p]|]; [|done]. by exists tok.
Qed.

Lemma simulates_tIsEnd : simulates eq tIsEnd tIsEnd.
Proof. intros t. cbn. by eexists. Qed.

Lemma simulates_tBackup : simulates eq tBackup tBackup.
Proof. intros t. cbn. by eexists. Qed.

Lemma simulates_panics {A} (R : A -> A -> Prop) (m1 m2 : Parse A) :
  (forall t, match m2 t with Ok _ _ => False | _ => True end) ->
  simulates R m1 m2.
Proof. intros H t. specialize (H t). by destruct (m2 t). Qed.

Lemma simulates_errorf {A} (R : A -> A -> Prop) (m1 : Parse A) (msg : string) :
  simulates R m1 (errorf msg).
Proof. by apply simulates_panics. Qed.

Lemma simulates_expect (ts1 ts2 : Token -> string) (e : TokenType) (c : string) :
  simulates eq (expect ts1 e c) (expect ts2 e c).
Proof.
  unfold expect. eapply simulates_bind; [apply simulates_liftPager|].
  intros tok ? <-. destruct (decide (T tok <> e)).
  - apply simulates_errorf.
  - by apply simulates_ret.
Qed.

Lemma simulates_resolve (funcs1 funcs2 : gmap string Func) (tok : Token) :
  simulates (fun _ _ => True)
    (match getFunction funcs1 (V tok) with
     | Some f => ret f
     | None => fun t => if runCheck t
                        then errorf ("non existent function " ++ V tok) t
                        else ret (mkFunc (V tok) None) t
     end)
    (match getFunction funcs2 (V tok) with
     | Some f => ret f
     | None => fun t => if runCheck t
                        then errorf ("non existent function " ++ V tok) t
                        else ret (mkFunc (V tok) None) t
     end).
Proof.
  intros t.
  assert (H1 : exists f1,
    (match getFunction funcs1 (V tok) with
     | Some f => ret f
     | None => fun t => if runCheck t
                        then errorf ("non existent function " ++ V tok) t
                        else ret (mkFunc (V tok) None) t
     end) (lax t) = Ok f1 (lax t)).
  { destruct (getFunction funcs1 (V tok)); cbn; eauto. }
  destruct H1 as [f1 H1].
  destruct (getFunction funcs2 (V tok)); cbn.
  - eauto.
  - destruct (runCheck t); cbn; eauto.
Qed.


Lemma erase_Unary (op : Token) (n1 n2 : Node) :
  sameStructure n1 n2 -> sameStructure (NewUnary op n1) (NewUnary op n2).
Proof. unfold sameStructure. cbn. congruence. Qed.

Lemma erase_Binary (op : Token) (l1 l2 r1 r2 : Node) :
  sameStructure l1 l2 -> sameStructure r1 r2 ->
  sameStructure (NewBinaryNode op l1 r1) (NewBinaryNode op l2 r2).
Proof. unfold sameStructure. cbn. congruence. Qed.

Lemma erase_Tri (op : Token) (a1 a2 b1 b2 c1 c2 : Node) :
  sameStructure a1 a2 -> sameStructure b1 b2 -> sameStructure c1 c2 ->
  sameStructure (NewTriNode op a1 b1 c1) (NewTriNode op a2 b2 c2).
Proof. unfold sameStructure. cbn. congruence. Qed.

Lemma erase_Func (pos : Z) (name : string) (f1 f2 : Func) :
  sameStructure (NewFuncNode pos name f1) (NewFuncNode pos name f2).
Proof. done. Qed.

Lemma sameStructure_refl (n : Node) : sameStructure n n.
Proof. done. Qed.

Create HintDb sim discriminated.
#[local] Hint Resolve erase_Unary erase_Binary erase_Tri erase_Func
  erase_Append erase_appendIf erase_setParen sameStructure_refl : sim.
#[local] Hint Extern 5 (sameStructure _ _) =>
  solve [unfold sameStructure in *; cbn; congruence] : sim.

Ltac sim_leaf :=
  first
    [ apply simulates_liftPager
    | apply simulates_expect
    | apply simulates_tIsEnd
    | apply simulates_tBackup
    | apply simulates_resolve
    | apply (simulates_errorf (fun _ _ => True))
    | apply simulates_errorf
    | apply (simulates_panics (fun _ _ => True)); done
    | apply simulates_panics; done
    | apply simulates_ret; solve [eauto with sim]
    | solve [eauto with sim] ].

Ltac sim :=
  lazymatch goal with
  | |- simulates _ (bind _ _) (bind _ _) =>
      eapply simulates_bind; [sim_leaf | intros ? ? ?; subst; sim]
  | |- simulates _ (match T ?tok with _ => _ end) _ => destruct (T tok); sim
  | |- simulates _ (if decide ?P then _ else _) _ => destruct (decide P); sim
  | |- simulates _ (if isNil ?a then _ else _) (if isNil ?b then _ else _) =>
      let H := fresh in
      assert (H : isNil a = isNil b) by (apply erase_isNil; eauto with sim);
      rewrite H; clear H; destruct (isNil b); sim
  | |- simulates _ (if ?b then _ else _) (if ?b then _ else _) =>
      destruct b; sim
  | |- simulates _ (match NewNumber ?ne ?p ?x with _ => _ end) _ =>
      destruct (NewNumber ne p x); sim
  | |- _ => sim_leaf
  end.


End ParserSimulation.

(** ** The parser: more fuel does not change a result *)

Section ParserFuel.
Import Pager Parser.
Local Open Scope parse_scope.

Lemma extends_refl {A} (m : Parse A) : extends m m.
Proof. by intros t _. Qed.

Lemma extends_outOfFuel {A} (m' : Parse A) : extends outOfFuel m'.
Proof. by intros t H. Qed.

Lemma extends_bind {A B} (m m' : Parse A) (k k' : A -> Parse B) :
  extends m m' -> (forall a, extends (k a) (k' a)) ->
  extends (bind m k) (bind m' k').
Proof.
  intros Hm Hk t. unfold bind. specialize (Hm t).
  destruct (m t) as [a t1|p t1|] eqn:E; [| |done].
  - rewrite Hm by done. apply Hk.
  - by rewrite Hm.
Qed.

Ltac ext_leaf := first [ apply extends_refl | solve [eauto] ].

Ltac ext :=
  lazymatch goal with
  | |- extends (bind _ _) (bind _ _) =>
      apply extends_bind; [ext_leaf | intros ?; ext]
  | |- extends (match T ?tok with _ => _ end) _ => destruct (T tok); ext
  | |- extends (if ?b then _ else _) _ => destruct b; ext
  | |- extends (match NewNumber ?ne ?p ?x with _ => _ end) _ =>
      destruct (NewNumber ne p x); ext
  | |- _ => ext_leaf
  end.

Lemma grammar_extends_le (funcs : gmap string Func) (ts : Token -> string)
  (ne : string -> option string) (fuel fuel' : nat) :
  (fuel <= fuel')%nat -> grammar_extends funcs ts ne fuel fuel'.
Proof.
  revert fuel'. induction fuel as [|fuel IH]; intros fuel' Hle.
  - unfold grammar_extends. repeat split; intros; apply extends_outOfFuel.
  - destruct fuel' as [|fuel']; [lia|].
    destruct (IH fuel' ltac:(lia))
      as (HO & HOl & HA & HAl & HC & HCl & HP & HPl & HM & HMl &
          HMA & HMAl & HF & Hv & HFn & HFnl).
    unfold grammar_extends. repeat split; intros; simpl.
    + ext.
    + ext.
    + ext.
    + ext.
    + ext.
    + ext.
    + ext.
    + ext.
    + ext.
    + ext.
    + ext.
    + ext.
    + ext.
    + ext.
    + ext.
    + apply extends_bind; [ext_leaf|]. intros _.
      apply extends_bind; [ext_leaf|]. intros firstToken.
      match goal with
      | |- context [bind (O funcs ts ne fuel (d + 1)) ?k1] =>
          match goal with
          | |- context [bind (O funcs ts ne fuel' (d + 1)) ?k2] =>
              assert (Hrest : extends (bind (O funcs ts ne fuel (d + 1)) k1)
                                      (bind (O funcs ts ne fuel' (d + 1)) k2))
                by ext;
              destruct (T firstToken);
              first [ exact Hrest
                    | lazymatch goal with
                      | |- extends (bind (O _ _ _ _ _) _) _ => fail
                      | |- _ => ext
                      end ]
          end
      end.
Qed.

End ParserFuel.

(** ** The parser: clause ends, BETWEEN, unknown functions, errors *)

Section ParserFacts.
Import Pager Parser.
Local Open Scope parse_scope.

Lemma extends_Ok {A} (m m' : Parse A) (t t' : Tree) (a : A) :
  extends m m' -> m t = Ok a t' -> m' t = Ok a t'.
Proof. intros H E. rewrite (H t); [done|by rewrite E]. Qed.

Lemma Cur_again (m m' : LexTokenPager) (tok : Token) :
  Pager.Cur m = Some (tok, m') -> Pager.Cur m' = Some (tok, m').
Proof.
  unfold Pager.Cur. destruct (decide (cursor m = -1)) as [Hc|Hc].
  - unfold Pager.Next. destruct (index _ _) as [tk|] eqn:Hi; [|done].
    intros [= -> <-]. apply index_Some_range in Hi as Hr.
    destruct (decide _) as [|_]; [lia|]. by rewrite Hi.
  - destruct (index _ _) as [tk|] eqn:Hi; [|done]. intros [= -> <-].
    destruct (decide _) as [|_]; [done|]. by rewrite Hi.
Qed.

Lemma tCur_again (t t' : Tree) (tok : Token) :
  tCur t = Ok tok t' -> tCur t' = Ok tok t'.
Proof.
  unfold tCur, liftPager.
  destruct (Pager.Cur (TokenPager t)) as [[tk p]|] eqn:E; [|done].
  intros [= -> <-]. cbn. by rewrite (Cur_again _ _ _ E).
Qed.

(** C9. When the loop of O finds one of EOF, end of statement, FROM, comma,
    IF, AS, SELECT or LIMIT as the current token, it returns the node
    accumulated so far, without an error, and that token is still the
    current one. *)
Theorem O_loop_returns_at_clause_end (funcs : gmap string Func)
  (ts : Token -> string) (ne : string -> option string)
  (fuel : nat) (depth : Z) (n : Node) (t t' : Tree) (tok : Token) :
  tCur t = Ok tok t' ->
  isClauseEnd (T tok) = true ->
  O_loop funcs ts ne (S fuel) depth n t = Ok n t' /\
  tCur t' = Ok tok t' /\
  (forall m, A funcs ts ne fuel depth m = Ok n t ->
             O funcs ts ne (S (S fuel)) depth m = Ok n t').
Proof.
  intros Hcur Hend.
  assert (Hloop : forall f, O_loop funcs ts ne (S f) depth n t = Ok n t').
  { intros f. simpl. unfold bind. rewrite Hcur.
    destruct (T tok); try discriminate Hend; reflexivity. }
  split; [apply Hloop|]. split; [by eapply tCur_again|].
  intros m HA.
  assert (HA' : A funcs ts ne (S fuel) depth m = Ok n t).
  { eapply extends_Ok; [|exact HA].
    apply (grammar_extends_le funcs ts ne fuel (S fuel)). lia. }
  change (O funcs ts ne (S (S fuel)) depth m)
    with (bind (A funcs ts ne (S fuel) depth)
               (fun n => O_loop funcs ts ne (S fuel) depth n) m).
  unfold bind. rewrite HA'. apply Hloop.
Qed.


Lemma O_loop_returns_at_clause_end_witness :
  let from := mkToken TokenFrom 2 "FROM" in
  let t := set_pager (Fixtures.start Fixtures.clause_input)
             (mkPager false [mkToken TokenIdentity 0 "x"; from] 1 [] TokenNil) in
  O_loop ∅ Fixtures.tokenText Fixtures.numberErr 1 0 (IdentityNode 0 "x") t
  = Ok (IdentityNode 0 "x") t.
Proof.
  cbv zeta.
  refine (proj1 (O_loop_returns_at_clause_end ∅ Fixtures.tokenText
                   Fixtures.numberErr 0 0 (IdentityNode 0 "x") _ _
                   (mkToken TokenFrom 2 "FROM") _ _)).
  - vm_compute. reflexivity.
  - reflexivity.
Defined.

Lemma bind_Ok_inv {A B} (m : Parse A) (k : A -> Parse B) (t t' : Tree) (b : B) :
  bind m k t = Ok b t' ->
  exists a t1, m t = Ok a t1 /\ k a t1 = Ok b t'.
Proof. unfold bind. destruct (m t) as [a t1| |]; [eauto|done..]. Qed.

Lemma P_fuel_le (funcs : gmap string Func) (ts : Token -> string)
  (ne : string -> option string) (fuel fuel' : nat) (d : Z) (t t' : Tree)
  (n : Node) :
  (fuel <= fuel')%nat ->
  P funcs ts ne fuel d t = Ok n t' -> P funcs ts ne fuel' d t = Ok n t'.
Proof.
  intros Hle. apply extends_Ok.
  by apply (grammar_extends_le funcs ts ne fuel fuel' Hle).
Qed.

(** C4. Whenever the operand e1 is followed by BETWEEN, the operand e2, the
    token AND the code expects there, and the operand e3 (each operand as
    the rule P parses it), and no comparison follows, the rule C returns the
    node Tri(BETWEEN, e1, e2, e3): the AND token is only stepped over, no
    binary node is built for it. *)
Theorem between_builds_tri (funcs : gmap string Func) (ts : Token -> string)
  (ne : string -> option string) (depth : Z)
  (t0 t1 t2 t3 t5 t6 t7 : Tree) (e1 e2 e3 : Node)
  (between andTok nxt : Token) :
  returns (fun f => P funcs ts ne f depth) t0 e1 t1 ->
  (cur <- tCur ;; _ <- tNext ;; ret cur) t1 = Ok between t2 ->
  T between = TokenBetween ->
  returns (fun f => P funcs ts ne f depth) t2 e2 t3 ->
  (cur <- tCur ;; _ <- tNext ;; _ <- tCur ;; _ <- tPeek ;; ret cur) t3
    = Ok andTok t5 ->
  T andTok = TokenLogicAnd ->
  returns (fun f => P funcs ts ne f (depth + 1)) t5 e3 t6 ->
  tCur t6 = Ok nxt t7 ->
  isCOperator (T nxt) = false ->
  returns (fun f => C funcs ts ne f depth) t0 (TriNode between e1 e2 e3) t7.
Proof.
  intros [f1 H1] Hb Tb [f2 H2] Ha Ta [f3 H3] Hn Tn.
  set (f := (S (f1 `max` (f2 `max` f3)))%nat).
  apply (P_fuel_le _ _ _ _ (S f)) in H1; [|lia].
  apply (P_fuel_le _ _ _ _ f) in H2; [|lia].
  apply (P_fuel_le _ _ _ _ f) in H3; [|lia].
  apply bind_Ok_inv in Hb as (cur & t1' & Hb1 & Hb).
  apply bind_Ok_inv in Hb as (x & t1'' & Hb2 & [= -> ->]).
  apply bind_Ok_inv in Ha as (cur & t3a & Ha1 & Ha).
  apply bind_Ok_inv in Ha as (x1 & t3b & Ha2 & Ha).
  apply bind_Ok_inv in Ha as (x2 & t3c & Ha3 & Ha).
  apply bind_Ok_inv in Ha as (x3 & t3d & Ha4 & [= -> ->]).
  exists (S (S f)).
  change (C funcs ts ne (S (S f)) depth t0)
    with (bind (P funcs ts ne (S f) depth)
               (fun n => C_loop funcs ts ne (S f) depth n) t0).
  unfold bind at 1. rewrite H1.
  change (C_loop funcs ts ne (S f) depth e1 t1)
    with (bind tCur (fun cur =>
            match T cur with
            | TokenEqual | TokenEqualEqual | TokenNE | TokenGT | TokenGE
            | TokenLE | TokenLT | TokenLike =>
                _ <- tNext ;;
                r <- P funcs ts ne f (depth + 1) ;;
                C_loop funcs ts ne f depth (NewBinaryNode cur e1 r)
            | TokenBetween =>
                _ <- tNext ;;
                n2 <- P funcs ts ne f depth ;;
                _ <- expect ts TokenLogicAnd "input" ;;
                _ <- tNext ;;
                _ <- tCur ;;
                _ <- tPeek ;;
                n3 <- P funcs ts ne f (depth + 1) ;;
                C_loop funcs ts ne f depth (NewTriNode cur e1 n2 n3)
            | TokenIN => _ <- tNext ;; MultiArg funcs ts ne f e1 cur depth
            | _ => ret e1
            end) t1).
  unfold bind at 1. rewrite Hb1, Tb.
  unfold bind at 1. rewrite Hb2.
  unfold bind at 1. rewrite H2.
  unfold bind at 1. unfold expect at 1. unfold bind at 1. rewrite Ha1.
  rewrite Ta. destruct (decide _) as [|_]; [done|]. cbn [ret].
  unfold bind at 1. rewrite Ha2.
  unfold bind at 1. rewrite Ha3.
  unfold bind at 1. rewrite Ha4.
  unfold bind at 1. rewrite H3.
  subst f. simpl. unfold bind. rewrite Hn.
  unfold NewTriNode. destruct (T nxt); try discriminate Tn; reflexivity.
Qed.


Lemma between_builds_tri_witness :
  returns (fun f => C ∅ Fixtures.tokenText Fixtures.numberErr f 0)
    (Fixtures.start Fixtures.between_input)
    (TriNode (mkToken TokenBetween 2 "BETWEEN")
       (IdentityNode 0 "x") (NumberNode 10 "1") (NumberNode 16 "10"))
    (Fixtures.between_state true 6 5).
Proof.
  apply (between_builds_tri ∅ Fixtures.tokenText Fixtures.numberErr 0
           (Fixtures.start Fixtures.between_input)
           (Fixtures.between_state false 2 1)
           (Fixtures.between_state false 3 2)
           (Fixtures.between_state false 4 3)
           (Fixtures.between_state true 6 4)
           (Fixtures.between_state true 6 5)
           (Fixtures.between_state true 6 5)
           (IdentityNode 0 "x") (NumberNode 10 "1") (NumberNode 16 "10")
           (mkToken TokenBetween 2 "BETWEEN")
           (mkToken TokenLogicAnd 12 "AND")
           eofToken).
  - exists 5%nat. vm_compute. reflexivity.
  - vm_compute. reflexivity.
  - reflexivity.
  - exists 5%nat. vm_compute. reflexivity.
  - vm_compute. reflexivity.
  - reflexivity.
  - exists 5%nat. vm_compute. reflexivity.
  - vm_compute. reflexivity.
  - reflexivity.
Defined.













(** The two runs of the seed scenario [no_such_fn(1)] without the check:
    unregistered, and registered. *)
Example unknown_function_lax_run :
  exists t',
    BuildTree ∅ Fixtures.tokenText Fixtures.numberErr Fixtures.noCheck 20 false
      (Fixtures.start Fixtures.unknown_fn_input) = Ok None t' /\
    Root t' = FuncNode 0 "no_such_fn" (mkFunc "no_such_fn" None)
                [NumberNode 11 "1"].
Proof. eexists. split; vm_compute; reflexivity. Qed.

(** BuildTree hands on every panic of the grammar as it is. *)
Lemma BuildTree_propagates_panic (funcs : gmap string Func)
  (ts : Token -> string) (ne : string -> option string)
  (Check : Node -> option string) (fuel : nat) (rc : bool) (t t' : Tree)
  (p : PanicValue) :
  O funcs ts ne fuel 0 (set_runCheck t rc) = Panic p t' ->
  BuildTree funcs ts ne Check fuel rc t = Panic p t'.
Proof. intros H. unfold BuildTree, bind. by rewrite H. Qed.

(** A failing check is raised as a panic as well, it is not returned. *)
Lemma BuildTree_check_failure_panics (funcs : gmap string Func)
  (ts : Token -> string) (ne : string -> option string)
  (Check : Node -> option string) (fuel : nat) (t t' : Tree)
  (root : Node) (err : string) :
  O funcs ts ne fuel 0 (set_runCheck t true) = Ok root t' ->
  root <> NilNode -> Check root = Some err ->
  BuildTree funcs ts ne Check fuel true t
  = Panic (PanicError ("expr: " ++ err)) (set_Root t' NilNode).
Proof.
  intros H Hroot Hcheck. unfold BuildTree, bind. rewrite H.
  destruct root; [done|..]; cbn [Root set_Root]; by rewrite Hcheck.
Qed.

(** So BuildTree never returns an error: whenever it returns, the error is
    nil. *)
Lemma BuildTree_never_returns_error (funcs : gmap string Func)
  (ts : Token -> string) (ne : string -> option string)
  (Check : Node -> option string) (fuel : nat) (rc : bool) (t t' : Tree)
  (e : option string) :
  BuildTree funcs ts ne Check fuel rc t = Ok e t' -> e = None.
Proof.
  unfold BuildTree, bind.
  destruct (O funcs ts ne fuel 0 (set_runCheck t rc)) as [root t1| |]; [|done..].
  destruct rc; [|by intros [= <- _]].
  cbn [Root set_Root]. destruct root; [done|..];
    (destruct (Check _); [done|by intros [= <- _]]).
Qed.

(** C1. The parse error of [no_such_fn(1)] with the check on leaves
    BuildTree (and ParseExpression) as a panic: no error is returned. The
    handler [recover] would have turned this panic into the returned error,
    but BuildTree does not defer it. *)
Theorem BuildTree_parse_error_escapes :
  let run := ParseExpression ∅ Fixtures.tokenText Fixtures.numberErr
               Fixtures.noCheck 20 Fixtures.unknown_fn_input in
  let t' := Fixtures.unknown_fn_state true 2 0 TokenEOF in
  run = Panic (PanicError "expr: non existent function no_such_fn") t' /\
  Root t' = NilNode /\
  recover run = Ok (Some "expr: non existent function no_such_fn"%string) t'.
Proof. cbv zeta. repeat split; vm_compute; reflexivity. Qed.


(** C2. The round trip fails on [(a BETWEEN 1 AND 2) + 1]: the parse gives
    the sum of the BETWEEN node and 1; the group leaves no mark on the
    BETWEEN node (only a binary node gets the flag), so the tree is emitted
    as [a BETWEEN 1 AND 2 + 1], and that text parses to a BETWEEN node whose
    upper bound is the sum 2 + 1. *)
Theorem round_trip_loses_group_around_between :
  let between := mkToken TokenBetween 0 "BETWEEN" in
  let plus := mkToken TokenPlus 0 "+" in
  let a := IdentityNode 0 "a" in
  let one := NumberNode 0 "1" in
  let two := NumberNode 0 "2" in
  let tree := BinaryNode false plus (TriNode between a one two) one in
  let tree' := TriNode between a one (BinaryNode false plus two one) in
  unpos <$> Fixtures.parsedRoot Fixtures.grouped_between_input = Some tree /\
  emit tree
  = [ mkToken TokenIdentity 0 "a"; between; mkToken TokenInteger 0 "1";
      mkToken TokenLogicAnd 0 "AND"; mkToken TokenInteger 0 "2"; plus;
      mkToken TokenInteger 0 "1" ] /\
  unpos <$> Fixtures.parsedRoot (emit tree) = Some tree' /\
  tree <> tree'.
Proof. cbv zeta. repeat split; try (vm_compute; reflexivity). discriminate. Qed.

(** Where the group holds a binary node the flag keeps it: the tree of
    [(a + b) * c] is emitted with its parentheses and parses to itself
    again. *)
Example round_trip_keeps_group_around_sum :
  let tree :=
    BinaryNode false (mkToken TokenMultiply 0 "*")
      (BinaryNode true (mkToken TokenPlus 0 "+")
         (IdentityNode 0 "a") (IdentityNode 0 "b"))
      (IdentityNode 0 "c") in
  unpos <$> Fixtures.parsedRoot Fixtures.grouped_sum_input = Some tree /\
  unpos <$> Fixtures.parsedRoot (emit tree) = Some tree /\
  emit tree = at0 <$> Fixtures.grouped_sum_input.
Proof. cbv zeta. repeat split; vm_compute; reflexivity. Qed.

End ParserFacts.

(** ** The dialect writers *)

Section DialectFacts.
Import Dialect.

Variable LQE : ascii -> string -> string.
Variable IME : ascii -> string -> string.

Lemma foldl_insert_lookup (words : list string) (m : gmap string unit)
  (k : string) :
  foldl (fun m w => <[w := tt]> m) m words !! k = Some tt <->
  k ∈ words \/ m !! k = Some tt.
Proof.
  revert m. induction words as [|w words IH]; intros m; cbn [foldl].
  - rewrite elem_of_nil. tauto.
  - rewrite IH, elem_of_cons. destruct (decide (w = k)) as [->|Hne].
    + rewrite lookup_insert_eq. tauto.
    + rewrite lookup_insert_ne by done. split; [tauto|].
      intros [[->|?]|?]; [done|tauto..].
Qed.

Lemma isKeyword_spec (words : list string) (d : defaultDialect) (id : string) :
  isKeyword (mkKeyword d (kw (NewKeywordDialect words))) id = true <->
  ToLower id ∈ words.
Proof.
  unfold isKeyword, NewKeywordDialect. cbn [kw].
  pose proof (foldl_insert_lookup words ∅ (ToLower id)) as H.
  rewrite lookup_empty in H.
  destruct (foldl _ _ _ !! ToLower id) as [[]|].
  - split; [|done]. intros _. destruct H as [H _].
    destruct (H eq_refl) as [?|?]; done.
  - split; [done|]. intros Hin. assert (Hn : @None unit = Some tt) by tauto.
    done.
Qed.

(** What the keyword writer does: it quotes an identifier by force, with
    the identity quote, exactly when the identifier in lower case is itself,
    letter for letter, a word of the list as the list was given; otherwise
    it emits it as the default writer does. The identifier is lowered for
    the lookup, the words are not lowered when they are stored. *)
Lemma keyword_WriteIdentity_lower_id_in_words (words : list string)
  (d : defaultDialect) (id : string) :
  let w := mkKeyword d (kw (NewKeywordDialect words)) in
  ((ToLower id ∈ words) /\
   keyword_WriteIdentity LQE IME w id
   = mkKeyword (bufWrite d (LQE (IdentityQuote d) id)) (kw w)) \/
  ((ToLower id ∉ words) /\
   keyword_WriteIdentity LQE IME w id
   = mkKeyword (default_WriteIdentity IME d id) (kw w)).
Proof.
  cbv zeta. pose proof (isKeyword_spec words d id) as H.
  unfold keyword_WriteIdentity.
  destruct (isKeyword _ id).
  - left. split; [by apply H|done].
  - right. split; [|done]. intros Hin. apply H in Hin. done.
Qed.

End DialectFacts.

Section DialectRuns.
Import Dialect.

(** C6. The match is not case-insensitive: WriteIdentity lowers the
    identifier for the lookup, but NewKeywordDialect stores the words as
    they are given. The word SELECT matches the identifier select when case
    is ignored, yet the writer built on that word does not find it and emits
    select bare, as the default writer does, where the quoted form is
    [`select`]; the writer built on the word select quotes both select and
    SELECT. *)
Theorem keyword_upper_case_word_is_missed :
  let w := NewKeywordDialect ["SELECT"%string] in
  let w' := NewKeywordDialect ["select"%string] in
  (exists word, word ∈ ["SELECT"%string] /\ ToLower word = ToLower "select") /\
  isKeyword w "select" = false /\
  @Text _ Fixtures.keywordW (@WriteIdentity _ Fixtures.keywordW w "select")
  = "select"%string /\
  LiteralQuoteEscape "`"%char "select" = "`select`"%string /\
  @Text _ Fixtures.keywordW (@WriteIdentity _ Fixtures.keywordW w' "select")
  = "`select`"%string /\
  @Text _ Fixtures.keywordW (@WriteIdentity _ Fixtures.keywordW w' "SELECT")
  = "`SELECT`"%string.
Proof.
  cbv zeta. split; [exists "SELECT"%string; split; [set_solver|reflexivity]|].
  repeat split; vm_compute; reflexivity.
Qed.

(** C7. The quote passed to WriteIdentityQuote is not used: the default
    writer, asked to quote [ab] with an apostrophe, quotes it with its own
    identity quote, the backtick; and every quote gives the same output. *)
Theorem WriteIdentityQuote_ignores_its_quote :
  let w := NewDefaultWriter in
  Buffer (default_WriteIdentityQuote LiteralQuoteEscape w "ab" "'"%char)
  = "`ab`"%string /\
  LiteralQuoteEscape "'"%char "ab" = "'ab'"%string /\
  (forall (lqe : ascii -> string -> string) (d : defaultDialect)
          (i : string) (q q' : ascii),
     default_WriteIdentityQuote lqe d i q = default_WriteIdentityQuote lqe d i q').
Proof. cbv zeta. repeat split; vm_compute; reflexivity. Qed.

(** C8. The fingerprint writer replaces literals and numbers by the
    placeholder and emits a plain identity in lower case, but a qualified
    identity goes to the base writer as it is: [Users.Email] keeps its
    capitals. *)
Theorem fingerprint_qualified_identity_keeps_case :
  let W := Fixtures.fingerprintW in
  let fp := NewFingerPrinter in
  @Text _ W (@WriteLiteral _ W fp "abc") = "?"%string /\
  @Text _ W (@WriteNumber _ W fp "12") = "?"%string /\
  @Text _ W (@WriteIdentity _ W fp "Email") = "email"%string /\
  @Text _ W (@WriteLeftRightIdentity _ W fp "Users" "Email")
  = "Users.Email"%string /\
  ToLower "Users.Email" = "users.email"%string.
Proof. cbv zeta. repeat split; vm_compute; reflexivity. Qed.

End DialectRuns.

(** ** The token pager: streaming, lookahead and the buffer *)

Section PagerStream.
Import Pager PagerMore.

Lemma index_app_l (s : list Token) (x : Token) (i : Z) (tok : Token) :
  index s i = Some tok -> index (s ++ [x]) i = Some tok.
Proof.
  unfold index. destruct (decide (0 <= i)); [|done].
  intros H. by apply lookup_app_l_Some.
Qed.

(** A token buffered right after the cursor is what Next returns. *)
Lemma Next_takes_buffered (m : LexTokenPager) (tok : Token) :
  index (tokens m) (cursor m + 1) = Some tok ->
  exists m', Next m = Some (tok, m').
Proof.
  intros Hi. pose proof (index_Some_range _ _ _ Hi) as Hr.
  unfold Next, pull. destruct (done m).
  - unfold advance. destruct (decide _) as [_|]; [|lia].
    cbn [set_cursor tokens cursor]. rewrite Hi. eauto.
  - destruct (NextToken (lex m)) as [tk lx]. unfold advance.
    cbn [tokens cursor]. unfold len in *. rewrite length_app. cbn [length].
    destruct (decide _) as [_|]; [|lia]. cbn [set_cursor tokens cursor].
    rewrite (index_app_l _ _ _ _ Hi). eauto.
Qed.

Lemma Peek_buffers (m m' : LexTokenPager) (tok : Token) :
  Peek m = Some (tok, m') -> index (tokens m') (cursor m' + 1) = Some tok.
Proof.
  unfold Peek. destruct (decide _).
  - destruct (Next m) as [[t1 m1]|]; [|done].
    destruct (index _ _) as [t2|] eqn:Hi; [|done]. by intros [= <- <-].
  - destruct (index _ _) as [t2|] eqn:Hi; [|done]. by intros [= <- <-].
Qed.

(** The token Peek returns is the token the next call of Next returns, in
    every state, also at the end of the stream. *)
Theorem Next_after_Peek (m m' : LexTokenPager) (tok : Token) :
  Peek m = Some (tok, m') -> exists m'', Next m' = Some (tok, m'').
Proof. intros H. by eapply Next_takes_buffered, Peek_buffers. Qed.

Lemma Next_after_Peek_witness :
  let a := mkToken TokenIdentity 0 "a" in
  let b := mkToken TokenIdentity 2 "b" in
  exists m'', Next (mkPager false [a; b] 0 [] TokenNil) = Some (b, m'').
Proof.
  cbv zeta.
  apply (Next_after_Peek (mkPager false [mkToken TokenIdentity 0 "a"] 0
                            [mkToken TokenIdentity 2 "b"] TokenNil)).
  vm_compute. reflexivity.
Defined.

(** A second Peek returns the same token and leaves the pager as the first
    one left it. *)
Theorem Peek_twice (m m' : LexTokenPager) (tok : Token) :
  Peek m = Some (tok, m') -> Peek m' = Some (tok, m').
Proof.
  intros H. apply Peek_buffers in H as Hi.
  pose proof (index_Some_range _ _ _ Hi) as Hr.
  unfold Peek. destruct (decide _) as [|_]; [lia|]. by rewrite Hi.
Qed.

Lemma Peek_twice_witness :
  let a := mkToken TokenIdentity 0 "a" in
  Peek (mkPager false [a] (-1) [] TokenNil)
  = Some (a, mkPager false [a] (-1) [] TokenNil).
Proof.
  cbv zeta.
  apply (Peek_twice (NewLexTokenPager [mkToken TokenIdentity 0 "a"])).
  vm_compute. reflexivity.
Defined.

(** Cur primes a fresh pager and from then on only reads: a repeated Cur
    returns the same token and changes nothing, and on a primed pager the
    first Cur changes nothing either. *)
Theorem Cur_only_reads (m m' : LexTokenPager) (tok : Token) :
  Cur m = Some (tok, m') ->
  Cur m' = Some (tok, m') /\ cursor m' <> -1 /\ (cursor m <> -1 -> m' = m).
Proof.
  intros H. split; [by eapply Cur_again|]. revert H. unfold Cur.
  destruct (decide (cursor m = -1)) as [Hc|Hc].
  - unfold Next. destruct (index _ _) as [tk|] eqn:Hi; [|done].
    intros [= _ <-]. apply index_Some_range in Hi. split; [lia|done].
  - destruct (index _ _) as [tk|] eqn:Hi; [|done]. by intros [= _ <-].
Qed.

Lemma Cur_only_reads_witness :
  let a := mkToken TokenIdentity 0 "a" in
  let m' := mkPager false [a] 0 [] TokenNil in
  Cur m' = Some (a, m') /\ cursor m' <> -1 /\
  (cursor (NewLexTokenPager [a]) <> -1 -> m' = NewLexTokenPager [a]).
Proof.
  cbv zeta.
  apply (Cur_only_reads (NewLexTokenPager [mkToken TokenIdentity 0 "a"])).
  vm_compute. reflexivity.
Defined.

Lemma pull_prefix (m : LexTokenPager) : tokens m `prefix_of` tokens (pull m).
Proof.
  unfold pull. destruct (done m); [done|].
  destruct (NextToken (lex m)) as [tk lx]. cbn [tokens]. by apply prefix_app_r.
Qed.

Lemma pull_conserves (l : Lexer) (m : LexTokenPager) :
  conserves l m -> conserves l (pull m).
Proof.
  unfold pull. intros Hc. destruct (done m) eqn:Hd; [done|].
  destruct Hc as [Hc|(_ & _ & Hc)]; [|congruence].
  unfold NextToken. destruct (lex m) as [|tk rest] eqn:Hl.
  - right. cbn. rewrite app_nil_r in Hc. by subst.
  - left. cbn. by rewrite <- app_assoc.
Qed.

(** Each call leaves buffer, lexer and done flag alone, or does to them what
    the pulling half of Next does. *)
Lemma step_buffer (o : Op) (m m' : LexTokenPager) :
  step o m = Some m' ->
  (tokens m' = tokens m /\ lex m' = lex m /\ done m' = done m) \/
  (tokens m' = tokens (pull m) /\ lex m' = lex (pull m) /\
   done m' = done (pull m)).
Proof.
  assert (HA : forall x, tokens (advance x) = tokens x /\
                         lex (advance x) = lex x /\ done (advance x) = done x).
  { intros x. unfold advance. by destruct (decide _). }
  assert (HN : forall tok m1, Next m = Some (tok, m1) ->
            tokens m1 = tokens (pull m) /\ lex m1 = lex (pull m) /\
            done m1 = done (pull m)).
  { intros tok m1. unfold Next. destruct (index _ _); [|done].
    intros [= _ <-]. apply HA. }
  destruct o; cbn [step].
  - destruct (Next m) as [[tk m1]|] eqn:E; [|done]. intros [= <-].
    right. by eapply HN.
  - unfold Cur. destruct (decide _).
    + destruct (Next m) as [[tk m1]|] eqn:E; [|done]. intros [= <-].
      right. by eapply HN.
    + destruct (index _ _); [|done]. intros [= <-]. by left.
  - unfold Peek. destruct (decide _).
    + destruct (Next m) as [[tk m1]|] eqn:E; [|done].
      destruct (index _ _); [|done]. intros [= <-]. right.
      cbn [set_cursor tokens lex done]. by eapply HN.
    + destruct (index _ _); [|done]. intros [= <-]. by left.
  - intros [= <-]. left. unfold Backup. by destruct (decide _).
Qed.

Lemma conserves_ext (l : Lexer) (m m' : LexTokenPager) :
  tokens m' = tokens m -> lex m' = lex m -> done m' = done m ->
  conserves l m -> conserves l m'.
Proof. unfold conserves. intros -> -> ->. done. Qed.

Lemma step_conserves (l : Lexer) (o : Op) (m m' : LexTokenPager) :
  step o m = Some m' -> conserves l m -> conserves l m'.
Proof.
  intros Hs Hc. destruct (step_buffer o m m' Hs) as [(?&?&?)|(?&?&?)].
  - by eapply conserves_ext.
  - eapply conserves_ext; [done..|]. by apply pull_conserves.
Qed.

Lemma step_prefix (o : Op) (m m' : LexTokenPager) :
  step o m = Some m' -> tokens m `prefix_of` tokens m'.
Proof.
  intros Hs. destruct (step_buffer o m m' Hs) as [(->&_)|(->&_)];
    [done|apply pull_prefix].
Qed.

(** The buffer only grows: whatever calls are made, the tokens buffered
    before them are still there, in place, after them. Backup discards
    nothing. *)
Theorem buffer_is_append_only (ops : list Op) (m m' : LexTokenPager) :
  run ops m = Some m' -> tokens m `prefix_of` tokens m'.
Proof.
  revert m. induction ops as [|o ops IH]; intros m; cbn [run].
  - by intros [= <-].
  - destruct (step o m) as [m1|] eqn:Hs; [|done]. intros Hr.
    etrans; [by eapply step_prefix|by apply IH].
Qed.

Lemma buffer_is_append_only_witness :
  let a := mkToken TokenIdentity 0 "a" in
  let b := mkToken TokenIdentity 2 "b" in
  [a; b] `prefix_of` [a; b; eofToken].
Proof.
  cbv zeta.
  apply (buffer_is_append_only [OpNext; OpBackup; OpBackup]
           (mkPager false [mkToken TokenIdentity 0 "a"; mkToken TokenIdentity 2 "b"]
              1 [] TokenNil)
           (mkPager true [mkToken TokenIdentity 0 "a"; mkToken TokenIdentity 2 "b";
                          eofToken] 0 [] TokenNil)).
  vm_compute. reflexivity.
Defined.

(** No token is lost, repeated or reordered: after any calls on a fresh
    pager, the buffer followed by what the lexer still holds is the lexer's
    output, with the EOF that ends it once that has been pulled. *)
Theorem pager_conserves_lexer_output (l : Lexer) (ops : list Op) :
  exists m, run ops (NewLexTokenPager l) = Some m /\ conserves l m.
Proof.
  destruct (run_inv ops _ (NewLexTokenPager_inv l)) as (m & Hrun & _).
  exists m. split; [done|].
  assert (H0 : conserves l (NewLexTokenPager l)) by (by left).
  revert Hrun H0. generalize (NewLexTokenPager l).
  induction ops as [|o ops IH]; intros m0; cbn [run].
  - by intros [= <-].
  - destruct (step o m0) as [m1|] eqn:Hs; [|done]. intros Hr Hc.
    eapply IH; [exact Hr|]. by eapply step_conserves.
Qed.

Lemma run_app (ops1 ops2 : list Op) (m : LexTokenPager) :
  run (ops1 ++ ops2) m = run ops1 m ≫= run ops2.
Proof.
  revert m. induction ops1 as [|o ops1 IH]; intros m; cbn; [done|].
  destruct (step o m); [apply IH|done].
Qed.

Lemma Next_pulls (l : Lexer) (k : nat) (x : Token) :
  l !! k = Some x ->
  Next (mkPager false (take k l) (Z.of_nat k - 1) (drop k l) TokenNil)
  = Some (x, mkPager (if decide (T x = TokenEOF) then true else false)
                     (take (S k) l) (Z.of_nat k) (drop (S k) l) TokenNil).
Proof.
  intros Hx. pose proof (lookup_lt_Some _ _ _ Hx) as Hlt.
  unfold Next, pull. cbn [done lex tokens cursor end_].
  rewrite (drop_S l x k Hx). cbn [NextToken].
  unfold advance. cbn [tokens cursor]. unfold len.
  rewrite length_app, length_take. cbn [length].
  destruct (decide _) as [_|]; [|lia]. cbn [set_cursor tokens cursor done lex end_].
  unfold index. destruct (decide _) as [_|]; [|lia].
  replace (Z.to_nat (Z.of_nat k - 1 + 1)) with k by lia.
  rewrite lookup_app_r by (rewrite length_take; lia).
  rewrite length_take. replace (k - k `min` length l)%nat with 0%nat by lia.
  cbn. rewrite (take_S_r l k x Hx).
  by replace (Z.of_nat k - 1 + 1) with (Z.of_nat k) by lia.
Qed.

(** The pager after [k] calls of Next on a fresh pager, while no EOF has
    come. *)
Lemma after_k_Next (l : Lexer) (k : nat) :
  (k <= length l)%nat -> Forall notEOF (take k l) ->
  run (replicate k OpNext) (NewLexTokenPager l)
  = Some (mkPager false (take k l) (Z.of_nat k - 1) (drop k l) TokenNil).
Proof.
  induction k as [|k IH]; intros Hk Hne.
  - cbn. by rewrite drop_0.
  - destruct (lookup_lt_is_Some_2 l k) as [x Hx]; [lia|].
    rewrite (take_S_r l k x Hx) in Hne. apply Forall_app in Hne as [Hne Hxe].
    apply Forall_inv in Hxe.
    rewrite replicate_S_end, run_app, IH by (done || lia).
    cbn [mbind option_bind run step]. rewrite (Next_pulls l k x Hx).
    cbn [fmap option_fmap option_map snd].
    destruct (decide _) as [|_]; [done|].
    by replace (Z.of_nat (S k) - 1) with (Z.of_nat k) by lia.
Qed.

(** Next streams the lexer's output in order: as long as no EOF has come,
    the call number k+1 on a fresh pager returns the token number k of the
    output. *)
Theorem Next_streams_in_order (l : Lexer) (k : nat) (tok : Token) :
  l !! k = Some tok -> Forall notEOF (take k l) ->
  exists m m',
    run (replicate k OpNext) (NewLexTokenPager l) = Some m /\
    Next m = Some (tok, m').
Proof.
  intros Hx Hne. pose proof (lookup_lt_Some _ _ _ Hx) as Hlt.
  eexists _, _. split; [apply after_k_Next; [lia|done]|].
  by apply Next_pulls.
Qed.

Lemma Next_streams_in_order_witness :
  exists m m',
    run (replicate 2 OpNext) (NewLexTokenPager Fixtures.between_input) = Some m /\
    Next m = Some (mkToken TokenInteger 10 "1", m').
Proof.
  apply (Next_streams_in_order Fixtures.between_input 2).
  - reflexivity.
  - repeat constructor; discriminate.
Defined.

End PagerStream.

(** ** The parser: what holds of every run of the grammar *)

Section ParserLogicFacts.
Import Pager Parser ParserLogic.
Local Open Scope parse_scope.

Variable funcs : gmap string Func.
Variable ts : Token -> string.
Variable ne : string -> option string.
Variable I : Tree -> Prop.
Variable N : Node -> Prop.
Variable D : Token -> Func -> Prop.
Variable E : PanicValue -> Tree -> Prop.

Hypothesis HNext : holds I tNext (fun _ => True) E.
Hypothesis HCur : holds I tCur (fun _ => True) E.
Hypothesis HPeek : holds I tPeek (fun _ => True) E.
Hypothesis HBackup : holds I tBackup (fun _ => True) E.
Hypothesis Herrorf :
  forall msg t, I t -> E (PanicError ("expr: " ++ msg)) (set_Root t NilNode).
Hypothesis Hpanic : forall msg t, I t -> E (PanicString msg) t.
Hypothesis Hresolve : forall tok, holds I (resolve funcs tok) (D tok) E.
Hypothesis N_number : forall pos text, N (NumberNode pos text).
Hypothesis N_string : forall pos text, N (NewStringNode pos text).
Hypothesis N_identity : forall pos text, N (NewIdentityNode pos text).
Hypothesis N_unary : forall op n, N n -> N (NewUnary op n).
Hypothesis N_binary : forall op l r, N l -> N r -> N (NewBinaryNode op l r).
Hypothesis N_tri : forall op a b c, N a -> N b -> N c -> N (NewTriNode op a b c).
Hypothesis N_paren : forall n, N n -> N (setParen n).
Hypothesis N_multi : forall op, N (NewMultiArgNode op).
Hypothesis N_append : forall m n, N m -> N n -> N (Append m n).
Hypothesis N_func :
  forall tok f, D tok f -> N (NewFuncNode (Pos tok) (V tok) f).

Lemma holds_ret {A} (Q : A -> Prop) (a : A) : Q a -> holds I (ret a) Q E.
Proof. by intros HQ t Ht. Qed.

Lemma holds_bind {A B} (m : Parse A) (k : A -> Parse B) (Q1 : A -> Prop)
  (Q : B -> Prop) :
  holds I m Q1 E -> (forall a, Q1 a -> holds I (k a) Q E) ->
  holds I (bind m k) Q E.
Proof.
  intros Hm Hk t Ht. unfold bind. specialize (Hm t Ht).
  destruct (m t) as [a t1|p t1|]; [|done..].
  destruct Hm as [Ha Ht1]. by apply Hk.
Qed.

Lemma holds_errorf {A} (Q : A -> Prop) (msg : string) :
  holds I (errorf msg) Q E.
Proof. intros t Ht. by apply Herrorf. Qed.

Lemma holds_panic {A} (Q : A -> Prop) (msg : string) :
  holds I (panic (PanicString msg)) Q E.
Proof. intros t Ht. by apply Hpanic. Qed.

Lemma holds_outOfFuel {A} (Q : A -> Prop) : holds I outOfFuel Q E.
Proof. by intros t Ht. Qed.

Lemma holds_tIsEnd : holds I tIsEnd (fun b => b = false) E.
Proof. by intros t Ht. Qed.

Lemma holds_expect (e : TokenType) (c : string) :
  holds I (expect ts e c) (fun _ => True) E.
Proof.
  unfold expect. eapply holds_bind; [exact HCur|]. intros tok _.
  destruct (decide _); [apply holds_errorf|by apply holds_ret].
Qed.

Lemma N_appendIf (fn node : Node) : N fn -> N node -> N (appendIf fn node).
Proof. intros Hf Hn. unfold appendIf. destruct (isNil node); auto. Qed.

Lemma N_multi_first (op : Token) (n : Node) : N n -> N (MultiArgNode op [n]).
Proof. intros Hn. exact (N_append (NewMultiArgNode op) n (N_multi op) Hn). Qed.

Ltac hl_leaf :=
  first
    [ exact HNext | exact HCur | exact HPeek | exact HBackup
    | apply holds_expect | apply holds_tIsEnd | apply Hresolve
    | apply holds_errorf | apply holds_panic
    | apply holds_ret; solve [eauto using N_appendIf, N_multi_first]
    | solve [eauto using N_appendIf, N_multi_first] ].

Ltac hl :=
  lazymatch goal with
  | |- holds _ (bind (unexpected _ _ _) _) _ _ =>
      eapply (holds_bind _ _ (fun _ => False));
      [apply holds_errorf | intros ? []]
  | |- holds _ (bind _ _) _ _ =>
      let H := fresh in
      eapply holds_bind; [hl_leaf | intros ? H; cbv beta in H; subst; hl]
  | |- holds _ (match T ?tok with _ => _ end) _ _ => destruct (T tok); hl
  | |- holds _ (if decide ?P then _ else _) _ _ => destruct (decide P); hl
  | |- holds _ (if isNil ?n then _ else _) _ _ => destruct (isNil n); hl
  | |- holds ?I (if false then _ else ?m) ?Q ?E => change (holds I m Q E); hl
  | |- holds _ (match NewNumber ?f ?p ?x with _ => _ end) _ _ =>
      let HNN := fresh in
      destruct (NewNumber f p x) as [?|?] eqn:HNN;
      [ unfold NewNumber in HNN; destruct (f x); [done|];
        injection HNN as <-; hl
      | hl ]
  | |- _ => hl_leaf
  end.

(** Every function of the grammar keeps [I], returns nodes with [N] and
    panics within [E], as soon as the pager calls, the raising of errors and
    the node constructors do. *)
Lemma grammar_holds_all (fuel : nat) : grammar_holds funcs ts ne I N E fuel.
Proof.
  induction fuel as [|fuel IH].
  - unfold grammar_holds. repeat split; intros; apply holds_outOfFuel.
  - destruct IH as (HO & HOl & HA & HAl & HC & HCl & HP & HPl & HM & HMl &
                    HMA & HMAl & HF & Hv & HFn & HFnl).
    unfold grammar_holds. repeat split; intros; simpl.
    + hl.
    + hl.
    + hl.
    + hl.
    + hl.
    + hl.
    + hl.
    + hl.
    + hl.
    + hl.
    + hl.
    + hl.
    + hl.
    + hl.
    + hl.
    + eapply holds_bind; [hl_leaf|]. intros _ _.
      eapply holds_bind; [hl_leaf|]. intros firstToken _.
      match goal with
      | |- context [bind (O funcs ts ne fuel (d + 1)) ?k] =>
          assert (Hrest : holds I (bind (O funcs ts ne fuel (d + 1)) k) N E)
            by hl;
          destruct (T firstToken);
          first [ exact Hrest
                | lazymatch goal with
                  | |- holds _ (bind (O _ _ _ _ _) _) _ _ => fail
                  | |- _ => hl
                  end ]
      end.
Qed.

End ParserLogicFacts.

(** ** The parser: faults, results, errors and descriptors *)

Section ParserGuarantees.
Import Pager Parser ParserLogic.
Local Open Scope parse_scope.

Variable funcs : gmap string Func.
Variable ts : Token -> string.
Variable ne : string -> option string.
Variable Check : Node -> option string.

Lemma holds_liftPager_steady (rc : bool) (root : Node)
  (f : LexTokenPager -> option (Token * LexTokenPager)) :
  (forall m, inv m -> exists tok m', f m = Some (tok, m') /\ inv m') ->
  holds (steady rc root) (liftPager f) (fun _ => True) notRuntime.
Proof.
  intros Hf t (Hinv & Hrc & Hroot). unfold liftPager.
  destruct (Hf _ Hinv) as (tok & m' & -> & Hinv').
  split; [done|]. unfold steady. cbn. by split.
Qed.

Lemma notNil_paren (n : Node) : notNil n -> notNil (setParen n).
Proof. unfold notNil. by destruct n. Qed.

Lemma notNil_append (m n : Node) : notNil m -> notNil n -> notNil (Append m n).
Proof. unfold notNil. by destruct m. Qed.

(** With the pager within its bounds, the grammar never raises a runtime
    fault, returns no nil node, and leaves flag and root as they are. *)
Lemma grammar_steady (rc : bool) (root : Node) (fuel : nat) :
  grammar_holds funcs ts ne (steady rc root) notNil notRuntime fuel.
Proof.
  apply (grammar_holds_all funcs ts ne (steady rc root) notNil
           (fun _ _ => True) notRuntime); try done.
  - apply holds_liftPager_steady. intros m Hm.
    destruct (Next_inv m Hm) as (tok & m' & ? & ? & _). eauto.
  - apply holds_liftPager_steady. intros m Hm.
    destruct (Cur_inv m Hm) as (tok & m' & ? & ? & _). eauto.
  - apply holds_liftPager_steady. intros m Hm.
    destruct (Peek_inv m Hm) as (tok & m' & ? & ?). eauto.
  - intros tok t Ht. unfold resolve.
    destruct (getFunction funcs (V tok)); [done|].
    destruct (runCheck t); cbn; [by unfold notRuntime|done].
  - apply notNil_paren.
  - apply notNil_append.
Qed.


(** BuildTree on a tree whose pager is within its bounds: what the run of
    the grammar gives is all that can happen. *)
Lemma BuildTree_steady (fuel : nat) (rc : bool) (t : Tree) :
  inv (TokenPager t) ->
  match BuildTree funcs ts ne Check fuel rc t with
  | Ok e t' => e = None /\ notNil (Root t') /\ runCheck t' = rc /\
               inv (TokenPager t') /\
               (if rc then Check (Root t') = None else True)
  | Panic p _ => p <> PanicRuntime
  | OutOfFuel => True
  end.
Proof.
  intros Hinv.
  destruct (grammar_steady rc (Root t) fuel) as (HO & _).
  specialize (HO 0 (set_runCheck t rc)). unfold BuildTree, bind.
  destruct (O funcs ts ne fuel 0 (set_runCheck t rc)) as [root t1|p t1|];
    [| by apply HO | done].
  destruct HO as (Hroot & Hinv1 & Hrc1 & _); [done|].
  destruct rc.
  - cbn [Root set_Root]. unfold notNil in Hroot.
    destruct root; [done|..];
      (destruct (Check _) eqn:HC; [done|]; cbn [Root set_Root runCheck TokenPager];
       split; [done|]; split; [done|]; split; [done|]; by split).
  - cbn [Root set_Root runCheck TokenPager].
    split; [done|]. split; [done|]. split; [done|]. by split.
Qed.

(** Parsing never ends in a runtime fault: whatever the lexer yields,
    BuildTree and ParseExpression on a fresh pager return, or panic with an
    error or a string, but never index the token buffer out of range and
    never call Check on a nil root. *)
Theorem parse_never_faults (l : Lexer) (fuel : nat) (rc : bool) :
  (forall t', BuildTree funcs ts ne Check fuel rc (NewTree (NewLexTokenPager l))
              <> Panic PanicRuntime t') /\
  (forall t', ParseExpression funcs ts ne Check fuel l <> Panic PanicRuntime t').
Proof.
  split; intros t' H.
  - pose proof (BuildTree_steady fuel rc (NewTree (NewLexTokenPager l))
                  (NewLexTokenPager_inv l)) as HB.
    rewrite H in HB. done.
  - unfold ParseExpression in H.
    pose proof (BuildTree_steady fuel true
                  (set_pager (NewTree (NewLexTokenPager l))
                     (set_end (NewLexTokenPager l) TokenEOF))
                  (NewLexTokenPager_inv l)) as HB.
    rewrite H in HB. done.
Qed.

(** When BuildTree returns, the error it returns is nil, the root is a node
    and not nil, the pager is within its bounds, and, with the check on,
    Check has passed on the root. *)
Theorem BuildTree_returns_a_tree (fuel : nat) (rc : bool) (t t' : Tree)
  (e : option string) :
  inv (TokenPager t) ->
  BuildTree funcs ts ne Check fuel rc t = Ok e t' ->
  e = None /\ Root t' <> NilNode /\ runCheck t' = rc /\
  inv (TokenPager t') /\ (rc = true -> Check (Root t') = None).
Proof.
  intros Hinv H. pose proof (BuildTree_steady fuel rc t Hinv) as HB.
  rewrite H in HB. destruct HB as (? & ? & ? & ? & HC).
  split; [done|]. split; [done|]. split; [done|]. split; [done|].
  intros ->. done.
Qed.

Lemma holds_liftPager_any (E : PanicValue -> Tree -> Prop) (I : Tree -> Prop)
  (f : LexTokenPager -> option (Token * LexTokenPager)) :
  (forall t p, I t -> I (set_pager t p)) ->
  (forall t, I t -> E PanicRuntime t) ->
  holds I (liftPager f) (fun _ => True) E.
Proof.
  intros HI HE t Ht. unfold liftPager.
  destruct (f (TokenPager t)) as [[tok p]|]; [split; [done|by apply HI]|].
  by apply HE.
Qed.

(** Every error the grammar raises has a message that begins with [expr: ]
    and comes with a nil root. *)
Lemma grammar_domainError (fuel : nat) :
  grammar_holds funcs ts ne (fun _ => True) (fun _ => True) domainError fuel.
Proof.
  apply (grammar_holds_all funcs ts ne (fun _ => True) (fun _ => True)
           (fun _ _ => True) domainError); try done.
  - by apply holds_liftPager_any.
  - by apply holds_liftPager_any.
  - by apply holds_liftPager_any.
  - intros msg t _. cbn. eauto.
  - intros tok t _. unfold resolve.
    destruct (getFunction funcs (V tok)); [done|].
    destruct (runCheck t); cbn; eauto.
Qed.

(** An error that leaves BuildTree, from the grammar or from Check, has a
    message that begins with [expr: ], and the root of the tree is nil. *)
Theorem BuildTree_error_shape (fuel : nat) (rc : bool) (t t' : Tree)
  (msg : string) :
  BuildTree funcs ts ne Check fuel rc t = Panic (PanicError msg) t' ->
  Root t' = NilNode /\ exists rest, msg = ("expr: " ++ rest)%string.
Proof.
  destruct (grammar_domainError fuel) as (HO & _).
  specialize (HO 0 (set_runCheck t rc) I). unfold BuildTree, bind.
  destruct (O funcs ts ne fuel 0 (set_runCheck t rc)) as [root t1|p t1|];
    [| |done].
  - destruct rc; [|done]. cbn [Root set_Root].
    destruct root; [done|..];
      (destruct (Check _); [|done]; intros [= <- <-]; cbn; eauto).
  - intros [= -> ->]. exact HO.
Qed.

Lemma allFuncs_append (Pf : string -> Func -> Prop) (m n : Node) :
  allFuncs Pf m -> allFuncs Pf n -> allFuncs Pf (Append m n).
Proof.
  assert (Happ : forall args,
            fold_right (fun a acc => allFuncs Pf a /\ acc) True args ->
            allFuncs Pf n ->
            fold_right (fun a acc => allFuncs Pf a /\ acc) True (args ++ [n])).
  { induction args as [|a args IH]; cbn; [done|]. intros [? ?] ?. auto. }
  destruct m; cbn; try done.
  - intros ? ?. by apply Happ.
  - intros [? ?] ?. split; [done|by apply Happ].
Qed.

Lemma allFuncs_paren (Pf : string -> Func -> Prop) (n : Node) :
  allFuncs Pf n -> allFuncs Pf (setParen n).
Proof. by destruct n. Qed.

Lemma grammar_described (rc : bool) (fuel : nat) :
  grammar_holds funcs ts ne (fun t => runCheck t = rc)
    (allFuncs (describedBy funcs rc)) (fun _ _ => True) fuel.
Proof.
  apply (grammar_holds_all funcs ts ne (fun t => runCheck t = rc)
           (allFuncs (describedBy funcs rc))
           (fun tok f => describedBy funcs rc (V tok) f) (fun _ _ => True));
    try done.
  - by apply holds_liftPager_any.
  - by apply holds_liftPager_any.
  - by apply holds_liftPager_any.
  - intros tok t Ht. unfold resolve, describedBy.
    destruct (getFunction funcs (V tok)) eqn:HG; [cbn; auto|].
    rewrite Ht. destruct rc; cbn; [done|]. auto.
  - apply allFuncs_paren.
  - apply allFuncs_append.
Qed.

(** Every function node of a tree BuildTree returns carries the descriptor
    the registry holds under the node's name in lower case; only with the
    check off, a node whose name the registry does not hold carries the
    descriptor with just that name. *)
Theorem BuildTree_descriptors (fuel : nat) (rc : bool) (t t' : Tree)
  (e : option string) :
  BuildTree funcs ts ne Check fuel rc t = Ok e t' ->
  allFuncs (describedBy funcs rc) (Root t').
Proof.
  destruct (grammar_described rc fuel) as (HO & _).
  specialize (HO 0 (set_runCheck t rc) eq_refl). unfold BuildTree, bind.
  destruct (O funcs ts ne fuel 0 (set_runCheck t rc)) as [root t1|p t1|];
    [|done..].
  destruct HO as [HN _]. destruct rc.
  - cbn [Root set_Root].
    destruct root; [done|..]; (destruct (Check _); [done|]; by intros [= _ <-]).
  - by intros [= _ <-].
Qed.

End ParserGuarantees.

Section ParserGuaranteesRuns.
Import Pager Parser ParserLogic.

Lemma BuildTree_returns_a_tree_witness :
  let root := TriNode (mkToken TokenBetween 2 "BETWEEN")
                (IdentityNode 0 "x") (NumberNode 10 "1") (NumberNode 16 "10") in
  let t' := set_runCheck (set_Root (Fixtures.between_state true 6 5) root) true in
  @None string = None /\ Root t' <> NilNode /\ runCheck t' = true /\
  inv (TokenPager t') /\ (true = true -> Fixtures.noCheck (Root t') = None).
Proof.
  cbv zeta.
  apply (BuildTree_returns_a_tree ∅ Fixtures.tokenText Fixtures.numberErr
           Fixtures.noCheck 20 true (Fixtures.start Fixtures.between_input)).
  - apply NewLexTokenPager_inv.
  - vm_compute. reflexivity.
Defined.

Lemma BuildTree_error_shape_witness :
  Root (Fixtures.unknown_fn_state true 2 0 TokenNil) = NilNode /\
  exists rest,
    "expr: non existent function no_such_fn"%string = ("expr: " ++ rest)%string.
Proof.
  apply (BuildTree_error_shape ∅ Fixtures.tokenText Fixtures.numberErr
           Fixtures.noCheck 20 true (Fixtures.start Fixtures.unknown_fn_input)).
  vm_compute. reflexivity.
Defined.

Lemma BuildTree_descriptors_witness :
  allFuncs (describedBy Fixtures.registry_with_fn true)
    (FuncNode 0 "no_such_fn" (mkFunc "no_such_fn" (Some 1%N))
       [NumberNode 11 "1"]).
Proof.
  apply (BuildTree_descriptors Fixtures.registry_with_fn Fixtures.tokenText
           Fixtures.numberErr Fixtures.noCheck 20 true
           (Fixtures.start Fixtures.unknown_fn_input)
           (mkTree true
              (FuncNode 0 "no_such_fn" (mkFunc "no_such_fn" (Some 1%N))
                 [NumberNode 11 "1"])
              (mkPager true
                 (Fixtures.unknown_fn_input ++ [eofToken]) 4 [] TokenNil))
           None).
  vm_compute. reflexivity.
Defined.

End ParserGuaranteesRuns.

(** ** The parser: input that does not start an expression *)

Section ParserStartFacts.
Import Pager Parser ParserStart.
Local Open Scope parse_scope.

Lemma tCur_fresh (l : Lexer) (rc : bool) (root : Node) (e : TokenType) :
  exists t1,
    tCur (mkTree rc root (mkPager false [] (-1) l e)) = Ok (firstToken l) t1 /\
    Root t1 = root.
Proof.
  unfold tCur, liftPager, Pager.Cur, Pager.Next, pull, firstToken.
  cbn [TokenPager cursor done lex tokens]. destruct (NextToken l) as [tok rest].
  cbn. eauto.
Qed.

(** When the first token of the input cannot start an expression (so also
    on the empty input, whose first token is EOF), BuildTree panics with a
    plain string that names the token, not with an error; the handler
    [recover] could not turn this panic into a returned error. *)
Theorem BuildTree_panics_on_bad_start (funcs : gmap string Func)
  (ts : Token -> string) (ne : string -> option string)
  (Check : Node -> option string) (fuel : nat) (rc : bool) (l : Lexer) :
  startsOperand (T (firstToken l)) = false ->
  exists t',
    BuildTree funcs ts ne Check (6 + fuel) rc (NewTree (NewLexTokenPager l))
    = Panic (PanicString ("unexpected token " ++ ts (firstToken l) ++ " ")) t' /\
    Root t' = NilNode /\
    recover (Panic (PanicString ("unexpected token " ++ ts (firstToken l) ++ " ")) t')
    = Panic PanicRuntime t'.
Proof.
  intros Hs.
  destruct (tCur_fresh l rc NilNode TokenNil) as (t1 & Hcur & Hroot).
  exists t1. split; [|by split].
  unfold BuildTree, bind. cbn [Nat.add].
  change (set_runCheck (NewTree (NewLexTokenPager l)) rc)
    with (mkTree rc NilNode (mkPager false [] (-1) l TokenNil)).
  simpl. unfold bind. rewrite Hcur.
  destruct (T (firstToken l)); try discriminate Hs; reflexivity.
Qed.

Lemma BuildTree_panics_on_bad_start_witness :
  exists t',
    BuildTree ∅ Fixtures.tokenText Fixtures.numberErr Fixtures.noCheck 6 true
      (NewTree (NewLexTokenPager []))
    = Panic (PanicString ("unexpected token " ++ Fixtures.tokenText eofToken ++ " ")) t' /\
    Root t' = NilNode /\
    recover (Panic (PanicString ("unexpected token "
                                   ++ Fixtures.tokenText eofToken ++ " ")) t')
    = Panic PanicRuntime t'.
Proof.
  apply (BuildTree_panics_on_bad_start ∅ Fixtures.tokenText Fixtures.numberErr
           Fixtures.noCheck 0 true []).
  reflexivity.
Defined.

End ParserStartFacts.

(** ** The default writer: output is only appended *)

Section DialectAppend.
Import Dialect DialectMore.

Variable LQE : ascii -> string -> string.
Variable IME : ascii -> string -> string.

Lemma string_app_assoc (s1 s2 s3 : string) :
  ((s1 ++ s2) ++ s3 = s1 ++ (s2 ++ s3))%string.
Proof.
  induction s1 as [|c s1 IH]; [reflexivity|].
  change (String c ((s1 ++ s2) ++ s3) = String c (s1 ++ (s2 ++ s3)))%string.
  by rewrite IH.
Qed.

Lemma appended_trans (w1 w2 w3 : defaultDialect) (s1 s2 : string) :
  appended w1 w2 s1 -> appended w2 w3 s2 -> appended w1 w3 (s1 ++ s2).
Proof.
  unfold appended, set_Buffer. intros -> ->. cbn.
  by rewrite string_app_assoc.
Qed.

Lemma default_WriteIdentity_appended (w : defaultDialect) (i : string) :
  appended w (default_WriteIdentity IME w i) (identityText IME w i).
Proof.
  unfold default_WriteIdentity, identityText. by destruct (decide _).
Qed.

(** A qualified identity is emitted as the qualifier, a dot and the name,
    each as WriteIdentity emits it; with an empty qualifier, or on a writer
    that strips namespaces, as the name alone. The text is appended to the
    output, which is otherwise left as it is, as are the quotes and the
    other settings of the writer. *)
Theorem WriteLeftRightIdentity_output (w : defaultDialect) (l r : string) :
  appended w (default_WriteLeftRightIdentity IME w l r)
    (if decide (l = EmptyString) then identityText IME w r
     else if stripNamespace w then identityText IME w r
     else identityText IME w l ++ dot ++ identityText IME w r).
Proof.
  unfold default_WriteLeftRightIdentity.
  destruct (decide _); [apply default_WriteIdentity_appended|].
  destruct (stripNamespace w) eqn:Hs; [apply default_WriteIdentity_appended|].
  eapply appended_trans; [apply default_WriteIdentity_appended|].
  eapply appended_trans; [reflexivity|].
  pose proof (default_WriteIdentity_appended
                (bufWrite (default_WriteIdentity IME w l) dot) r) as H.
  replace (identityText IME w r)
    with (identityText IME (bufWrite (default_WriteIdentity IME w l) dot) r);
    [exact H|].
  unfold identityText, default_WriteIdentity.
  destruct (decide (r = star)); [done|]. by destruct (decide (l = star)).
Qed.

End DialectAppend.

(** ** The parser: the operator grammar *)

Section Positions.
Import Pager Parser PagerMore Operators ParserStart Derivation.
Local Open Scope parse_scope.

Lemma stream_lookup_lt (l : Lexer) (i : nat) :
  (i < length l)%nat -> stream l !! i = l !! i.
Proof. intros H. unfold stream. by rewrite lookup_app_l. Qed.

Lemma stream_lookup_end (l : Lexer) : stream l !! length l = Some eofToken.
Proof.
  unfold stream. rewrite lookup_app_r by lia.
  by replace (length l - length l)%nat with 0%nat by lia.
Qed.

Lemma stream_length (l : Lexer) : length (stream l) = S (length l).
Proof. unfold stream. rewrite length_app. cbn. lia. Qed.

Lemma set_pager_same (t : Tree) : set_pager t (TokenPager t) = t.
Proof. by destruct t. Qed.

(** Next on a pager that has buffered [k] tokens of the stream. *)
Lemma Next_buffered (l : Lexer) (k : nat) (c : Z) (e : TokenType) (x : Token) :
  Forall notEOF l -> (k <= length l + 1)%nat ->
  -1 <= c -> c + 1 <= Z.of_nat k -> c + 1 <= Z.of_nat (length l) ->
  stream l !! Z.to_nat (c + 1) = Some x ->
  exists k',
    (k <= k' <= length l + 1)%nat /\ c + 1 < Z.of_nat k' /\
    Next (mkPager (bool_decide (length l < k)%nat) (take k (stream l)) c
                  (drop k l) e)
    = Some (x, mkPager (bool_decide (length l < k')%nat) (take k' (stream l))
                       (c + 1) (drop k' l) e).
Proof.
  intros Hne Hk Hc Hck Hcl Hx.
  destruct (decide (length l < k)%nat) as [Hd|Hd].
  - (* the EOF has been pulled *)
    exists k. split; [lia|]. split; [lia|].
    unfold Next, pull. cbn [done]. rewrite bool_decide_eq_true_2 by done.
    unfold advance. cbn [tokens cursor]. unfold len.
    rewrite length_take, stream_length, Nat.min_l by lia.
    destruct (decide (c + 1 < Z.of_nat k)) as [_|]; [|lia].
    cbn [set_cursor tokens cursor].
    unfold index. destruct (decide (0 <= c + 1)) as [_|]; [|lia].
    rewrite lookup_take_lt by lia. by rewrite Hx.
  - exists (S k). split; [lia|]. split; [lia|].
    unfold Next, pull. cbn [done lex tokens cursor end_].
    rewrite bool_decide_eq_false_2 by done.
    assert (Hy : exists y, stream l !! k = Some y /\
                           NextToken (drop k l) = (y, drop (S k) l) /\
                           (bool_decide (length l < S k)%nat
                            = if decide (T y = TokenEOF) then true else false)).
    { destruct (decide (k < length l)%nat) as [Hlt|Hge].
      - destruct (lookup_lt_is_Some_2 l k Hlt) as [y Hy]. exists y.
        rewrite stream_lookup_lt by done. split; [done|].
        rewrite (drop_S l y k Hy). split; [done|].
        rewrite bool_decide_eq_false_2 by lia.
        rewrite Forall_forall in Hne.
        destruct (decide _) as [He|]; [|done].
        exfalso. eapply Hne; [|exact He]. by eapply list_elem_of_lookup_2.
      - assert (k = length l) as -> by lia. exists eofToken.
        split; [apply stream_lookup_end|]. rewrite drop_all.
        rewrite (drop_ge l (S (length l))) by lia. split; [done|].
        by rewrite bool_decide_eq_true_2 by lia. }
    destruct Hy as (y & Hy & -> & Hdone). rewrite <- Hdone.
    rewrite <- (take_S_r _ _ _ Hy).
    unfold advance. cbn [tokens cursor]. unfold len.
    rewrite length_take, stream_length, Nat.min_l by lia.
    destruct (decide (c + 1 < Z.of_nat (S k))) as [_|]; [|lia].
    cbn [set_cursor tokens cursor].
    unfold index. destruct (decide (0 <= c + 1)) as [_|]; [|lia].
    rewrite lookup_take_lt by lia. by rewrite Hx.
Qed.

Lemma cursorAt_keeps (l : Lexer) (i : nat) (t : Tree) (rc : bool) (root : Node) :
  cursorAt l i t -> cursorAt l i (mkTree rc root (TokenPager t)).
Proof. by intros (k & e & Hk & Hp); exists k, e. Qed.

(** Cur on a positioned pager returns the token under the cursor and
    changes nothing. *)
Lemma cur_at (l : Lexer) (i : nat) (t : Tree) (x : Token) :
  cursorAt l i t -> stream l !! i = Some x -> tCur t = Ok x t.
Proof.
  intros (k & e & Hk & Hp) Hx. unfold tCur, liftPager, Cur. rewrite Hp.
  cbn [cursor tokens]. destruct (decide (Z.of_nat i = -1)) as [|_]; [lia|].
  unfold index. destruct (decide (0 <= Z.of_nat i)) as [_|]; [|lia].
  rewrite Nat2Z.id, lookup_take_lt by lia. rewrite Hx, <- Hp.
  by rewrite set_pager_same.
Qed.

(** Next on a positioned pager whose cursor is not on the EOF moves the
    cursor to the next token of the stream and returns it. *)
Lemma next_at (l : Lexer) (i : nat) (t : Tree) (x : Token) :
  Forall notEOF l -> cursorAt l i t -> (i < length l)%nat ->
  stream l !! S i = Some x ->
  exists t', tNext t = Ok x t' /\ cursorAt l (S i) t' /\
             runCheck t' = runCheck t /\ Root t' = Root t.
Proof.
  intros Hne (k & e & Hk & Hp) Hi Hx.
  destruct (Next_buffered l k (Z.of_nat i) e x Hne) as (k' & Hk' & Hc' & HN);
    [lia..| |].
  { by replace (Z.to_nat (Z.of_nat i + 1)) with (S i) by lia. }
  unfold tNext, liftPager. rewrite Hp, HN. eexists. split; [done|].
  split; [|done]. exists k', e. split; [lia|]. cbn.
  by replace (Z.of_nat i + 1) with (Z.of_nat (S i)) by lia.
Qed.

(** Cur on a poised pager returns the token it is poised on and leaves the
    cursor on it. *)
Lemma cur_poised (l : Lexer) (i : nat) (t : Tree) (x : Token) :
  Forall notEOF l -> poised l i t -> stream l !! i = Some x ->
  exists t', tCur t = Ok x t' /\ cursorAt l i t' /\
             runCheck t' = runCheck t /\ Root t' = Root t.
Proof.
  intros Hne [Hat|(-> & e & Hp)] Hx.
  - exists t. by rewrite (cur_at l i t x Hat Hx).
  - destruct (Next_buffered l 0 (-1) e x Hne) as (k' & Hk' & Hc' & HN);
      [lia..|done|].
    rewrite bool_decide_eq_false_2 in HN by lia. rewrite drop_0 in HN.
    change (take 0 (stream l)) with (@nil Token) in HN.
    unfold tCur, liftPager, Cur. rewrite Hp. cbn [cursor].
    destruct (decide _) as [_|]; [|done]. rewrite HN.
    eexists. split; [done|]. split; [|done]. exists k', e. split; [lia|done].
Qed.

(** Peek on a positioned pager whose cursor is not on the EOF returns the
    next token of the stream and leaves the cursor where it is. *)
Lemma peek_at (l : Lexer) (i : nat) (t : Tree) (x : Token) :
  Forall notEOF l -> cursorAt l i t -> (i < length l)%nat ->
  stream l !! S i = Some x ->
  exists t', tPeek t = Ok x t' /\ cursorAt l i t' /\
             runCheck t' = runCheck t /\ Root t' = Root t.
Proof.
  intros Hne (k & e & Hk & Hp) Hi Hx.
  unfold tPeek, liftPager, Peek. rewrite Hp. cbn [tokens cursor].
  unfold len. rewrite length_take, stream_length.
  destruct (decide (Z.of_nat (k `min` S (length l)) <= Z.of_nat i + 1))
    as [Hend|Hin].
  - destruct (Next_buffered l k (Z.of_nat i) e x Hne) as (k' & Hk' & Hc' & HN);
      [lia..| |].
    { by replace (Z.to_nat (Z.of_nat i + 1)) with (S i) by lia. }
    rewrite HN. cbn [set_cursor tokens cursor done lex end_].
    unfold index.
    destruct (decide (0 <= Z.of_nat i + 1 - 1 + 1)) as [_|]; [|lia].
    replace (Z.to_nat (Z.of_nat i + 1 - 1 + 1)) with (S i) by lia.
    rewrite lookup_take_lt by lia. rewrite Hx.
    eexists. split; [done|]. split; [|done]. exists k', e. split; [lia|].
    cbn. by replace (Z.of_nat i + 1 - 1) with (Z.of_nat i) by lia.
  - cbn [tokens cursor]. unfold index.
    destruct (decide (0 <= Z.of_nat i + 1)) as [_|]; [|lia].
    replace (Z.to_nat (Z.of_nat i + 1)) with (S i) by lia.
    rewrite lookup_take_lt by lia. rewrite Hx, <- Hp, set_pager_same.
    exists t. split; [done|]. split; [|done]. by exists k, e.
Qed.

End Positions.

Section OperatorGrammar.
Import Pager Parser PagerMore Operators ParserStart Derivation.
Local Open Scope parse_scope.

Variable funcs : gmap string Func.
Variable ts : Token -> string.
Variable ne : string -> option string.

Lemma enter_fuel_le (lv f f' : nat) (d : Z) :
  (f <= f')%nat -> extends (enter funcs ts ne lv f d) (enter funcs ts ne lv f' d).
Proof.
  intros Hle.
  destruct (grammar_extends_le funcs ts ne f f' Hle)
    as (HO & _ & HA & _ & HC & _ & HP & _ & HM & _ & _ & _ & HF & _).
  destruct lv as [|[|[|[|[|[|lv]]]]]]; cbn; auto.
Qed.

Lemma loopOf_fuel_le (lv f f' : nat) (d : Z) (n : Node) :
  (f <= f')%nat -> extends (loopOf funcs ts ne lv f d n) (loopOf funcs ts ne lv f' d n).
Proof.
  intros Hle.
  destruct (grammar_extends_le funcs ts ne f f' Hle)
    as (_ & HO & _ & HA & _ & HC & _ & HP & _ & HM & _).
  destruct lv as [|[|[|[|[|[|lv]]]]]]; cbn; auto using extends_refl.
Qed.

Lemma enter_unfold (lv f : nat) (d : Z) :
  (1 <= lv <= 5)%nat ->
  enter funcs ts ne lv (S f) d = bind (enter funcs ts ne (S lv) f d) (fun n => loopOf funcs ts ne lv f d n).
Proof.
  intros H. destruct lv as [|[|[|[|[|[|lv]]]]]]; try lia; reflexivity.
Qed.

Lemma wp_ret_inv (lv : nat) (d : Z) (n : Node) (t : Tree)
  (Post : Node -> Tree -> Prop) :
  (6 <= lv)%nat -> wp (fun f => loopOf funcs ts ne lv f d n) t Post -> Post n t.
Proof.
  intros H (f & n' & t' & Hr & HP).
  destruct lv as [|[|[|[|[|[|lv]]]]]]; try lia. by injection Hr as <- <-.
Qed.

Lemma wp_enter (lv : nat) (d : Z) (t : Tree) (Post : Node -> Tree -> Prop) :
  (1 <= lv <= 5)%nat ->
  wp (fun f => enter funcs ts ne (S lv) f d) t
     (fun n1 t1 => wp (fun f => loopOf funcs ts ne lv f d n1) t1 Post) ->
  wp (fun f => enter funcs ts ne lv f d) t Post.
Proof.
  intros Hlv (f1 & n1 & t1 & H1 & f2 & n' & t' & H2 & HP).
  exists (S (f1 `max` f2)), n', t'. split; [|done].
  rewrite enter_unfold by done. unfold bind.
  pose proof (Nat.le_max_l f1 f2) as Hl. pose proof (Nat.le_max_r f1 f2) as Hr.
  rewrite (extends_Ok _ _ _ _ _ (enter_fuel_le (S lv) f1 (f1 `max` f2) d Hl) H1).
  exact (extends_Ok _ _ _ _ _ (loopOf_fuel_le lv f2 (f1 `max` f2) d n1 Hr) H2).
Qed.

Lemma wp_loop_stop (lv : nat) (d : Z) (n : Node) (t : Tree) (tok : Token)
  (Post : Node -> Tree -> Prop) :
  tCur t = Ok tok t -> stopsAt lv (T tok) = true -> Post n t ->
  wp (fun f => loopOf funcs ts ne lv f d n) t Post.
Proof.
  intros Hcur Hstop HP. exists 1%nat, n, t. split; [|done].
  destruct lv as [|[|[|[|[|[|lv]]]]]]; try reflexivity;
    simpl; unfold bind; rewrite Hcur;
    destruct (T tok); try discriminate Hstop; reflexivity.
Qed.

Lemma wp_loop_take (lv : nat) (d : Z) (n : Node) (t t2 : Tree) (op x : Token)
  (Post : Node -> Tree -> Prop) :
  (1 <= lv <= 5)%nat ->
  tCur t = Ok op t -> level (T op) = lv -> tNext t = Ok x t2 ->
  wp (fun f => enter funcs ts ne (S lv) f (d + 1)) t2
     (fun r tr => wp (fun f => loopOf funcs ts ne lv f d (NewBinaryNode op n r)) tr Post) ->
  wp (fun f => loopOf funcs ts ne lv f d n) t Post.
Proof.
  intros Hlv Hcur Hlevel Hnext (f1 & r & tr & H1 & f2 & n' & t' & H2 & HP).
  exists (S (f1 `max` f2)), n', t'. split; [|done].
  pose proof (extends_Ok _ _ _ _ _
                (enter_fuel_le (S lv) f1 (f1 `max` f2) (d + 1)
                   (Nat.le_max_l f1 f2)) H1) as H1'.
  pose proof (extends_Ok _ _ _ _ _
                (loopOf_fuel_le lv f2 (f1 `max` f2) d _
                   (Nat.le_max_r f1 f2)) H2) as H2'.
  destruct lv as [|[|[|[|[|[|lv]]]]]]; try lia;
    simpl; unfold bind; rewrite Hcur;
    destruct (T op); try discriminate Hlevel;
    rewrite Hnext; cbn in H1'; rewrite H1'; exact H2'.
Qed.

Lemma wp_F_operand (d : Z) (t t1 t2 : Tree) (a x : Token)
  (Post : Node -> Tree -> Prop) :
  tCur t = Ok a t1 -> tCur t1 = Ok a t1 -> isOperand ne a = true ->
  tNext t1 = Ok x t2 -> Post (operandNode a) t2 ->
  wp (fun f => enter funcs ts ne 6 f d) t Post.
Proof.
  intros Hc Hc1 Hop Hn HP. exists 2%nat, (operandNode a), t2. split; [|done].
  unfold isOperand in Hop. unfold operandNode.
  cbn [enter]. simpl. unfold bind. rewrite Hc.
  destruct (T a) eqn:HT; try discriminate Hop;
    rewrite Hc1, HT; unfold NewNumber;
    try (destruct (ne (V a)); [discriminate Hop|]);
    rewrite Hn; reflexivity.
Qed.

Lemma wp_F_prefix (d : Z) (t t1 t2 : Tree) (op x : Token)
  (Post : Node -> Tree -> Prop) :
  tCur t = Ok op t1 -> T op = TokenNegate \/ T op = TokenMinus ->
  tNext t1 = Ok x t2 ->
  wp (fun f => enter funcs ts ne 6 f (d + 1)) t2
     (fun n te => Post (NewUnary op n) te) ->
  wp (fun f => enter funcs ts ne 6 f d) t Post.
Proof.
  intros Hc HT Hn (f & n & te & Hr & HP).
  exists (S f), (NewUnary op n), te. split; [|done].
  cbn [enter] in *. simpl. unfold bind. rewrite Hc.
  destruct HT as [-> | ->]; rewrite Hn, Hr; reflexivity.
Qed.

Lemma wp_F_group (d : Z) (t t1 t2 : Tree) (lp x : Token)
  (Post : Node -> Tree -> Prop) :
  tCur t = Ok lp t1 -> T lp = TokenLeftParenthesis -> tNext t1 = Ok x t2 ->
  wp (fun f => enter funcs ts ne 1 f (d + 1)) t2
     (fun n tr => exists (rp x' : Token) (tr' te : Tree),
        tCur tr = Ok rp tr' /\ T rp = TokenRightParenthesis /\
        tNext tr' = Ok x' te /\ Post (setParen n) te) ->
  wp (fun f => enter funcs ts ne 6 f d) t Post.
Proof.
  intros Hc HT Hn (f & n & tr & Hr & rp & x' & tr' & te & Hcr & HTr & Hnr & HP).
  exists (S f), (setParen n), te. split; [|done].
  cbn [enter] in *. simpl. unfold bind. rewrite Hc, HT, Hn, Hr.
  unfold expect, bind. rewrite Hcr.
  destruct (decide (T rp <> TokenRightParenthesis)) as [Hne|_]; [done|].
  unfold ret. rewrite Hnr. reflexivity.
Qed.

Lemma stops_of_level (ty : TokenType) (lv' : nat) :
  (1 <= level ty < lv')%nat -> stopsAt lv' ty = true.
Proof.
  intros H.
  destruct lv' as [|[|[|[|[|[|lv']]]]]]; try reflexivity; try lia;
    destruct ty; cbn in H |- *; try reflexivity; lia.
Qed.

Lemma stops_rparen (ty : TokenType) (lv : nat) :
  ty = TokenRightParenthesis -> stopsAt lv ty = true.
Proof. intros ->. by destruct lv as [|[|[|[|[|[|lv]]]]]]. Qed.

Lemma stops_EOF (lv : nat) : stopsAt lv (T (nextTok [])) = true.
Proof. by destruct lv as [|[|[|[|[|[|lv]]]]]]. Qed.

Lemma stream_middle (pre post : list Token) (x : Token) :
  stream (pre ++ x :: post) !! length pre = Some x.
Proof.
  unfold stream. rewrite <- app_assoc. apply list_lookup_middle. done.
Qed.

Lemma stream_after (pre toks post : list Token) :
  stream (pre ++ toks ++ post) !! (length pre + length toks)%nat
  = Some (nextTok post).
Proof.
  rewrite app_assoc, <- length_app.
  destruct post as [|y post]; [|apply stream_middle].
  rewrite app_nil_r. unfold stream. by rewrite list_lookup_middle.
Qed.

Lemma stream_some (l : Lexer) (i : nat) :
  (i <= length l)%nat -> exists x, stream l !! i = Some x.
Proof.
  intros H. apply lookup_lt_is_Some_2. rewrite stream_length. lia.
Qed.

Lemma stream_at (l pre post : list Token) (x : Token) (i : nat) :
  l = pre ++ x :: post -> i = length pre -> stream l !! i = Some x.
Proof. intros -> ->. apply stream_middle. Qed.

Lemma stops_level0 (ty : TokenType) (lv' : nat) :
  level ty = 0%nat -> (4 <= lv')%nat -> stopsAt lv' ty = true.
Proof.
  intros H Hlv.
  destruct lv' as [|[|[|[|[|[|lv']]]]]]; try reflexivity; try lia;
    cbn; by rewrite H.
Qed.

Lemma stops_comma (ty : TokenType) (lv : nat) :
  ty = TokenComma -> stopsAt lv ty = true.
Proof. intros ->. by destruct lv as [|[|[|[|[|[|lv]]]]]]. Qed.

Lemma Func_loop_fuel_le (f f' : nat) (d : Z) (n : Node) :
  (f <= f')%nat ->
  extends (Func_loop funcs ts ne f d n) (Func_loop funcs ts ne f' d n).
Proof.
  intros Hle.
  destruct (grammar_extends_le funcs ts ne f f' Hle)
    as (_ & _ & _ & _ & _ & _ & _ & _ & _ & _ & _ & _ & _ & _ & _ & H).
  apply H.
Qed.

Lemma MultiArg_loop_fuel_le (f f' : nat) (d : Z) (n : Node) :
  (f <= f')%nat ->
  extends (MultiArg_loop funcs ts ne f d n) (MultiArg_loop funcs ts ne f' d n).
Proof.
  intros Hle.
  destruct (grammar_extends_le funcs ts ne f f' Hle)
    as (_ & _ & _ & _ & _ & _ & _ & _ & _ & _ & _ & H & _).
  apply H.
Qed.

(** BETWEEN in the loop of C. *)
Lemma wp_loop_between (d : Z) (n : Node) (t t2 : Tree) (bt x : Token)
  (Post : Node -> Tree -> Prop) :
  tCur t = Ok bt t -> T bt = TokenBetween -> tNext t = Ok x t2 ->
  wp (fun f => enter funcs ts ne 4 f d) t2
     (fun n2 tr => exists (an x' c pk : Token) (tr2 tr3 : Tree),
        tCur tr = Ok an tr /\ T an = TokenLogicAnd /\
        tNext tr = Ok x' tr2 /\ tCur tr2 = Ok c tr2 /\
        tPeek tr2 = Ok pk tr3 /\
        wp (fun f => enter funcs ts ne 4 f (d + 1)) tr3
           (fun n3 te =>
              wp (fun f => loopOf funcs ts ne 3 f d (NewTriNode bt n n2 n3))
                 te Post)) ->
  wp (fun f => loopOf funcs ts ne 3 f d n) t Post.
Proof.
  intros Hc HT Hn (f1 & n2 & tr & H1 & an & x' & c & pk & tr2 & tr3 &
                   Hca & HTa & Hna & Hc2 & Hpk &
                   f2 & n3 & te & H2 & f3 & n' & t' & H3 & HP).
  set (m := (f1 `max` (f2 `max` f3))%nat).
  exists (S m), n', t'. split; [|done].
  pose proof (extends_Ok _ _ _ _ _
                (enter_fuel_le 4 f1 m d ltac:(lia)) H1) as H1'.
  pose proof (extends_Ok _ _ _ _ _
                (enter_fuel_le 4 f2 m (d + 1) ltac:(lia)) H2) as H2'.
  pose proof (extends_Ok _ _ _ _ _
                (loopOf_fuel_le 3 f3 m d _ ltac:(lia)) H3) as H3'.
  cbn [enter loopOf] in *. simpl. unfold bind. rewrite Hc, HT, Hn, H1'.
  unfold expect, bind. rewrite Hca.
  destruct (decide (T an <> TokenLogicAnd)) as [Hne|_]; [done|].
  unfold ret. rewrite Hna, Hc2, Hpk, H2'. exact H3'.
Qed.

(** IN in the loop of C: the list is read by MultiArg and returned. *)
Lemma wp_loop_in (d : Z) (n : Node) (t t2 t3 : Tree) (op x lp y : Token)
  (Post : Node -> Tree -> Prop) :
  tCur t = Ok op t -> T op = TokenIN -> tNext t = Ok x t2 ->
  tCur t2 = Ok lp t2 -> T lp = TokenLeftParenthesis -> tNext t2 = Ok y t3 ->
  wp (fun f => MultiArg_loop funcs ts ne f d (MultiArgNode op [n])) t3 Post ->
  wp (fun f => loopOf funcs ts ne 3 f d n) t Post.
Proof.
  intros Hc HT Hn Hc2 HT2 Hn2 (f & n' & t' & Hr & HP).
  exists (S (S f)), n', t'. split; [|done].
  cbn [loopOf]. simpl. unfold bind. rewrite Hc, HT, Hn.
  unfold expect, bind. rewrite Hc2.
  destruct (decide (T lp <> TokenLeftParenthesis)) as [Hne|_]; [done|].
  unfold ret. rewrite Hn2. exact Hr.
Qed.

Lemma wp_Multi_arg (d : Z) (multi : Node) (t : Tree) (ft : Token)
  (Post : Node -> Tree -> Prop) :
  tCur t = Ok ft t -> startsOperand (T ft) = true ->
  wp (fun f => enter funcs ts ne 1 f d) t
     (fun n tr => n <> NilNode /\
        wp (fun f => MultiArg_loop funcs ts ne f d (Append multi n)) tr Post) ->
  wp (fun f => MultiArg_loop funcs ts ne f d multi) t Post.
Proof.
  intros Hc HT (f1 & n & tr & H1 & Hn & f2 & n' & t' & H2 & HP).
  exists (S (f1 `max` f2)), n', t'. split; [|done].
  pose proof (extends_Ok _ _ _ _ _
                (enter_fuel_le 1 f1 (f1 `max` f2) d (Nat.le_max_l f1 f2)) H1)
    as H1'.
  pose proof (extends_Ok _ _ _ _ _
                (MultiArg_loop_fuel_le f2 (f1 `max` f2) d _
                   (Nat.le_max_r f1 f2)) H2) as H2'.
  cbn [enter] in H1'. simpl. unfold bind. rewrite Hc.
  destruct (T ft); try discriminate HT; rewrite H1';
    (destruct n; [done|exact H2'..]).
Qed.

Lemma wp_Multi_comma (d : Z) (multi : Node) (t t2 : Tree) (c x : Token)
  (Post : Node -> Tree -> Prop) :
  tCur t = Ok c t -> T c = TokenComma -> tNext t = Ok x t2 ->
  wp (fun f => MultiArg_loop funcs ts ne f d multi) t2 Post ->
  wp (fun f => MultiArg_loop funcs ts ne f d multi) t Post.
Proof.
  intros Hc HT Hn (f & n' & t' & Hr & HP).
  exists (S f), n', t'. split; [|done].
  simpl. unfold bind. rewrite Hc, HT, Hn. exact Hr.
Qed.

Lemma wp_Multi_rparen (d : Z) (multi : Node) (t te : Tree) (rp x : Token)
  (Post : Node -> Tree -> Prop) :
  tCur t = Ok rp t -> T rp = TokenRightParenthesis -> tNext t = Ok x te ->
  Post multi te ->
  wp (fun f => MultiArg_loop funcs ts ne f d multi) t Post.
Proof.
  intros Hc HT Hn HP. exists 1%nat, multi, te. split; [|done].
  simpl. unfold bind. by rewrite Hc, HT, Hn.
Qed.

(** A call: [F] hands over to [v], [v] to [Func], which looks the function
    up and enters its loop on the left parenthesis. *)
Lemma wp_F_call (d : Z) (t t1 t2 t3 : Tree) (udf pk x lp : Token) (f : Func)
  (Post : Node -> Tree -> Prop) :
  tCur t = Ok udf t1 -> tCur t1 = Ok udf t1 -> T udf = TokenUdfExpr ->
  tPeek t1 = Ok pk t2 -> T pk = TokenLeftParenthesis ->
  getFunction funcs (V udf) = Some f ->
  tNext t2 = Ok x t3 -> tCur t3 = Ok lp t3 -> T lp = TokenLeftParenthesis ->
  wp (fun fuel => Func_loop funcs ts ne fuel d
                    (NewFuncNode (Pos udf) (V udf) f)) t3 Post ->
  wp (fun fuel => enter funcs ts ne 6 fuel d) t Post.
Proof.
  intros Hc Hc1 HT Hpk HTpk Hf Hn Hc3 HTlp (fuel & n' & t' & Hr & HP).
  exists (S (S (S fuel))), n', t'. split; [|done].
  cbn [enter]. simpl. unfold bind. rewrite Hc, HT, Hc1, HT, Hpk.
  destruct (decide (T pk <> TokenLeftParenthesis)) as [Hne|_]; [done|].
  rewrite Hf. unfold ret. rewrite Hn.
  unfold expect, bind. rewrite Hc3.
  destruct (decide (T lp <> TokenLeftParenthesis)) as [Hne|_]; [done|].
  exact Hr.
Qed.

Lemma wp_Func_rparen (d : Z) (fn : Node) (t t1 te : Tree) (x rp y : Token)
  (Post : Node -> Tree -> Prop) :
  tNext t = Ok x t1 -> tCur t1 = Ok rp t1 -> T rp = TokenRightParenthesis ->
  tNext t1 = Ok y te -> Post fn te ->
  wp (fun fuel => Func_loop funcs ts ne fuel d fn) t Post.
Proof.
  intros Hn Hc HT Hn1 HP. exists 1%nat, fn, te. split; [|done].
  simpl. unfold bind. by rewrite Hn, Hc, HT, Hn1.
Qed.

Lemma wp_Func_arg (d : Z) (fn : Node) (t t1 : Tree) (x ft : Token)
  (Post : Node -> Tree -> Prop) :
  tNext t = Ok x t1 -> tCur t1 = Ok ft t1 -> startsOperand (T ft) = true ->
  wp (fun fuel => enter funcs ts ne 1 fuel (d + 1)) t1
     (fun node tr => exists tok : Token,
        tCur tr = Ok tok tr /\
        ((T tok = TokenComma /\
          wp (fun fuel => Func_loop funcs ts ne fuel d (appendIf fn node))
             tr Post) \/
         (T tok = TokenRightParenthesis /\
          exists y te, tNext tr = Ok y te /\ Post (appendIf fn node) te))) ->
  wp (fun fuel => Func_loop funcs ts ne fuel d fn) t Post.
Proof.
  intros Hn Hc HT (f1 & node & tr & H1 & tok & Hct & Hcases).
  cbn [enter] in H1.
  destruct Hcases as [(HTt & f2 & n' & t' & H2 & HP) | (HTt & y & te & Hny & HP)].
  - exists (S (f1 `max` f2)), n', t'. split; [|done].
    pose proof (extends_Ok _ _ _ _ _
                  (enter_fuel_le 1 f1 (f1 `max` f2) (d + 1)
                     (Nat.le_max_l f1 f2)) H1) as H1'.
    pose proof (extends_Ok _ _ _ _ _
                  (Func_loop_fuel_le f2 (f1 `max` f2) d _
                     (Nat.le_max_r f1 f2)) H2) as H2'.
    cbn [enter] in H1'. simpl. unfold bind. rewrite Hn, Hc.
    destruct (T ft); try discriminate HT; rewrite H1', Hct, HTt; exact H2'.
  - exists (S f1), (appendIf fn node), te. split; [|done].
    simpl. unfold bind. rewrite Hn, Hc.
    destruct (T ft); try discriminate HT; rewrite H1, Hct, HTt, Hny; done.
Qed.

Lemma derives_first (lv : nat) (toks : list Token) (n : Node) :
  derives funcs ne lv toks n ->
  exists a rest, toks = a :: rest /\ startsOperand (T a) = true.
Proof.
  induction 1 as [a Ha | lp rp toks n Hlp Hrp Hd IH | op toks n Hop Hd IH
                  | udf lp rp f Hu Hlp Hrp Hf
                  | udf lp rp f toks ns Hu Hlp Hrp Hf Hargs
                  | lv toks n Hlv Hd IH
                  | lv op toks1 toks2 n1 n2 Hlv Hlevel Hd1 IH1 Hd2 IH2
                  | bt an toks1 toks2 toks3 n1 n2 n3 Hbt Han Hd1 IH1 Hd2 IH2
                      Hd3 IH3
                  | op lp rp toks1 toks n1 ns Hop Hlp Hrp Hd1 IH1 Hargs].
  - exists a, []. split; [done|]. unfold isOperand in Ha.
    unfold startsOperand. by destruct (T a).
  - exists lp, (toks ++ [rp]). split; [done|]. by rewrite Hlp.
  - exists op, toks. split; [done|]. by destruct Hop as [-> | ->].
  - eexists _, _. split; [done|]. by rewrite Hu.
  - eexists _, _. split; [done|]. by rewrite Hu.
  - done.
  - destruct IH1 as (a & rest & -> & Ha). by eexists _, _.
  - destruct IH1 as (a & rest & -> & Ha). by eexists _, _.
  - destruct IH1 as (a & rest & -> & Ha). by eexists _, _.
Qed.

Lemma derives_notNil (lv : nat) (toks : list Token) (n : Node) :
  derives funcs ne lv toks n -> n <> NilNode.
Proof.
  induction 1 as [a Ha | lp rp toks n Hlp Hrp Hd IH | | | | | | |]; try done.
  - unfold operandNode. by destruct (T a).
  - by destruct n.
Qed.

Ltac list_norm :=
  repeat first [rewrite <- !app_assoc | progress cbn [app]].
Ltac len_norm :=
  repeat first [rewrite !length_app | progress cbn [length]].
Ltac at_tok l' r' :=
  apply (stream_at _ l' r');
  [subst; list_norm; done | subst; len_norm; lia].


Ltac at_pos H :=
  match type of H with
  | cursorAt ?l ?i ?t =>
      match goal with
      | |- cursorAt l ?j t =>
          replace j with i by (subst; len_norm; lia); exact H
      end
  end.

Lemma step_at (l : Lexer) (i : nat) (t : Tree) :
  Forall notEOF l -> cursorAt l i t -> (i < length l)%nat ->
  exists x t', stream l !! S i = Some x /\ tNext t = Ok x t' /\
               cursorAt l (S i) t'.
Proof.
  intros Hne Hat Hlt.
  destruct (stream_some l (S i) ltac:(lia)) as (x & Hx).
  destruct (next_at l i t x Hne Hat Hlt Hx) as (t' & Hn & Hat' & _).
  by exists x, t'.
Qed.

Lemma peek_step (l : Lexer) (i : nat) (t : Tree) :
  Forall notEOF l -> cursorAt l i t -> (i < length l)%nat ->
  exists x t', stream l !! S i = Some x /\ tPeek t = Ok x t' /\
               cursorAt l i t'.
Proof.
  intros Hne Hat Hlt.
  destruct (stream_some l (S i) ltac:(lia)) as (x & Hx).
  destruct (peek_at l i t x Hne Hat Hlt Hx) as (t' & Hn & Hat' & _).
  by exists x, t'.
Qed.

Lemma appendIf_Func (pos : Z) (name : string) (f : Func) (acc : list Node)
  (n : Node) :
  n <> NilNode ->
  appendIf (FuncNode pos name f acc) n = FuncNode pos name f (acc ++ [n]).
Proof. by destruct n. Qed.

Lemma nextTok_rparen (post : list Token) :
  T (nextTok post) = TokenRightParenthesis ->
  exists r post', post = r :: post' /\ T r = TokenRightParenthesis.
Proof. destruct post as [|r post']; [done|]. intros H. by exists r, post'. Qed.

Lemma stop_next (lv : nat) (post : list Token) :
  (forall lv', (lv < lv' <= 5)%nat -> stopsAt lv' (T (nextTok post)) = true) ->
  stopsAt (S lv) (T (nextTok post)) = true.
Proof.
  intros Hstop. destruct (decide (S lv <= 5)%nat) as [Hle|Hgt].
  - apply Hstop. lia.
  - destruct lv as [|[|[|[|[|lv]]]]]; try lia. reflexivity.
Qed.

Lemma parsed_operand (a : Token) :
  isOperand ne a = true -> parsedAs funcs ts ne 6 [a] (operandNode a).
Proof.
  intros Ha l pre post i d t Post Hl Hi Hne Hpo Hstop Hk.
  assert (stream l !! i = Some a) as Hat by at_tok pre post.
  destruct (cur_poised l i t a Hne Hpo Hat) as (t1 & Hc & Hat1 & _).
  assert (i < length l)%nat as Hlt by (subst; len_norm; lia).
  destruct (step_at l i t1 Hne Hat1 Hlt) as (x & t2 & _ & Hn & Hat2).
  apply (wp_F_operand d t t1 t2 a x); try done.
  - exact (cur_at l i t1 a Hat1 Hat).
  - apply (wp_ret_inv 6 d); [lia|]. apply Hk. at_pos Hat2.
Qed.

Lemma parsed_group (lp rp : Token) (toks : list Token) (n : Node) :
  T lp = TokenLeftParenthesis -> T rp = TokenRightParenthesis ->
  parsedAs funcs ts ne 1 toks n ->
  parsedAs funcs ts ne 6 (lp :: toks ++ [rp]) (setParen n).
Proof.
  intros Hlp Hrp IH l pre post i d t Post Hl Hi Hne Hpo Hstop Hk.
  assert (stream l !! i = Some lp) as Hat by at_tok pre (toks ++ rp :: post).
  destruct (cur_poised l i t lp Hne Hpo Hat) as (t1 & Hc & Hat1 & _).
  assert (i < length l)%nat as Hlt by (subst; len_norm; lia).
  destruct (step_at l i t1 Hne Hat1 Hlt) as (x & t2 & _ & Hn & Hat2).
  apply (wp_F_group d t t1 t2 lp x); try done.
  apply (IH l (pre ++ [lp]) (rp :: post) (S i)); try done.
  - subst l. by list_norm.
  - subst i. len_norm. lia.
  - by left.
  - intros lv' _. by apply stops_rparen.
  - intros tr Htr.
    assert (stream l !! (S i + length toks)%nat = Some rp) as Hrpat
      by at_tok (pre ++ lp :: toks) post.
    pose proof (cur_at l _ tr rp Htr Hrpat) as Hcr.
    apply (wp_loop_stop 1 (d + 1) n tr rp); [done|by apply stops_rparen|].
    assert (S i + length toks < length l)%nat as Hlt'
      by (subst; len_norm; lia).
    destruct (step_at l _ tr Hne Htr Hlt') as (x' & te & _ & Hne' & Hate).
    exists rp, x', tr, te. split; [done|]. split; [done|]. split; [done|].
    apply (wp_ret_inv 6 d); [lia|]. apply Hk. at_pos Hate.
Qed.

Lemma parsed_prefix (op : Token) (toks : list Token) (n : Node) :
  T op = TokenNegate \/ T op = TokenMinus ->
  parsedAs funcs ts ne 6 toks n ->
  parsedAs funcs ts ne 6 (op :: toks) (NewUnary op n).
Proof.
  intros Hop IH l pre post i d t Post Hl Hi Hne Hpo Hstop Hk.
  assert (stream l !! i = Some op) as Hat by at_tok pre (toks ++ post).
  destruct (cur_poised l i t op Hne Hpo Hat) as (t1 & Hc & Hat1 & _).
  assert (i < length l)%nat as Hlt by (subst; len_norm; lia).
  destruct (step_at l i t1 Hne Hat1 Hlt) as (x & t2 & _ & Hn & Hat2).
  apply (wp_F_prefix d t t1 t2 op x); try done.
  apply (IH l (pre ++ [op]) post (S i)); try done.
  - subst l. by list_norm.
  - subst i. len_norm. lia.
  - by left.
  - intros te Hte. exists 1%nat, n, te. split; [done|].
    apply (wp_ret_inv 6 d); [lia|]. apply Hk. at_pos Hte.
Qed.

Lemma parsed_call0 (udf lp rp : Token) (f : Func) :
  T udf = TokenUdfExpr ->
  T lp = TokenLeftParenthesis -> T rp = TokenRightParenthesis ->
  getFunction funcs (V udf) = Some f ->
  parsedAs funcs ts ne 6 [udf; lp; rp] (NewFuncNode (Pos udf) (V udf) f).
Proof.
  intros Hu Hlp Hrp Hf l pre post i d t Post Hl Hi Hne Hpo Hstop Hk.
  assert (stream l !! i = Some udf) as Hat by at_tok pre (lp :: rp :: post).
  assert (stream l !! S i = Some lp) as Hatlp
    by at_tok (pre ++ [udf]) (rp :: post).
  assert (stream l !! S (S i) = Some rp) as Hatrp
    by at_tok (pre ++ [udf; lp]) post.
  assert (S (S i) < length l)%nat as Hlt by (subst; len_norm; lia).
  destruct (cur_poised l i t udf Hne Hpo Hat) as (t1 & Hc & Hat1 & _).
  destruct (peek_step l i t1 Hne Hat1 ltac:(lia)) as (pk & t2 & Hpk & Hp & Hat2).
  rewrite Hatlp in Hpk. injection Hpk as <-.
  destruct (step_at l i t2 Hne Hat2 ltac:(lia)) as (x & t3 & _ & Hn & Hat3).
  destruct (step_at l _ t3 Hne Hat3 ltac:(lia)) as (x4 & t4 & _ & Hn4 & Hat4).
  destruct (step_at l _ t4 Hne Hat4 ltac:(lia)) as (x5 & te & _ & Hn5 & Hate).
  apply (wp_F_call d t t1 t2 t3 udf lp x lp f); try done.
  - exact (cur_at l i t1 udf Hat1 Hat).
  - exact (cur_at l _ t3 lp Hat3 Hatlp).
  - apply (wp_Func_rparen d _ t3 t4 te x4 rp x5); try done.
    + exact (cur_at l _ t4 rp Hat4 Hatrp).
    + apply (wp_ret_inv 6 d); [lia|]. apply Hk. at_pos Hate.
Qed.

Lemma parsed_call (udf lp rp : Token) (f : Func) (toks : list Token)
  (ns : list Node) :
  T udf = TokenUdfExpr ->
  T lp = TokenLeftParenthesis -> T rp = TokenRightParenthesis ->
  getFunction funcs (V udf) = Some f ->
  argsOfCall funcs ts ne toks ns ->
  parsedAs funcs ts ne 6 (udf :: lp :: toks ++ [rp])
           (FuncNode (Pos udf) (V udf) f ns).
Proof.
  intros Hu Hlp Hrp Hf IH l pre post i d t Post Hl Hi Hne Hpo Hstop Hk.
  assert (stream l !! i = Some udf) as Hat
    by at_tok pre (lp :: toks ++ rp :: post).
  assert (stream l !! S i = Some lp) as Hatlp
    by at_tok (pre ++ [udf]) (toks ++ rp :: post).
  assert (S i < length l)%nat as Hlt by (subst; len_norm; lia).
  destruct (cur_poised l i t udf Hne Hpo Hat) as (t1 & Hc & Hat1 & _).
  destruct (peek_step l i t1 Hne Hat1 ltac:(lia)) as (pk & t2 & Hpk & Hp & Hat2).
  rewrite Hatlp in Hpk. injection Hpk as <-.
  destruct (step_at l i t2 Hne Hat2 ltac:(lia)) as (x & t3 & _ & Hn & Hat3).
  apply (wp_F_call d t t1 t2 t3 udf lp x lp f); try done.
  - exact (cur_at l i t1 udf Hat1 Hat).
  - exact (cur_at l _ t3 lp Hat3 Hatlp).
  - apply (IH l (pre ++ [udf; lp]) (rp :: post) (S i) d t3
              (Pos udf) (V udf) f [] Post); try done.
    + subst l. by list_norm.
    + subst i. len_norm. lia.
    + intros te Hte. cbn [app].
      apply (wp_ret_inv 6 d); [lia|]. apply Hk. at_pos Hte.
Qed.

Lemma parsed_up (lv : nat) (toks : list Token) (n : Node) :
  (1 <= lv <= 5)%nat ->
  parsedAs funcs ts ne (S lv) toks n -> parsedAs funcs ts ne lv toks n.
Proof.
  intros Hlv IH l pre post i d t Post Hl Hi Hne Hpo Hstop Hk.
  apply wp_enter; [done|].
  apply (IH l pre post i); try done.
  - intros lv' Hlv'. apply Hstop. lia.
  - intros te Hte.
    assert (stream l !! (i + length toks)%nat = Some (nextTok post)) as Hat
      by (subst; apply stream_after).
    apply (wp_loop_stop (S lv) d n te (nextTok post)).
    + exact (cur_at l _ te _ Hte Hat).
    + by apply stop_next.
    + by apply Hk.
Qed.

Lemma parsed_binary (lv : nat) (op : Token) (toks1 toks2 : list Token)
  (n1 n2 : Node) :
  (1 <= lv <= 5)%nat -> level (T op) = lv ->
  parsedAs funcs ts ne lv toks1 n1 -> parsedAs funcs ts ne (S lv) toks2 n2 ->
  parsedAs funcs ts ne lv (toks1 ++ op :: toks2) (NewBinaryNode op n1 n2).
Proof.
  intros Hlv Hlevel IH1 IH2 l pre post i d t Post Hl Hi Hne Hpo Hstop Hk.
  assert (l = pre ++ toks1 ++ (op :: toks2 ++ post)) as Hl1
    by (subst l; by list_norm).
  assert (stream l !! (i + length toks1)%nat = Some op) as Hopat
    by at_tok (pre ++ toks1) (toks2 ++ post).
  apply (IH1 l pre (op :: toks2 ++ post) i); try done.
  - intros lv' Hlv'. apply stops_of_level. cbn [nextTok hd]. lia.
  - intros tm Htm.
    assert (i + length toks1 < length l)%nat as Hlt
      by (subst; len_norm; lia).
    destruct (step_at l _ tm Hne Htm Hlt) as (x & t2 & _ & Hn & Hat2).
    apply (wp_loop_take lv d n1 tm t2 op x); try done.
    { exact (cur_at l _ tm op Htm Hopat). }
    apply (IH2 l (pre ++ toks1 ++ [op]) post (S (i + length toks1)));
      try done.
    + subst l. by list_norm.
    + subst i. len_norm. lia.
    + by left.
    + intros lv' Hlv'. apply Hstop. lia.
    + intros te Hte.
      assert (stream l !! (i + length (toks1 ++ op :: toks2))%nat
              = Some (nextTok post)) as Hat
        by (subst; apply stream_after).
      assert (cursorAt l (i + length (toks1 ++ op :: toks2)) te) as Hte'
        by at_pos Hte.
      apply (wp_loop_stop (S lv) (d + 1) n2 te (nextTok post)).
      * exact (cur_at l _ te _ Hte' Hat).
      * by apply stop_next.
      * by apply Hk.
Qed.

Lemma parsed_between (bt an : Token) (toks1 toks2 toks3 : list Token)
  (n1 n2 n3 : Node) :
  T bt = TokenBetween -> T an = TokenLogicAnd ->
  (1 <= length toks3)%nat ->
  parsedAs funcs ts ne 3 toks1 n1 ->
  parsedAs funcs ts ne 4 toks2 n2 -> parsedAs funcs ts ne 4 toks3 n3 ->
  parsedAs funcs ts ne 3 (toks1 ++ bt :: toks2 ++ an :: toks3)
           (NewTriNode bt n1 n2 n3).
Proof.
  intros Hbt Han Hlen3 IH1 IH2 IH3 l pre post i d t Post Hl Hi Hne Hpo Hstop Hk.
  assert (stream l !! (i + length toks1)%nat = Some bt) as Hbtat
    by at_tok (pre ++ toks1) (toks2 ++ an :: toks3 ++ post).
  assert (stream l !! (S (i + length toks1) + length toks2)%nat = Some an)
    as Hanat by at_tok (pre ++ toks1 ++ bt :: toks2) (toks3 ++ post).
  assert (S (S (i + length toks1) + length toks2) < length l)%nat as Hlt
    by (subst; len_norm; lia).
  apply (IH1 l pre (bt :: toks2 ++ an :: toks3 ++ post) i); try done.
  { subst l. by list_norm. }
  { intros lv' Hlv'. cbn [nextTok hd]. apply stops_level0; [|lia].
    by rewrite Hbt. }
  intros tm Htm.
  destruct (step_at l _ tm Hne Htm ltac:(lia)) as (x & t2 & _ & Hn & Hat2).
  apply (wp_loop_between d n1 tm t2 bt x); try done.
  { exact (cur_at l _ tm bt Htm Hbtat). }
  apply (IH2 l (pre ++ toks1 ++ [bt]) (an :: toks3 ++ post)
             (S (i + length toks1))); try done.
  { subst l. by list_norm. }
  { subst i. len_norm. lia. }
  { by left. }
  { intros lv' Hlv'. cbn [nextTok hd]. apply stops_of_level.
    rewrite Han. cbn. lia. }
  intros tr Htr.
  pose proof (cur_at l _ tr an Htr Hanat) as Hcr.
  apply (wp_loop_stop 4 d n2 tr an); [done|by rewrite Han|].
  destruct (step_at l _ tr Hne Htr ltac:(lia)) as (x' & tr2 & Hx' & Hn' & Hat').
  destruct (peek_step l _ tr2 Hne Hat' ltac:(lia))
    as (pk & tr3 & _ & Hp & Hat3).
  exists an, x', x', pk, tr2, tr3.
  split; [done|]. split; [done|]. split; [done|].
  split; [exact (cur_at l _ tr2 x' Hat' Hx')|]. split; [done|].
  apply (IH3 l (pre ++ toks1 ++ bt :: toks2 ++ [an]) post
             (S (S (i + length toks1) + length toks2))); try done.
  { subst l. by list_norm. }
  { subst i. len_norm. lia. }
  { by left. }
  { intros lv' Hlv'. apply Hstop. lia. }
  intros te Hte.
  assert (cursorAt l (i + length (toks1 ++ bt :: toks2 ++ an :: toks3)) te)
    as Hte' by at_pos Hte.
  assert (stream l !! (i + length (toks1 ++ bt :: toks2 ++ an :: toks3))%nat
          = Some (nextTok post)) as Hat
    by (subst; apply stream_after).
  apply (wp_loop_stop 4 (d + 1) n3 te (nextTok post)).
  - exact (cur_at l _ te _ Hte' Hat).
  - apply Hstop. lia.
  - by apply Hk.
Qed.

Lemma parsed_in (op lp rp : Token) (toks1 toks : list Token) (n1 : Node)
  (ns : list Node) :
  T op = TokenIN ->
  T lp = TokenLeftParenthesis -> T rp = TokenRightParenthesis ->
  (1 <= length toks)%nat ->
  parsedAs funcs ts ne 3 toks1 n1 ->
  argsOfList funcs ts ne toks ns ->
  parsedAs funcs ts ne 2 (toks1 ++ op :: lp :: toks ++ [rp])
           (MultiArgNode op (n1 :: ns)).
Proof.
  intros Hop Hlp Hrp Hlen IH1 IHa l pre post i d t Post Hl Hi Hne Hpo Hstop Hk.
  assert (stream l !! (i + length toks1)%nat = Some op) as Hopat
    by at_tok (pre ++ toks1) (lp :: toks ++ rp :: post).
  assert (stream l !! S (i + length toks1)%nat = Some lp) as Hlpat
    by at_tok (pre ++ toks1 ++ [op]) (toks ++ rp :: post).
  assert (S (S (i + length toks1)) < length l)%nat as Hlt
    by (subst; len_norm; lia).
  apply wp_enter; [lia|].
  apply (IH1 l pre (op :: lp :: toks ++ rp :: post) i); try done.
  { subst l. by list_norm. }
  { intros lv' Hlv'. cbn [nextTok hd]. apply stops_level0; [|lia].
    by rewrite Hop. }
  intros tm Htm.
  destruct (step_at l _ tm Hne Htm ltac:(lia)) as (x & t2 & _ & Hn & Hat2).
  destruct (step_at l _ t2 Hne Hat2 ltac:(lia)) as (y & t3 & _ & Hn3 & Hat3).
  apply (wp_loop_in d n1 tm t2 t3 op x lp y); try done.
  { exact (cur_at l _ tm op Htm Hopat). }
  { exact (cur_at l _ t2 lp Hat2 Hlpat). }
  apply (IHa l (pre ++ toks1 ++ [op; lp]) (rp :: post)
             (S (S (i + length toks1))) d t3 op [n1]); try done.
  { subst l. by list_norm. }
  { subst i. len_norm. lia. }
  intros te Hte. cbn [app]. apply Hk. at_pos Hte.
Qed.

Lemma args_last (toks : list Token) (n : Node) :
  derives funcs ne 1 toks n -> parsedAs funcs ts ne 1 toks n ->
  argsOfCall funcs ts ne toks [n] /\ argsOfList funcs ts ne toks [n].
Proof.
  intros Hd IH.
  destruct (derives_first _ _ _ Hd) as (a & rest & Htoks & Hstart).
  pose proof (derives_notNil _ _ _ Hd) as Hnil.
  split.
  - intros l pre post i d t pos name f acc Post Hl Hi Hne Hat Hrp Hk.
    destruct (nextTok_rparen post Hrp) as (r & post' & Hpost & Hr).
    assert (stream l !! S i = Some a) as Haat
      by at_tok pre (rest ++ post).
    assert (stream l !! (S i + length toks)%nat = Some r) as Hrat
      by at_tok (pre ++ toks) post'.
    assert (S i + length toks < length l)%nat as Hlt
      by (subst; len_norm; lia).
    destruct (step_at l _ t Hne Hat ltac:(lia)) as (x & t1 & Hx & Hn & Hat1).
    rewrite Haat in Hx. injection Hx as <-.
    apply (wp_Func_arg d _ t t1 a a); try done.
    { exact (cur_at l _ t1 a Hat1 Haat). }
    apply (IH l pre post (S i)); try done.
    { by left. }
    { intros lv' _. by apply stops_rparen. }
    intros tr Htr.
    pose proof (cur_at l _ tr r Htr Hrat) as Hcr.
    apply (wp_loop_stop 1 (d + 1) n tr r); [done|by apply stops_rparen|].
    exists r. split; [done|]. right. split; [done|].
    destruct (step_at l _ tr Hne Htr ltac:(lia)) as (y & te & _ & Hny & Hate).
    exists y, te. split; [done|].
    rewrite appendIf_Func by done. apply Hk. at_pos Hate.
  - intros l pre post i d t op acc Post Hl Hi Hne Hat Hrp Hk.
    destruct (nextTok_rparen post Hrp) as (r & post' & Hpost & Hr).
    assert (stream l !! i = Some a) as Haat
      by at_tok pre (rest ++ post).
    assert (stream l !! (i + length toks)%nat = Some r) as Hrat
      by at_tok (pre ++ toks) post'.
    assert (i + length toks < length l)%nat as Hlt
      by (subst; len_norm; lia).
    apply (wp_Multi_arg d _ t a); try done.
    { exact (cur_at l _ t a Hat Haat). }
    apply (IH l pre post i); try done.
    { by left. }
    { intros lv' _. by apply stops_rparen. }
    intros tr Htr.
    pose proof (cur_at l _ tr r Htr Hrat) as Hcr.
    apply (wp_loop_stop 1 d n tr r); [done|by apply stops_rparen|].
    split; [done|].
    destruct (step_at l _ tr Hne Htr ltac:(lia)) as (y & te & _ & Hny & Hate).
    apply (wp_Multi_rparen d _ tr te r y); try done.
    cbn [Append]. apply Hk. at_pos Hate.
Qed.

Lemma args_more (c : Token) (toks rest : list Token) (n : Node)
  (ns : list Node) :
  T c = TokenComma ->
  derives funcs ne 1 toks n -> parsedAs funcs ts ne 1 toks n ->
  (1 <= length rest)%nat ->
  argsOfCall funcs ts ne rest ns /\ argsOfList funcs ts ne rest ns ->
  argsOfCall funcs ts ne (toks ++ c :: rest) (n :: ns) /\
  argsOfList funcs ts ne (toks ++ c :: rest) (n :: ns).
Proof.
  intros Hc Hd IH Hlen [IHc IHl].
  destruct (derives_first _ _ _ Hd) as (a & rest0 & Htoks & Hstart).
  pose proof (derives_notNil _ _ _ Hd) as Hnil.
  split.
  - intros l pre post i d t pos name f acc Post Hl Hi Hne Hat Hrp Hk.
    assert (stream l !! S i = Some a) as Haat
      by at_tok pre (rest0 ++ c :: rest ++ post).
    assert (stream l !! (S i + length toks)%nat = Some c) as Hcat
      by at_tok (pre ++ toks) (rest ++ post).
    assert (S i + length toks < length l)%nat as Hlt
      by (subst; len_norm; lia).
    destruct (step_at l _ t Hne Hat ltac:(lia)) as (x & t1 & Hx & Hn & Hat1).
    rewrite Haat in Hx. injection Hx as <-.
    apply (wp_Func_arg d _ t t1 a a); try done.
    { exact (cur_at l _ t1 a Hat1 Haat). }
    apply (IH l pre (c :: rest ++ post) (S i)); try done.
    { subst l. by list_norm. }
    { by left. }
    { intros lv' _. by apply stops_comma. }
    intros tr Htr.
    pose proof (cur_at l _ tr c Htr Hcat) as Hcr.
    apply (wp_loop_stop 1 (d + 1) n tr c); [done|by apply stops_comma|].
    exists c. split; [done|]. left. split; [done|].
    rewrite appendIf_Func by done.
    apply (IHc l (pre ++ toks ++ [c]) post (S i + length toks)%nat);
      try done.
    { subst l. by list_norm. }
    { rewrite !length_app, <- Hi. cbn. lia. }
    intros te Hte. rewrite <- app_assoc. cbn [app]. apply Hk. at_pos Hte.
  - intros l pre post i d t op acc Post Hl Hi Hne Hat Hrp Hk.
    assert (stream l !! i = Some a) as Haat
      by at_tok pre (rest0 ++ c :: rest ++ post).
    assert (stream l !! (i + length toks)%nat = Some c) as Hcat
      by at_tok (pre ++ toks) (rest ++ post).
    assert (i + length toks < length l)%nat as Hlt
      by (subst; len_norm; lia).
    apply (wp_Multi_arg d _ t a); try done.
    { exact (cur_at l _ t a Hat Haat). }
    apply (IH l pre (c :: rest ++ post) i); try done.
    { subst l. by list_norm. }
    { by left. }
    { intros lv' _. by apply stops_comma. }
    intros tr Htr.
    pose proof (cur_at l _ tr c Htr Hcat) as Hcr.
    apply (wp_loop_stop 1 d n tr c); [done|by apply stops_comma|].
    split; [done|].
    destruct (step_at l _ tr Hne Htr ltac:(lia)) as (y & t2 & _ & Hny & Hat2).
    apply (wp_Multi_comma d _ tr t2 c y); try done.
    cbn [Append].
    apply (IHl l (pre ++ toks ++ [c]) post (S (i + length toks))); try done.
    { subst l. by list_norm. }
    { subst i. len_norm. lia. }
    intros te Hte. rewrite <- app_assoc. cbn [app]. apply Hk. at_pos Hte.
Qed.

Lemma derivesArgs_nonempty (toks : list Token) (ns : list Node) :
  derivesArgs funcs ne toks ns -> (1 <= length toks)%nat.
Proof.
  destruct 1 as [toks n Hd | c toks rest n ns Hc Hd Ha];
    destruct (derives_first _ _ _ Hd) as (a & rest0 & -> & _); cbn; lia.
Qed.

(** Every derivation is read by the rule of its level, and every list of
    arguments by the loops of [Func] and [MultiArg]. *)
Lemma derives_parsed :
  (forall lv toks n, derives funcs ne lv toks n ->
                     parsedAs funcs ts ne lv toks n) /\
  (forall toks ns, derivesArgs funcs ne toks ns ->
                   argsOfCall funcs ts ne toks ns /\
                   argsOfList funcs ts ne toks ns).
Proof.
  apply derives_mutual.
  - apply parsed_operand.
  - intros lp rp toks n Hlp Hrp _ IH. by apply parsed_group.
  - intros op toks n Hop _ IH. by apply parsed_prefix.
  - apply parsed_call0.
  - intros udf lp rp f toks ns Hu Hlp Hrp Hf _ [IH _]. by apply parsed_call.
  - intros lv toks n Hlv _ IH. by apply parsed_up.
  - intros lv op toks1 toks2 n1 n2 Hlv Hlevel _ IH1 _ IH2.
    by apply parsed_binary.
  - intros bt an toks1 toks2 toks3 n1 n2 n3 Hbt Han _ IH1 _ IH2 Hd3 IH3.
    apply parsed_between; try done.
    destruct (derives_first _ _ _ Hd3) as (a & rest & -> & _). cbn. lia.
  - intros op lp rp toks1 toks n1 ns Hop Hlp Hrp _ IH1 Ha [_ IHa].
    apply parsed_in; try done. by eapply derivesArgs_nonempty.
  - apply args_last.
  - intros c toks rest n ns Hc Hd IH Ha IHa.
    apply args_more; try done. by eapply derivesArgs_nonempty.
Qed.

Lemma derives_notEOF :
  (forall lv toks n, derives funcs ne lv toks n -> Forall notEOF toks) /\
  (forall toks ns, derivesArgs funcs ne toks ns -> Forall notEOF toks).
Proof.
  assert (forall tok ty, T tok = ty -> ty <> TokenEOF -> notEOF tok) as Hty
    by (intros tok ty <- H; exact H).
  apply derives_mutual.
  - intros a Ha. apply Forall_singleton. unfold notEOF, isOperand in *.
    intros E. by rewrite E in Ha.
  - intros lp rp toks n Hlp Hrp _ IH.
    apply Forall_cons. split; [by eapply Hty|].
    apply Forall_app. split; [done|]. apply Forall_singleton. by eapply Hty.
  - intros op toks n Hop _ IH. apply Forall_cons. split; [|done].
    destruct Hop; by eapply Hty.
  - intros udf lp rp f Hu Hlp Hrp _.
    repeat (apply Forall_cons; split; [by eapply Hty|]). by apply Forall_nil.
  - intros udf lp rp f toks ns Hu Hlp Hrp _ _ IH.
    repeat (apply Forall_cons; split; [by eapply Hty|]).
    apply Forall_app. split; [done|]. apply Forall_singleton. by eapply Hty.
  - done.
  - intros lv op toks1 toks2 n1 n2 Hlv Hlevel _ IH1 _ IH2.
    apply Forall_app. split; [done|]. apply Forall_cons. split; [|done].
    unfold notEOF. intros E. rewrite E in Hlevel. cbn in Hlevel. lia.
  - intros bt an toks1 toks2 toks3 n1 n2 n3 Hbt Han _ IH1 _ IH2 _ IH3.
    apply Forall_app. split; [done|].
    apply Forall_cons. split; [by eapply Hty|].
    apply Forall_app. split; [done|].
    apply Forall_cons. split; [by eapply Hty|]. done.
  - intros op lp rp toks1 toks n1 ns Hop Hlp Hrp _ IH1 _ IHa.
    apply Forall_app. split; [done|].
    repeat (apply Forall_cons; split; [by eapply Hty|]).
    apply Forall_app. split; [done|]. apply Forall_singleton. by eapply Hty.
  - done.
  - intros c toks rest n ns Hc _ IH _ IHa.
    apply Forall_app. split; [done|].
    apply Forall_cons. split; [by eapply Hty|]. done.
Qed.

(** The rule O on a derivable input, from the start of the input: with
    enough fuel it returns the tree of the derivation and leaves the cursor
    on the EOF token. *)
Lemma derives_run (toks : list Token) (n : Node) (t : Tree) :
  derives funcs ne 1 toks n -> poised toks 0 t ->
  exists fuel0, forall fuel, (fuel0 <= fuel)%nat ->
    exists t', O funcs ts ne fuel 0 t = Ok n t' /\
               cursorAt toks (length toks) t'.
Proof.
  intros Hd Hpo.
  pose proof (proj1 derives_notEOF _ _ _ Hd) as Hne.
  destruct (proj1 derives_parsed 1%nat toks n Hd toks [] [] 0%nat 0 t
              (fun n' t' => n' = n /\ cursorAt toks (length toks) t'))
    as (fuel0 & n' & t' & Hr & -> & Hat); try done.
  - by rewrite app_nil_r.
  - intros lv' _. apply stops_EOF.
  - intros te Hte. cbn [Nat.add] in Hte.
    apply (wp_loop_stop 1 0 n te eofToken); try done.
    apply (cur_at toks (length toks) te eofToken Hte).
    pose proof (stream_after [] toks []) as E.
    by rewrite app_nil_r in E.
  - exists fuel0. intros fuel Hle. exists t'. split; [|done].
    exact (extends_Ok _ _ _ _ _ (enter_fuel_le 1 fuel0 fuel 0 Hle) Hr).
Qed.

Lemma cursor_on_EOF (toks : list Token) (t : Tree) :
  cursorAt toks (length toks) t -> tCur t = Ok eofToken t.
Proof.
  intros Hat. apply (cur_at toks (length toks) t eofToken Hat).
  apply stream_lookup_end.
Qed.

Variable Check : Node -> option string.

(** BuildTree on a derivable input, on a tree whose pager is fresh. *)
Lemma derives_BuildTree (b : bool) (toks : list Token) (n : Node) (t : Tree)
  (e : TokenType) :
  derives funcs ne 1 toks n -> (b = true -> Check n = None) ->
  TokenPager t = set_end (NewLexTokenPager toks) e ->
  exists fuel0, forall fuel, (fuel0 <= fuel)%nat ->
    exists t', BuildTree funcs ts ne Check fuel b t = Ok None t' /\
               Root t' = n /\ tCur t' = Ok eofToken t'.
Proof.
  intros Hd HC Hp.
  assert (poised toks 0 (set_runCheck t b)) as Hpo.
  { right. split; [done|]. exists e. cbn. by rewrite Hp. }
  destruct (derives_run toks n _ Hd Hpo) as (fuel0 & Hrun).
  exists fuel0. intros fuel Hle. destruct (Hrun fuel Hle) as (t' & HO & Hat).
  pose proof (derives_notNil _ _ _ Hd) as Hnil.
  exists (set_Root t' n). unfold BuildTree, bind. rewrite HO.
  assert (tCur (set_Root t' n) = Ok eofToken (set_Root t' n)) as Hcur.
  { apply (cursor_on_EOF toks). destruct Hat as (k & e' & Hk & Hp').
    exists k, e'. split; [done|]. by cbn. }
  destruct b.
  - specialize (HC eq_refl). split; [|by split].
    change (Root (set_Root t' n)) with n.
    destruct n; [done|..]; by rewrite HC.
  - by split.
Qed.

Lemma derives_up_to (lv lv' : nat) (toks : list Token) (n : Node) :
  (1 <= lv <= lv')%nat -> (lv' <= 6)%nat ->
  derives funcs ne lv' toks n -> derives funcs ne lv toks n.
Proof.
  intros [Hlo Hle] Hhi Hd. induction Hle as [|lv' Hle IH]; [done|].
  apply IH; [lia|]. apply d_up; [lia|done].
Qed.

Lemma derives_operand (lv : nat) (a : Token) :
  (1 <= lv <= 6)%nat -> isOperand ne a = true ->
  derives funcs ne lv [a] (operandNode a).
Proof.
  intros Hlv Ha. apply (derives_up_to lv 6); [lia|lia|]. by apply d_operand.
Qed.

Lemma level_le_5 (ty : TokenType) : (level ty <= 5)%nat.
Proof. destruct ty; cbn; lia. Qed.

(** ParseExpression reads every expression of the grammar: on the tokens of
    a derivation whose tree passes Check it returns, with enough fuel, a nil
    error, the root is the tree of the derivation, and the cursor is on the
    EOF token, so the whole input has been read. *)
Theorem ParseExpression_reads_the_grammar (toks : list Token) (n : Node) :
  derives funcs ne 1 toks n -> Check n = None ->
  exists fuel0, forall fuel, (fuel0 <= fuel)%nat ->
    exists t', ParseExpression funcs ts ne Check fuel toks = Ok None t' /\
               Root t' = n /\ tCur t' = Ok eofToken t'.
Proof.
  intros Hd HC. unfold ParseExpression.
  apply (derives_BuildTree true toks n _ TokenEOF); [done|done|reflexivity].
Qed.

(** Two binary operators between three operands: when the second operator
    is of a tighter level than the first it takes the two operands around
    it, and the tree nests to the right; otherwise the tree nests to the
    left. *)
Theorem operators_nest_by_level (a b c op1 op2 : Token) :
  isOperand ne a = true -> isOperand ne b = true -> isOperand ne c = true ->
  (1 <= level (T op1))%nat -> (1 <= level (T op2))%nat ->
  exists fuel0, forall fuel, (fuel0 <= fuel)%nat ->
    exists t',
      BuildTree funcs ts ne Check fuel false
                (NewTree (NewLexTokenPager [a; op1; b; op2; c])) = Ok None t' /\
      Root t' =
        (if (level (T op1) <? level (T op2))%nat
         then NewBinaryNode op1 (operandNode a)
                (NewBinaryNode op2 (operandNode b) (operandNode c))
         else NewBinaryNode op2
                (NewBinaryNode op1 (operandNode a) (operandNode b))
                (operandNode c)).
Proof.
  intros Ha Hb Hc H1 H2.
  pose proof (level_le_5 (T op1)) as H15.
  pose proof (level_le_5 (T op2)) as H25.
  match goal with
  | |- context [Root _ = ?r] => set (tree := r)
  end.
  assert (derives funcs ne 1 [a; op1; b; op2; c] tree) as Hd.
  { subst tree. destruct (Nat.ltb_spec (level (T op1)) (level (T op2))) as [Hlt|Hge].
    - apply (derives_up_to 1 (level (T op1))); [lia|lia|].
      apply (d_binary funcs ne (level (T op1)) op1 [a] [b; op2; c]);
        [lia|done|by apply derives_operand; [lia|]|].
      apply (derives_up_to _ (level (T op2))); [lia|lia|].
      apply (d_binary funcs ne (level (T op2)) op2 [b] [c]);
        [lia|done|by apply derives_operand; [lia|]
        |by apply derives_operand; [lia|]].
    - apply (derives_up_to 1 (level (T op2))); [lia|lia|].
      apply (d_binary funcs ne (level (T op2)) op2 [a; op1; b] [c]);
        [lia|done| |by apply derives_operand; [lia|]].
      apply (derives_up_to _ (level (T op1))); [lia|lia|].
      apply (d_binary funcs ne (level (T op1)) op1 [a] [b]);
        [lia|done|by apply derives_operand; [lia|]
        |by apply derives_operand; [lia|]]. }
  destruct (derives_BuildTree false _ tree
              (NewTree (NewLexTokenPager [a; op1; b; op2; c])) TokenNil Hd)
    as (fuel0 & Hrun); [done|reflexivity|].
  exists fuel0. intros fuel Hle.
  destruct (Hrun fuel Hle) as (t' & HB & HR & _). by exists t'.
Qed.

(** A group in parentheses is read as one operand, whatever the levels of
    the operators inside and outside it, and the binary node of the group
    has its parenthesis flag raised. *)
Theorem group_is_one_operand (a b c op1 op2 lp rp : Token) :
  isOperand ne a = true -> isOperand ne b = true -> isOperand ne c = true ->
  (1 <= level (T op1))%nat -> (1 <= level (T op2))%nat ->
  T lp = TokenLeftParenthesis -> T rp = TokenRightParenthesis ->
  exists fuel0, forall fuel, (fuel0 <= fuel)%nat ->
    exists t',
      BuildTree funcs ts ne Check fuel false
                (NewTree (NewLexTokenPager [a; op1; lp; b; op2; c; rp]))
      = Ok None t' /\
      Root t' = BinaryNode false op1 (operandNode a)
                  (BinaryNode true op2 (operandNode b) (operandNode c)).
Proof.
  intros Ha Hb Hc H1 H2 Hlp Hrp.
  pose proof (level_le_5 (T op1)) as H15.
  pose proof (level_le_5 (T op2)) as H25.
  match goal with
  | |- context [Root _ = ?r] => set (tree := r)
  end.
  assert (derives funcs ne 1 [a; op1; lp; b; op2; c; rp] tree) as Hd.
  { subst tree.
    apply (derives_up_to 1 (level (T op1))); [lia|lia|].
    apply (d_binary funcs ne (level (T op1)) op1 [a] [lp; b; op2; c; rp]);
      [lia|done|by apply derives_operand; [lia|]|].
    apply (derives_up_to _ 6); [lia|lia|].
    apply (d_group funcs ne lp rp [b; op2; c]
             (NewBinaryNode op2 (operandNode b) (operandNode c)));
      [done|done|].
    apply (derives_up_to 1 (level (T op2))); [lia|lia|].
    apply (d_binary funcs ne (level (T op2)) op2 [b] [c]);
      [lia|done|by apply derives_operand; [lia|]
      |by apply derives_operand; [lia|]]. }
  destruct (derives_BuildTree false _ tree
              (NewTree (NewLexTokenPager [a; op1; lp; b; op2; c; rp]))
              TokenNil Hd)
    as (fuel0 & Hrun); [done|reflexivity|].
  exists fuel0. intros fuel Hle.
  destruct (Hrun fuel Hle) as (t' & HB & HR & _). by exists t'.
Qed.

(** A prefix minus or negation takes the operand that follows it and
    nothing more: the binary operator after the operand has the unary node
    as its left side. *)
Theorem prefix_binds_tightest (m a op b : Token) :
  T m = TokenNegate \/ T m = TokenMinus ->
  isOperand ne a = true -> isOperand ne b = true ->
  (1 <= level (T op))%nat ->
  exists fuel0, forall fuel, (fuel0 <= fuel)%nat ->
    exists t',
      BuildTree funcs ts ne Check fuel false
                (NewTree (NewLexTokenPager [m; a; op; b])) = Ok None t' /\
      Root t' = NewBinaryNode op (NewUnary m (operandNode a)) (operandNode b).
Proof.
  intros Hm Ha Hb H1.
  pose proof (level_le_5 (T op)) as H15.
  match goal with
  | |- context [Root _ = ?r] => set (tree := r)
  end.
  assert (derives funcs ne 1 [m; a; op; b] tree) as Hd.
  { subst tree.
    apply (derives_up_to 1 (level (T op))); [lia|lia|].
    apply (d_binary funcs ne (level (T op)) op [m; a] [b]);
      [lia|done| |by apply derives_operand; [lia|]].
    apply (derives_up_to _ 6); [lia|lia|].
    apply (d_prefix funcs ne m [a]); [done|]. by apply d_operand. }
  destruct (derives_BuildTree false _ tree
              (NewTree (NewLexTokenPager [m; a; op; b])) TokenNil Hd)
    as (fuel0 & Hrun); [done|reflexivity|].
  exists fuel0. intros fuel Hle.
  destruct (Hrun fuel Hle) as (t' & HB & HR & _). by exists t'.
Qed.

(** The rule O on a derivable part of an input, at any depth. *)
Lemma derives_run_at (l pre toks post : list Token) (i : nat) (d : Z)
  (n : Node) (t : Tree) :
  derives funcs ne 1 toks n ->
  l = pre ++ toks ++ post -> i = length pre -> Forall notEOF l ->
  poised l i t ->
  (forall lv', stopsAt lv' (T (nextTok post)) = true) ->
  exists fuel0, forall fuel, (fuel0 <= fuel)%nat ->
    exists t', O funcs ts ne fuel d t = Ok n t' /\
               cursorAt l (i + length toks) t'.
Proof.
  intros Hd Hl Hi Hne Hpo Hstop.
  destruct (proj1 derives_parsed 1%nat toks n Hd l pre post i d t
              (fun n' t' => n' = n /\ cursorAt l (i + length toks) t'))
    as (fuel0 & n' & t' & Hr & -> & Hat); try done.
  - intros te Hte.
    apply (wp_loop_stop 1 d n te (nextTok post)); try done.
    apply (cur_at l _ te _ Hte). subst. apply stream_after.
  - exists fuel0. intros fuel Hle. exists t'. split; [|done].
    exact (extends_Ok _ _ _ _ _ (enter_fuel_le 1 fuel0 fuel d Hle) Hr).
Qed.

(** A group that is not closed: when the expression after a left
    parenthesis is followed by a token that ends it and is no right
    parenthesis (so also by the end of the input), BuildTree panics with
    the error that names this token, and the root is nil. *)
Theorem unclosed_group_panics (b : bool) (lp : Token)
  (toks post : list Token) (n : Node) :
  T lp = TokenLeftParenthesis -> derives funcs ne 1 toks n ->
  Forall notEOF post ->
  (forall lv, stopsAt lv (T (nextTok post)) = true) ->
  T (nextTok post) <> TokenRightParenthesis ->
  exists fuel0, forall fuel, (fuel0 <= fuel)%nat ->
    exists t',
      BuildTree funcs ts ne Check fuel b
                (NewTree (NewLexTokenPager (lp :: toks ++ post)))
      = Panic (PanicError ("expr: unexpected " ++ ts (nextTok post)
                           ++ " in input")) t' /\
      Root t' = NilNode.
Proof.
  intros Hlp Hd Hpost Hstop Hnrp.
  set (l := lp :: toks ++ post).
  assert (Forall notEOF l) as Hne.
  { apply Forall_cons. split; [unfold notEOF; by rewrite Hlp|].
    apply Forall_app. split; [|done]. exact (proj1 derives_notEOF _ _ _ Hd). }
  set (t0 := set_runCheck (NewTree (NewLexTokenPager l)) b).
  assert (poised l 0 t0) as Hpo.
  { right. split; [done|]. by exists TokenNil. }
  assert (stream l !! 0%nat = Some lp) as Hat by done.
  destruct (cur_poised l 0 t0 lp Hne Hpo Hat) as (t1 & Hc & Hat1 & _).
  destruct (step_at l 0 t1 Hne Hat1 ltac:(cbn; lia)) as (x & t2 & _ & Hn & Hat2).
  destruct (derives_run_at l [lp] toks post 1 (0 + 1) n t2 Hd)
    as (fuel0 & Hrun); try done.
  { by left. }
  exists (6 + fuel0)%nat. intros fuel Hle.
  do 6 (destruct fuel as [|fuel]; [lia|]).
  destruct (Hrun fuel ltac:(lia)) as (tr & HO & Hatr).
  assert (tCur tr = Ok (nextTok post) tr) as Hcr.
  { apply (cur_at l _ tr _ Hatr). apply (stream_after [lp] toks post). }
  exists (set_Root tr NilNode). split; [|done].
  assert (F funcs ts ne (S fuel) 0 t0
          = Panic (PanicError ("expr: unexpected " ++ ts (nextTok post)
                               ++ " in input")) (set_Root tr NilNode)) as HF.
  { simpl. unfold bind. rewrite Hc, Hlp, Hn, HO.
    unfold expect, bind. rewrite Hcr.
    destruct (decide (T (nextTok post) <> TokenRightParenthesis)); [|done].
    reflexivity. }
  unfold BuildTree, bind. fold t0.
  assert (O funcs ts ne (S (S (S (S (S (S fuel)))))) 0 t0
          = Panic (PanicError ("expr: unexpected " ++ ts (nextTok post)
                               ++ " in input")) (set_Root tr NilNode)) as HOp.
  { change (O funcs ts ne (S (S (S (S (S (S fuel)))))) 0 t0)
      with (bind (bind (bind (bind (bind (F funcs ts ne (S fuel) 0)
              (M_loop funcs ts ne (S fuel) 0))
              (P_loop funcs ts ne (S (S fuel)) 0))
              (C_loop funcs ts ne (S (S (S fuel))) 0))
              (A_loop funcs ts ne (S (S (S (S fuel)))) 0))
              (O_loop funcs ts ne (S (S (S (S (S fuel))))) 0) t0).
    unfold bind at 1 2 3 4 5. by rewrite HF. }
  by rewrite HOp.
Qed.

End OperatorGrammar.

Section OperatorGrammarRuns.
Import Pager Parser Operators Derivation Fixtures GrammarFixtures.

Lemma call_sum_derivation :
  derives registry_with_fn numberErr 1 call_sum_input call_sum_tree.
Proof.
  apply (derives_up_to _ _ 1 4); [lia|lia|].
  apply (d_binary _ _ 4 (mkToken TokenPlus 17 "+")
           [ mkToken TokenUdfExpr 0 "no_such_fn";
             mkToken TokenLeftParenthesis 10 "(";
             mkToken TokenIdentity 11 "a"; mkToken TokenComma 12 ",";
             mkToken TokenInteger 14 "1";
             mkToken TokenRightParenthesis 15 ")" ]
           [ mkToken TokenIdentity 19 "b"; mkToken TokenMultiply 21 "*";
             mkToken TokenIdentity 23 "c" ]); [lia|reflexivity| |].
  - apply (derives_up_to _ _ 4 6); [lia|lia|].
    apply (d_call _ _ (mkToken TokenUdfExpr 0 "no_such_fn")
             (mkToken TokenLeftParenthesis 10 "(")
             (mkToken TokenRightParenthesis 15 ")")
             (mkFunc "no_such_fn" (Some 1%N))
             [ mkToken TokenIdentity 11 "a"; mkToken TokenComma 12 ",";
               mkToken TokenInteger 14 "1" ]
             [IdentityNode 11 "a"; NumberNode 14 "1"]);
      [reflexivity..|].
    apply (a_more _ _ (mkToken TokenComma 12 ",")
             [mkToken TokenIdentity 11 "a"] [mkToken TokenInteger 14 "1"]);
      [reflexivity| |].
    + apply (derives_operand _ _ 1 (mkToken TokenIdentity 11 "a"));
        [lia|reflexivity].
    + apply a_last.
      apply (derives_operand _ _ 1 (mkToken TokenInteger 14 "1"));
        [lia|reflexivity].
  - apply (d_binary _ _ 5 (mkToken TokenMultiply 21 "*")
             [mkToken TokenIdentity 19 "b"] [mkToken TokenIdentity 23 "c"]);
      [lia|reflexivity| |].
    + apply (derives_operand _ _ 5 (mkToken TokenIdentity 19 "b"));
        [lia|reflexivity].
    + apply (derives_operand _ _ 6 (mkToken TokenIdentity 23 "c"));
        [lia|reflexivity].
Qed.

Lemma ParseExpression_reads_the_grammar_witness :
  exists fuel0, forall fuel, (fuel0 <= fuel)%nat ->
    exists t',
      ParseExpression registry_with_fn tokenText numberErr noCheck fuel
                      call_sum_input = Ok None t' /\
      Root t' = call_sum_tree /\ tCur t' = Ok eofToken t'.
Proof.
  apply (ParseExpression_reads_the_grammar registry_with_fn tokenText
           numberErr noCheck call_sum_input call_sum_tree).
  - exact call_sum_derivation.
  - reflexivity.
Defined.

Lemma unclosed_group_panics_witness :
  exists fuel0, forall fuel, (fuel0 <= fuel)%nat ->
    exists t',
      BuildTree ∅ tokenText numberErr noCheck fuel true
                (NewTree (NewLexTokenPager
                            [tokLeft 0; tokA; tokPlus 2; tokB]))
      = Panic (PanicError "expr: unexpected  in input") t' /\
      Root t' = NilNode.
Proof.
  apply (unclosed_group_panics ∅ tokenText numberErr noCheck true
           (tokLeft 0) [tokA; tokPlus 2; tokB] []
           (NewBinaryNode (tokPlus 2) (operandNode tokA) (operandNode tokB))).
  - reflexivity.
  - apply (derives_up_to _ _ 1 4); [lia|lia|].
    apply (d_binary _ _ 4 (tokPlus 2) [tokA] [tokB]);
      [lia|reflexivity| |].
    + apply (derives_operand _ _ 4 tokA); [lia|reflexivity].
    + apply (derives_operand _ _ 5 tokB); [lia|reflexivity].
  - constructor.
  - intros lv. by destruct lv as [|[|[|[|[|[|lv]]]]]].
  - discriminate.
Defined.

Lemma operators_nest_by_level_witness :
  exists fuel0, forall fuel, (fuel0 <= fuel)%nat ->
    exists t',
      BuildTree ∅ tokenText numberErr noCheck fuel false
                (NewTree (NewLexTokenPager
                            [tokA; tokPlus 2; tokB; tokTimes 6; tokC]))
      = Ok None t' /\
      Root t' = NewBinaryNode (tokPlus 2) (operandNode tokA)
                  (NewBinaryNode (tokTimes 6) (operandNode tokB)
                                 (operandNode tokC)).
Proof.
  apply (operators_nest_by_level ∅ tokenText numberErr noCheck
           tokA tokB tokC (tokPlus 2) (tokTimes 6));
    first [reflexivity | cbn; lia].
Defined.

Lemma group_is_one_operand_witness :
  exists fuel0, forall fuel, (fuel0 <= fuel)%nat ->
    exists t',
      BuildTree ∅ tokenText numberErr noCheck fuel false
                (NewTree (NewLexTokenPager
                            [tokA; tokTimes 2; tokLeft 4; tokB; tokPlus 6;
                             tokC; tokRight 9]))
      = Ok None t' /\
      Root t' = BinaryNode false (tokTimes 2) (operandNode tokA)
                  (BinaryNode true (tokPlus 6) (operandNode tokB)
                              (operandNode tokC)).
Proof.
  apply (group_is_one_operand ∅ tokenText numberErr noCheck
           tokA tokB tokC (tokTimes 2) (tokPlus 6) (tokLeft 4) (tokRight 9));
    first [reflexivity | cbn; lia].
Defined.

Lemma prefix_binds_tightest_witness :
  exists fuel0, forall fuel, (fuel0 <= fuel)%nat ->
    exists t',
      BuildTree ∅ tokenText numberErr noCheck fuel false
                (NewTree (NewLexTokenPager
                            [tokMinus 0; tokB; tokTimes 6; tokC]))
      = Ok None t' /\
      Root t' = NewBinaryNode (tokTimes 6)
                  (NewUnary (tokMinus 0) (operandNode tokB)) (operandNode tokC).
Proof.
  apply (prefix_binds_tightest ∅ tokenText numberErr noCheck
           (tokMinus 0) tokB (tokTimes 6) tokC);
    first [reflexivity | cbn; lia | by right].
Defined.

End OperatorGrammarRuns.

(** ** The token pager: Backup *)

Section PagerBackup.
Import Pager.

(** Backup un-reads one token: past the first token, the token under the
    cursor is the token the next call of Next returns after a Backup, and
    the cursor is then where it was. *)
Theorem Backup_unreads_one_token (m m0 : LexTokenPager) (tok : Token) :
  cursor m > 0 -> Cur m = Some (tok, m0) ->
  exists m', Next (Backup m) = Some (tok, m') /\ cursor m' = cursor m.
Proof.
  intros Hc HCur. unfold Cur in HCur.
  destruct (decide (cursor m = -1)) as [|_]; [lia|].
  destruct (index (tokens m) (cursor m)) as [tk|] eqn:Hi; [|done].
  injection HCur as -> _.
  pose proof (index_Some_range _ _ _ Hi) as Hr.
  unfold Backup. destruct (decide (cursor m > 0)) as [_|]; [|lia].
  unfold Next, pull. cbn [set_cursor done tokens cursor lex end_].
  destruct (done m).
  - unfold advance. cbn [set_cursor tokens cursor].
    destruct (decide _) as [_|]; [|lia]. cbn [set_cursor tokens cursor].
    replace (cursor m - 1 + 1) with (cursor m) by lia. rewrite Hi. eauto.
  - destruct (NextToken (lex m)) as [tk lx]. unfold advance.
    cbn [set_cursor tokens cursor]. unfold len in *.
    rewrite length_app. cbn [length].
    destruct (decide _) as [_|]; [|lia]. cbn [set_cursor tokens cursor].
    replace (cursor m - 1 + 1) with (cursor m) by lia.
    rewrite (index_app_l _ _ _ _ Hi). eauto.
Qed.

Lemma Backup_unreads_one_token_witness :
  let a := mkToken TokenIdentity 0 "a" in
  let b := mkToken TokenIdentity 2 "b" in
  let c := mkToken TokenIdentity 4 "c" in
  exists m', Next (Backup (mkPager false [a; b] 1 [c] TokenNil)) = Some (b, m')
             /\ cursor m' = 1.
Proof.
  cbv zeta.
  apply (Backup_unreads_one_token
           (mkPager false [mkToken TokenIdentity 0 "a";
                           mkToken TokenIdentity 2 "b"] 1
                    [mkToken TokenIdentity 4 "c"] TokenNil)
           (mkPager false [mkToken TokenIdentity 0 "a";
                           mkToken TokenIdentity 2 "b"] 1
                    [mkToken TokenIdentity 4 "c"] TokenNil)).
  - cbn. lia.
  - reflexivity.
Defined.

End PagerBackup.

(** ** The writers: sequences of calls *)

Section DialectCallFacts.
Import Dialect DialectMore DialectCalls.

Variable LQE : ascii -> string -> string.
Variable IME : ascii -> string -> string.

Lemma appended_refl (w : defaultDialect) : appended w w EmptyString.
Proof.
  unfold appended, set_Buffer. destruct w as [b n lq iq sn]. cbn.
  f_equal. induction b as [|ch b IH]; [done|].
  change (String ch b = String ch (b ++ EmptyString))%string. by rewrite <- IH.
Qed.

Lemma default_WriteLeftRightIdentity_appends (w : defaultDialect)
  (l r : string) :
  exists s, appended w (default_WriteLeftRightIdentity IME w l r) s.
Proof.
  unfold default_WriteLeftRightIdentity.
  destruct (decide _); [eexists; apply default_WriteIdentity_appended|].
  destruct (stripNamespace w);
    [eexists; apply default_WriteIdentity_appended|].
  eexists.
  eapply appended_trans; [apply default_WriteIdentity_appended|].
  eapply appended_trans; [reflexivity|].
  apply default_WriteIdentity_appended.
Qed.

Lemma call_appended (w : defaultDialect) (c : Call) :
  exists s, appended w (@call _ (defaultDialect_writer LQE IME) w c) s.
Proof.
  destruct c as [s|l|i|l r|i q|n|]; cbn [call].
  - by exists s.
  - cbn. unfold default_WriteLiteral. destruct (decide _); by eexists.
  - eexists. apply default_WriteIdentity_appended.
  - apply default_WriteLeftRightIdentity_appends.
  - cbn. unfold default_WriteIdentityQuote. destruct (decide _); by eexists.
  - by exists n.
  - by eexists.
Qed.

(** The default writer only appends: whatever calls are made on it, the
    output it had is a prefix of the output it has afterwards, and its
    quotes, its null text and its namespace setting are as they were. *)
Theorem default_writer_only_appends (w : defaultDialect) (cs : list Call) :
  exists s,
    appended w (@calls _ (defaultDialect_writer LQE IME) w cs) s.
Proof.
  revert w. induction cs as [|c cs IH]; intros w.
  - exists EmptyString. apply appended_refl.
  - destruct (call_appended w c) as (s1 & H1).
    destruct (IH (@call _ (defaultDialect_writer LQE IME) w c)) as (s2 & H2).
    exists (s1 ++ s2)%string. exact (appended_trans _ _ _ _ _ H1 H2).
Qed.

Section FingerprintCalls.
Context {W : Type} `{DialectWriter W}.

Lemma fingerprint_call_alike (w : fingerprintDialect W) (c1 c2 : Call) :
  alike c1 c2 -> call w c1 = call w c2.
Proof.
  destruct c1, c2; cbn [alike]; intros Ha; try discriminate Ha;
    try (by rewrite Ha); try reflexivity.
  cbn. unfold fp_WriteIdentity. by rewrite Ha.
Qed.

(** The fingerprint of a text does not depend on its values: two sequences
    of calls that differ only in the values of their literals and numbers,
    and in the case of the letters of their unqualified identities, leave
    a fingerprint writer in the same state, so with the same output. *)
Theorem fingerprint_ignores_values (w : fingerprintDialect W)
  (cs1 cs2 : list Call) :
  Forall2 alike cs1 cs2 -> calls w cs1 = calls w cs2.
Proof.
  intros Ha. revert w.
  induction Ha as [|c1 c2 cs1 cs2 Hc _ IH]; intros w; [done|].
  cbn [calls foldl]. rewrite (fingerprint_call_alike w c1 c2 Hc). apply IH.
Qed.

End FingerprintCalls.

Variable SQ : string -> string.

Lemma keyword_call_off (w : keywordDialect) (c : Call) :
  offKeywords w c ->
  @call _ (keywordDialect_writer LQE IME) w c
  = mkKeyword (@call _ (defaultDialect_writer LQE IME) (kw_default w) c) (kw w).
Proof.
  destruct c; cbn [offKeywords call]; intros Hc; try reflexivity.
  cbn. unfold keyword_WriteIdentity, isKeyword. by rewrite Hc.
Qed.

(** The keyword writer differs from the default writer only in WriteIdentity
    on its keywords: calls that make no such call leave in it the writer the
    default writer it embeds would have become, and its keywords as they
    were. So a keyword inside a qualified identity is written as the
    default writer writes it. *)
Theorem keyword_writer_differs_only_on_keywords (w : keywordDialect)
  (cs : list Call) :
  Forall (offKeywords w) cs ->
  @calls _ (keywordDialect_writer LQE IME) w cs
  = mkKeyword (@calls _ (defaultDialect_writer LQE IME) (kw_default w) cs)
              (kw w).
Proof.
  revert w. induction cs as [|c cs IH]; intros w Hcs.
  - by destruct w.
  - apply Forall_cons in Hcs as [Hc Hcs]. cbn [calls foldl].
    rewrite (keyword_call_off w c Hc). unfold calls in IH. by rewrite IH.
Qed.

Lemma json_call_off (w : jsonDialect) (c : Call) :
  offLiterals c ->
  @call _ (jsonDialect_writer LQE IME SQ) w c
  = mkJson (@call _ (defaultDialect_writer LQE IME) (json_default w) c).
Proof.
  destruct c; cbn [offLiterals call]; intros Hc; try reflexivity.
  subst. cbn. unfold json_WriteLiteral, default_WriteLiteral.
  by destruct (decide (star = star)).
Qed.

(** The JSON writer differs from the default writer only in WriteLiteral on
    a literal other than the star: calls that make no such call leave in it
    the writer the default writer it embeds would have become. *)
Theorem json_writer_differs_only_on_literals (w : jsonDialect)
  (cs : list Call) :
  Forall offLiterals cs ->
  @calls _ (jsonDialect_writer LQE IME SQ) w cs
  = mkJson (@calls _ (defaultDialect_writer LQE IME) (json_default w) cs).
Proof.
  revert w. induction cs as [|c cs IH]; intros w Hcs.
  - by destruct w.
  - apply Forall_cons in Hcs as [Hc Hcs]. cbn [calls foldl].
    rewrite (json_call_off w c Hc). unfold calls in IH. by rewrite IH.
Qed.

End DialectCallFacts.

Section DialectCallRuns.
Import Dialect DialectCalls Fixtures.

Lemma fingerprint_ignores_values_witness :
  @calls _ fingerprintW NewFingerPrinter calls_upper
  = @calls _ fingerprintW NewFingerPrinter calls_lower.
Proof.
  apply (@fingerprint_ignores_values defaultDialect defaultW
           NewFingerPrinter calls_upper calls_lower).
  repeat constructor.
Defined.

Lemma keyword_writer_differs_only_on_keywords_witness :
  @calls _ keywordW (NewKeywordDialect ["select"%string])
         [CLeftRightIdentity "t" "select"; CIdentity "Name"]
  = mkKeyword (@calls _ defaultW NewDefaultWriter
                      [CLeftRightIdentity "t" "select"; CIdentity "Name"])
              (kw (NewKeywordDialect ["select"%string])).
Proof.
  apply (keyword_writer_differs_only_on_keywords LiteralQuoteEscape
           IdentityMaybeEscape (NewKeywordDialect ["select"%string])
           [CLeftRightIdentity "t" "select"; CIdentity "Name"]).
  repeat constructor.
Defined.

Lemma json_writer_differs_only_on_literals_witness :
  @calls _ (jsonDialect_writer LiteralQuoteEscape IdentityMaybeEscape
              (LiteralQuoteEscape "034"%char))
         NewJSONDialectWriter calls_upper
  = mkJson (@calls _ defaultW NewDefaultWriter calls_upper).
Proof.
  apply (json_writer_differs_only_on_literals LiteralQuoteEscape
           IdentityMaybeEscape (LiteralQuoteEscape "034"%char)
           NewJSONDialectWriter calls_upper).
  repeat constructor.
Defined.

End DialectCallRuns.
